(** * puzzlebb: the backtracking puzzle solver, embedded and verified

    The development follows [src/solvers/baseline.ts] (the solver whose memo
    key is bit-packed) and the earlier solver of the same name kept with
    [src/puzzle/validate.ts] (the solver whose memo key is a delimited
    string).  The two differ in [encodeState] only, so the search is written
    once, in a section over the key function, and instantiated twice.

    Conventions of the embedding:
    - a JS string is a [string]; one [ascii] stands for one code unit below
      256, which covers every label of the puzzle;
    - a JS number that holds a counter is a [Z]; an array index or a search
      position is a [nat];
    - a JS array is a [list], read with [!!!] and written with [<[i:=x]>];
      the source only ever indexes inside the array;
    - [Map<string, boolean>] is a [gmap string bool];
    - [throw new Error(..)] is the left injection of a sum. *)

From Stdlib Require Import ZArith Ascii String.
From stdpp Require Import base list strings gmap sorting.

Local Open Scope string_scope.
Local Open Scope Z_scope.

(** ** Strings and numbers of the host language *)

Module JS.

(** [\s] of a regular expression and the characters [trim] removes, on the
    code units below 256: TAB, LF, VT, FF, CR, SPACE, NBSP. *)
Definition isWhiteSpace (c : ascii) : bool :=
  match N_of_ascii c with
  | 9%N | 10%N | 11%N | 12%N | 13%N | 32%N | 160%N => true
  | _ => false
  end.

Fixpoint trimStart (s : string) : string :=
  match s with
  | String c r => if isWhiteSpace c then trimStart r else s
  | EmptyString => EmptyString
  end.

Fixpoint revString (acc s : string) : string :=
  match s with
  | String c r => revString (String c acc) r
  | EmptyString => acc
  end.

(** [String.prototype.trim]. *)
Definition trim (s : string) : string :=
  revString "" (trimStart (revString "" (trimStart s))).

(** [s.split(/\s+/)]: the pieces between the maximal runs of white space.
    [cur] is the piece being read, [inSep] says that the previous character
    belonged to a separator already closed.  A string that starts (ends)
    with white space yields an empty first (last) piece, and the empty
    string yields one empty piece, as in the host language. *)
Fixpoint splitGo (cur : string) (inSep : bool) (s : string) : list string :=
  match s with
  | EmptyString => [cur]
  | String c r =>
      if isWhiteSpace c then
        if inSep then splitGo "" true r else cur :: splitGo "" true r
      else splitGo (cur +:+ String c "") false r
  end.

Definition splitWhiteSpace (s : string) : list string := splitGo "" false s.

(** [Array.prototype.indexOf] on an array of strings, [-1] when absent. *)
Fixpoint indexOfFrom (i : Z) (l : list string) (x : string) : Z :=
  match l with
  | [] => -1
  | y :: l' => if String.eqb y x then i else indexOfFrom (i + 1) l' x
  end.

Definition indexOf (l : list string) (x : string) : Z := indexOfFrom 0 l x.

(** [Array.prototype.includes] on an array of strings. *)
Definition includes (l : list string) (x : string) : bool :=
  existsb (String.eqb x) l.

(** [w.includes("B")]: the one-character pattern occurs in [w]. *)
Fixpoint includesChar (c : ascii) (w : string) : bool :=
  match w with
  | EmptyString => false
  | String d r => Ascii.eqb d c || includesChar c r
  end.

(** [Array.prototype.sort(cmp)].  The language requires the sort to be
    stable; for a comparator that is a total preorder the result is then
    determined, and it is the one insertion sort computes. *)
Section Sort.
Context {A : Type} (cmp : A → A → Z).

Fixpoint sortInsert (x : A) (l : list A) : list A :=
    match l with
    | [] => [x]
    | y :: l' => if cmp x y <=? 0 then x :: y :: l' else y :: sortInsert x l'
    end.

Fixpoint sort (l : list A) : list A :=
    match l with
    | [] => []
    | x :: l' => sortInsert x (sort l')
    end.
End Sort.

(** [a.localeCompare(b)].  The solver applies it to validated labels only
    (capital ASCII letters), where collation is the order of the code
    units: a negative, zero or positive number. *)
Fixpoint localeCompare (a b : string) : Z :=
  match a, b with
  | EmptyString, EmptyString => 0
  | EmptyString, String _ _ => -1
  | String _ _, EmptyString => 1
  | String c a', String d b' =>
      match N.compare (N_of_ascii c) (N_of_ascii d) with
      | Lt => -1
      | Gt => 1
      | Eq => localeCompare a' b'
      end
  end.

(** [ToInt32]: the operands and results of the bitwise operators are
    32-bit two's complement integers. *)
Definition ToInt32 (z : Z) : Z :=
  let m := z mod 2 ^ 32 in
  if 2 ^ 31 <=? m then m - 2 ^ 32 else m.

Definition bitAnd (a b : Z) : Z := ToInt32 (Z.land (ToInt32 a) (ToInt32 b)).
Definition bitOr (a b : Z) : Z := ToInt32 (Z.lor (ToInt32 a) (ToInt32 b)).

(** [a << b]: only the low five bits of the shift count are used. *)
Definition shiftLeft (a b : Z) : Z :=
  ToInt32 (Z.shiftl (ToInt32 a) (Z.land (b mod 2 ^ 32) 31)).

(** Digits of [Number.prototype.toString(radix)] for an integer. *)
Definition digitChar (d : Z) : ascii :=
  if d <? 10 then ascii_of_N (Z.to_N (48 + d)) else ascii_of_N (Z.to_N (87 + d)).

Fixpoint digitsGo (fuel : nat) (radix n : Z) (acc : string) : string :=
  match fuel with
  | O => acc
  | S fuel' =>
      let acc' := String (digitChar (n mod radix)) acc in
      if n <? radix then acc' else digitsGo fuel' radix (n / radix) acc'
  end.

(** [n.toString(radix)] for an integer [n] and [2 <= radix <= 36].  The
    fuel is the bit length of [n], more than the number of digits. *)
Definition toStringRadix (radix n : Z) : string :=
  let a := Z.abs n in
  let ds := digitsGo (S (Z.to_nat (Z.log2 a))) radix a "" in
  if n <? 0 then String "-" ds else ds.

(** [xs.join(sep)] on an array of strings. *)
Fixpoint join (sep : string) (xs : list string) : string :=
  match xs with
  | [] => ""
  | [x] => x
  | x :: xs' => x +:+ sep +:+ join sep xs'
  end.

End JS.

(** ** The solver: input, derived tables, search state *)

Definition ORDER : list string := ["BX"; "AX"; "B"; "A"].

Definition LABELS : list string := ["A"; "B"; "AX"; "BX"].

(** The four [throw] sites of [baselineSolver]. *)
Inductive Error : Type :=
  | ExpectedSixteenLines
  | ExpectedFourWords
  | InvalidWord (w : string) (i : nat)
  | NoValidSolution.

(** [line.trim().split(/\s+/).sort((a, b) => ORDER.indexOf(a) - ORDER.indexOf(b))] *)
Definition orderCompare (a b : string) : Z :=
  JS.indexOf ORDER a - JS.indexOf ORDER b.

Definition tokens (line : string) : list string :=
  JS.splitWhiteSpace (JS.trim line).

Definition parseLine (line : string) : list string :=
  JS.sort orderCompare (tokens line).

(** The double loop that validates the words: the first cell, row by row,
    whose word is not a label. *)
Definition cells : list (nat * nat) :=
  flat_map (λ i, (λ k, (i, k)) <$> seq 0 4) (seq 0 16).

Definition invalidCell (rows : list (list string)) (ik : nat * nat) : bool :=
  negb (JS.includes LABELS ((rows !!! ik.1) !!! ik.2)).

Definition wordIncludesB (w : string) : bool := JS.includesChar "B"%char w.

(** [uniquePermutationsOf3]: [backtrack] is the inner closure; [n] is the
    number of items still to choose, so [perm.length === 3] is [n = 0].
    [used] and [perm] are restored by the source after each call, which is
    what passing them by value gives. *)
Fixpoint backtrack (combined : list (string * nat)) (n : nat)
    (used : list bool) (perm : list nat) : list (list nat) :=
  match n with
  | O => [perm]
  | S n' =>
      flat_map (λ i : nat,
        if (used !!! i : bool) then []
        else if bool_decide (0 < i)%nat && negb (used !!! (i - 1)%nat)
                && String.eqb (combined !!! i).1 (combined !!! (i - 1)%nat).1
             then []
             else backtrack combined n' (<[i := true]> used)
                    (perm ++ [(combined !!! i).2]))
        (seq 0 3)
  end.

Definition uniquePermutationsOf3 (words : list string) (idxs : list nat)
    : list (list nat) :=
  let combined :=
    JS.sort (λ a b, JS.localeCompare a.1 b.1)
      [(words !!! 0%nat, idxs !!! 0%nat);
       (words !!! 1%nat, idxs !!! 1%nat);
       (words !!! 2%nat, idxs !!! 2%nat)] in
  backtrack combined 3 [false; false; false] [].

(** The tables [baselineSolver] derives from the parsed rows before the
    search; they are not written again. *)
Record Tables : Type := mkTables {
  rows : list (list string);
  xIsBX : list bool;
  hasB : list (list bool);
  totalB : list Z;
  totalBInPuzzle : Z;
  rowOrder : list nat;
  rowNonXPerms : list (list (list nat))
}.

Definition countB (row : list string) : Z :=
  foldl (λ (bCount : Z) (k : nat), if wordIncludesB (row !!! k) then bCount + 1 else bCount)
        0 (seq 0 4).

Definition rowCompare (xIsBX : list bool) (totalB : list Z) (i j : nat) : Z :=
  if (xIsBX !!! i) && negb (xIsBX !!! j) then -1
  else if negb (xIsBX !!! i) && (xIsBX !!! j) then 1
  else totalB !!! i - totalB !!! j.

Definition makeUniquePerms3 (rows : list (list string)) (rowIdx : nat)
    : list (list nat) :=
  let xi := 0%nat in
  let others := filter (λ k, k ≠ xi) (seq 0 4) in
  let words := (λ k, (rows !!! rowIdx) !!! k) <$> others in
  uniquePermutationsOf3 words others.

Definition makeTables (rows : list (list string)) : Tables :=
  let xIsBX := (λ i, String.eqb ((rows !!! i) !!! 0%nat) "BX") <$> seq 0 16 in
  let hasB := (λ r : list string, wordIncludesB <$> r) <$> rows in
  let totalB := (λ i, countB (rows !!! i)) <$> seq 0 16 in
  {| rows := rows;
     xIsBX := xIsBX;
     hasB := hasB;
     totalB := totalB;
     totalBInPuzzle := foldl Z.add 0 totalB;
     rowOrder := JS.sort (rowCompare xIsBX totalB) (seq 0 16);
     rowNonXPerms := makeUniquePerms3 rows <$> seq 0 16 |}.

(** The arrays the search mutates, and the memo. *)
Record State (K : Type) `{Countable K} : Type := mkState {
  XCapacity : list Z;
  BXCapacity : list Z;
  BCount : list Z;
  finalArrangement : list (list string);
  memo : gmap K bool
}.
Arguments mkState {K _ _}.
Arguments XCapacity {K _ _}.
Arguments BXCapacity {K _ _}.
Arguments BCount {K _ _}.
Arguments finalArrangement {K _ _}.
Arguments memo {K _ _}.

Definition initialState {K : Type} `{Countable K} : State K :=
  {| XCapacity := [4; 4; 4; 4];
     BXCapacity := [1; 1; 1; 1];
     BCount := [0; 0; 0; 0];
     finalArrangement := replicate 16 (replicate 4 "");
     memo := ∅ |}.

(** ** The search, over the function that builds the memo key *)

Section Search.
Context {K : Type} `{Countable K}.
Variable encodeState : nat → list Z → list Z → list Z → K.
Variable T : Tables.

Implicit Type st : State K.

Definition canStillReach4B st (c : nat) (rowsLeft : Z) : bool :=
    4 <=? BCount st !!! c + rowsLeft.

Definition isOverloadedB st (c : nat) : bool :=
    totalBInPuzzle T - 12 <? BCount st !!! c.

  (** [finalArrangement[rIdx][c] = w] *)
Definition setCell st (rIdx c : nat) (w : string) : State K :=
    {| XCapacity := XCapacity st;
       BXCapacity := BXCapacity st;
       BCount := BCount st;
       finalArrangement :=
         <[rIdx := <[c := w]> (finalArrangement st !!! rIdx)]> (finalArrangement st);
       memo := memo st |}.

Definition setXCapacity st (v : list Z) : State K :=
    {| XCapacity := v; BXCapacity := BXCapacity st; BCount := BCount st;
       finalArrangement := finalArrangement st; memo := memo st |}.

Definition setBXCapacity st (v : list Z) : State K :=
    {| XCapacity := XCapacity st; BXCapacity := v; BCount := BCount st;
       finalArrangement := finalArrangement st; memo := memo st |}.

Definition setBCount st (v : list Z) : State K :=
    {| XCapacity := XCapacity st; BXCapacity := BXCapacity st; BCount := v;
       finalArrangement := finalArrangement st; memo := memo st |}.

Definition setMemo st (k : K) (b : bool) : State K :=
    {| XCapacity := XCapacity st; BXCapacity := BXCapacity st;
       BCount := BCount st; finalArrangement := finalArrangement st;
       memo := <[k := b]> (memo st) |}.

  (** [BCount[c]++] *)
Definition incrBCount st (c : nat) : State K :=
    setBCount st (<[c := BCount st !!! c + 1]> (BCount st)).

  (** [for (let c = 0; c < 4; c++) BCount[c] = old[c];] *)
Definition restoreBCount st (old : list Z) : State K :=
    setBCount st (foldl (λ (b : list Z) (c : nat), <[c := old !!! c]> b) (BCount st) (seq 0 4)).

  (** The test at [pos === 16]. *)
Definition finalCheck st : bool :=
    forallb (λ c : nat, (XCapacity st !!! c =? 0)
                  && negb (BCount st !!! c <? 4)
                  && negb (BXCapacity st !!! c <? 0)) (seq 0 4).

  (** "Place the X": the statements between "Save state" and the loop over
      the permutations. *)
Definition placeX st (rIdx colX : nat) : State K :=
    let row : list string := rows T !!! rIdx in
    let xi := 0%nat in
    let isBX : bool := xIsBX T !!! rIdx in
    let oldXCap : Z := XCapacity st !!! colX in
    let oldBXCap : Z := BXCapacity st !!! colX in
    let st := setCell st rIdx colX (row !!! xi) in
    let st := setXCapacity st (<[colX := oldXCap - 1]> (XCapacity st)) in
    let st := if isBX then setBXCapacity st (<[colX := oldBXCap - 1]> (BXCapacity st))
              else st in
    if ((hasB T !!! rIdx) !!! xi : bool) then incrBCount st colX else st.

Definition otherCols (colX : nat) : list nat :=
    filter (λ c, c ≠ colX) (seq 0 4).

  (** The loop over [i3] that places the three other words. *)
Definition placeOthers st (rIdx colX : nat) (p3 : list nat) : State K :=
    foldl (λ (st : State K) (i3 : nat),
             let wIndex : nat := p3 !!! i3 in
             let c : nat := otherCols colX !!! i3 in
             let st := setCell st rIdx c ((rows T !!! rIdx) !!! wIndex) in
             if ((hasB T !!! rIdx) !!! wIndex : bool) then incrBCount st c else st)
          st (seq 0 3).

  (** "B pruning": [valid] after the loop over the columns. *)
Definition pruneValid st (pos : nat) : bool :=
    let rowsLeft := 16 - (Z.of_nat pos + 1) in
    forallb (λ c : nat, canStillReach4B st c rowsLeft && negb (isOverloadedB st c))
            (seq 0 4).

  (** [for (const p3 of perms3)]: the result is [foundSolution]. *)
Fixpoint permLoop (rec : State K → bool * State K) (pos rIdx colX : nat)
      (perms3 : list (list nat)) st : bool * State K :=
    match perms3 with
    | [] => (false, st)
    | p3 :: rest =>
        let oldB2 := BCount st in
        let st := placeOthers st rIdx colX p3 in
        if pruneValid st pos then
          let '(ok, st) := rec st in
          if ok then (true, st)
          else permLoop rec pos rIdx colX rest (restoreBCount st oldB2)
        else permLoop rec pos rIdx colX rest (restoreBCount st oldB2)
    end.

  (** "Revert X" *)
Definition revertX st (colX : nat) (oldXCap oldBXCap : Z) (oldB : list Z)
      : State K :=
    let st := setXCapacity st (<[colX := oldXCap]> (XCapacity st)) in
    let st := setBXCapacity st (<[colX := oldBXCap]> (BXCapacity st)) in
    restoreBCount st oldB.

  (** [for (let colX = 0; colX < 4; colX++)]: the result says whether the
      loop left through [return true]. *)
Fixpoint colLoop (rec : State K → bool * State K) (pos rIdx : nat)
      (cols : list nat) st : bool * State K :=
    match cols with
    | [] => (false, st)
    | colX :: rest =>
        if XCapacity st !!! colX <=? 0 then colLoop rec pos rIdx rest st
        else if (xIsBX T !!! rIdx) && (BXCapacity st !!! colX <=? 0)
        then colLoop rec pos rIdx rest st
        else
          let oldXCap : Z := XCapacity st !!! colX in
          let oldBXCap : Z := BXCapacity st !!! colX in
          let oldB := BCount st in
          let st := placeX st rIdx colX in
          let '(foundSolution, st) :=
            permLoop rec pos rIdx colX (rowNonXPerms T !!! rIdx) st in
          if foundSolution then (true, st)
          else colLoop rec pos rIdx rest (revertX st colX oldXCap oldBXCap oldB)
    end.

  (** [assignRow(pos)], by recursion on the rows still to place:
      [pos = 16 - left], so that [pos === 16] is [left = 0] and
      [assignRow(pos + 1)] is the call on the predecessor of [left]. *)
Fixpoint assignRow (left : nat) st : bool * State K :=
    match left with
    | O => (finalCheck st, st)
    | S left' =>
        let pos := (16 - left)%nat in
        let stateKey := encodeState pos (XCapacity st) (BXCapacity st) (BCount st) in
        match memo st !! stateKey with
        | Some b => (b, st)
        | None =>
            let rIdx : nat := rowOrder T !!! pos in
            let '(found, st) :=
              colLoop (assignRow left') pos rIdx (seq 0 4) st in
            (found, setMemo st stateKey found)
        end
    end.

End Search.

(** [baselineSolver], over the key function. *)
Definition solveWith {K : Type} `{Countable K}
    (encodeState : nat → list Z → list Z → list Z → K)
    (inputLines : list string) : Error + list (list string) :=
  if negb (length inputLines =? 16)%nat then inl ExpectedSixteenLines
  else
    let rows := parseLine <$> inputLines in
    if negb (forallb (λ r, (length r =? 4)%nat) rows) then inl ExpectedFourWords
    else
      match find (invalidCell rows) cells with
      | Some ik => inl (InvalidWord ((rows !!! ik.1) !!! ik.2) ik.1)
      | None =>
          let T := makeTables rows in
          let '(ok, st) := assignRow encodeState T 16 initialState in
          if negb ok then inl NoValidSolution
          else inr (finalArrangement st)
      end.

(** ** The two key functions *)

(** [encodeState] of [src/solvers/baseline.ts]: the fields are combined with
    the 32-bit operators [&], [<<] and [|=], then printed in base 36. *)
Definition packState (pos : nat) (XCapacity BXCapacity BCount : list Z) : Z :=
  let s := 0 in
  let s := foldl (λ (s : Z) (c : nat), JS.bitOr s (JS.shiftLeft (JS.bitAnd (BCount !!! c) 31)
                                        (5 * Z.of_nat c))) s (seq 0 4) in
  let bxPart := foldl (λ (b : Z) (c : nat), JS.bitOr b (JS.shiftLeft (JS.bitAnd (BXCapacity !!! c) 1)
                                             (Z.of_nat c))) 0 (seq 0 4) in
  let s := JS.bitOr s (JS.shiftLeft bxPart 20) in
  let xPart := foldl (λ (x : Z) (c : nat), JS.bitOr x (JS.shiftLeft (JS.bitAnd (XCapacity !!! c) 7)
                                            (3 * Z.of_nat c))) 0 (seq 0 4) in
  let s := JS.bitOr s (JS.shiftLeft xPart 24) in
  JS.bitOr s (JS.shiftLeft (JS.bitAnd (Z.of_nat pos) 31) 36).

Definition encodeState (pos : nat) (XCapacity BXCapacity BCount : list Z) : string :=
  JS.toStringRadix 36 (packState pos XCapacity BXCapacity BCount).

(** [encodeState] of the solver kept with [src/puzzle/validate.ts]:
    [[pos, XCapacity.join(","), BXCapacity.join(","), BCount.join(",")].join("|")] *)
Definition encodeStateText (pos : nat) (XCapacity BXCapacity BCount : list Z) : string :=
  JS.join "|"
    [JS.toStringRadix 10 (Z.of_nat pos);
     JS.join "," (JS.toStringRadix 10 <$> XCapacity);
     JS.join "," (JS.toStringRadix 10 <$> BXCapacity);
     JS.join "," (JS.toStringRadix 10 <$> BCount)].

(** [baselineSolver] of [src/solvers/baseline.ts]. *)
Definition baselineSolver : list string → Error + list (list string) :=
  solveWith encodeState.

(** [baselineSolver] of the solver kept with [src/puzzle/validate.ts]; its
    [prevColX], [lines] and [sameLineWithBefore] are written and never
    read, and are left out. *)
Definition baselineSolverText : list string → Error + list (list string) :=
  solveWith encodeStateText.

(** ** The vocabulary of the specification *)

(** [MalformedInput] covers the three errors raised before the search;
    [NoSolution] is the fourth. *)
Definition MalformedInput (e : Error) : Prop := e ≠ NoValidSolution.

(** Marked (AX or BX), flagged (B or BX) and flagged-marked (BX) words, as
    [validatePuzzle] tests them. *)
Definition isMarkedWord (w : string) : bool :=
  String.eqb w "AX" || String.eqb w "BX".

Definition isFlaggedWord (w : string) : bool :=
  String.eqb w "B" || String.eqb w "BX".

Definition isFlaggedMarkedWord (w : string) : bool := String.eqb w "BX".

Definition countWords (f : string → bool) (ws : list string) : nat :=
  length (List.filter f ws).

(** The entries of column [j] that satisfy [f]. *)
Definition colCount (f : string → bool) (grid : list (list string)) (j : nat) : nat :=
  length (List.filter (λ row : list string, f (row !!! j)) grid).

(** A line that passes the three checks of the solver. *)
Definition recognizedLine (line : string) : Prop :=
  length (tokens line) = 4%nat ∧ Forall (λ w, w ∈ LABELS) (tokens line).

(** A row of the data model: four labels, exactly one of them marked. *)
Definition rowLine (line : string) : Prop :=
  recognizedLine line ∧ countWords isMarkedWord (tokens line) = 1%nat.

Definition wellFormed (inputLines : list string) : Prop :=
  length inputLines = 16%nat ∧ Forall rowLine inputLines.

(** The constraints on an output grid. *)
Definition rowsPermuted (inputLines : list string) (grid : list (list string)) : Prop :=
  length grid = 16%nat ∧
  ∀ i, (i < 16)%nat → grid !!! i ≡ₚ tokens (inputLines !!! i).

Definition columnsValid (grid : list (list string)) : Prop :=
  ∀ j, (j < 4)%nat →
    colCount isMarkedWord grid j = 4%nat ∧
    (4 ≤ colCount isFlaggedWord grid j)%nat ∧
    (colCount isFlaggedMarkedWord grid j ≤ 1)%nat.

Definition validGrid (inputLines : list string) (grid : list (list string)) : Prop :=
  rowsPermuted inputLines grid ∧ columnsValid grid.


(** ** Concrete inputs used as examples *)

(** A solvable instance with one marked word in every row. *)
Definition exampleInput : list string :=
  ["A A A AX"; "A A B AX"; "A AX A B"; "A BX B B";
   "B AX B A"; "BX B A A"; "A AX A A"; "B A AX A";
   "AX A A A"; "BX B A A"; "AX A A A"; "AX A A B";
   "A A A AX"; "B A B AX"; "A B AX B"; "AX A B A"].

(** The same instance with no marked word in row 0 and two in row 1. *)
Definition unmarkedInput : list string :=
  ["A A A A"; "AX A B AX"; "A AX A B"; "A BX B B";
   "B AX B A"; "BX B A A"; "A AX A A"; "B A AX A";
   "AX A A A"; "BX B A A"; "AX A A A"; "AX A A B";
   "A A A AX"; "B A B AX"; "A B AX B"; "AX A B A"].

(** The same instance with no marked word in row 0: fifteen marked words
    in all. *)
Definition fifteenMarkedInput : list string :=
  ["A A A A"; "A A B AX"; "A AX A B"; "A BX B B";
   "B AX B A"; "BX B A A"; "A AX A A"; "B A AX A";
   "AX A A A"; "BX B A A"; "AX A A A"; "AX A A B";
   "A A A AX"; "B A B AX"; "A B AX B"; "AX A B A"].

(** The marked word of a row and the number of its flagged words. *)
Definition markedWord (line : string) : option string :=
  find isMarkedWord (tokens line).

Definition flaggedCount (line : string) : nat :=
  countWords isFlaggedWord (tokens line).

(** All rows of four labels. *)
Definition allRows : list (list string) :=
  a ← LABELS; b ← LABELS; c ← LABELS; d ← LABELS; [[a; b; c; d]].

(** The three column arrays of a search state. *)
Definition columnState {K} `{Countable K} (st : State K)
    : list Z * list Z * list Z :=
  (XCapacity st, BXCapacity st, BCount st).

(** Two arrays of one length that agree from index 4 on: what the writes at
    the four columns preserve. *)
Definition sameTail (b old : list Z) : Prop :=
  length b = length old ∧ drop 4 b = drop 4 old.

(** An instance with five BX rows: no column can take the fifth. *)
Definition fiveBXInput : list string :=
  ["BX A A A"; "BX A A A"; "BX A A A"; "BX A A A"; "BX A A A";
   "AX B B A"; "AX B B A"; "AX B B A"; "AX B B A"; "AX B B A"; "AX B B A";
   "AX B B A"; "AX B B A"; "AX B B A"; "AX B B A"; "AX B B A"].

(** ** The search with a log of the states it goes through

    [assignRowLog] is [assignRow] with one more result: the states of the
    search in the order they arise, namely the state on entry to each call,
    after each "Place the X", after each placement of the three other words,
    and after each revert.  [assignRowLog_erase] shows that the first two
    results are those of [assignRow]. *)
Section SearchLog.
Context {K : Type} `{Countable K}.
Variable encodeState : nat → list Z → list Z → list Z → K.
Variable T : Tables.

Implicit Type st : State K.

Fixpoint permLoopLog (rec : State K → bool * State K * list (State K))
      (pos rIdx colX : nat) (perms3 : list (list nat)) st
      : bool * State K * list (State K) :=
    match perms3 with
    | [] => (false, st, [])
    | p3 :: rest =>
        let oldB2 := BCount st in
        let st2 := placeOthers T st rIdx colX p3 in
        if pruneValid T st2 pos then
          let '(ok, st3, log) := rec st2 in
          if ok then (true, st3, st2 :: log)
          else
            let st4 := restoreBCount st3 oldB2 in
            let '(r, st5, log') := permLoopLog rec pos rIdx colX rest st4 in
            (r, st5, st2 :: log ++ st4 :: log')
        else
          let st4 := restoreBCount st2 oldB2 in
          let '(r, st5, log') := permLoopLog rec pos rIdx colX rest st4 in
          (r, st5, st2 :: st4 :: log')
    end.

Fixpoint colLoopLog (rec : State K → bool * State K * list (State K))
      (pos rIdx : nat) (cols : list nat) st : bool * State K * list (State K) :=
    match cols with
    | [] => (false, st, [])
    | colX :: rest =>
        if XCapacity st !!! colX <=? 0 then colLoopLog rec pos rIdx rest st
        else if (xIsBX T !!! rIdx) && (BXCapacity st !!! colX <=? 0)
        then colLoopLog rec pos rIdx rest st
        else
          let oldXCap : Z := XCapacity st !!! colX in
          let oldBXCap : Z := BXCapacity st !!! colX in
          let oldB := BCount st in
          let st1 := placeX T st rIdx colX in
          let '(foundSolution, st2, log) :=
            permLoopLog rec pos rIdx colX (rowNonXPerms T !!! rIdx) st1 in
          if foundSolution then (true, st2, st1 :: log)
          else
            let st3 := revertX st2 colX oldXCap oldBXCap oldB in
            let '(r, st4, log') := colLoopLog rec pos rIdx rest st3 in
            (r, st4, st1 :: log ++ st3 :: log')
    end.

Fixpoint assignRowLog (left : nat) st : bool * State K * list (State K) :=
    match left with
    | O => (finalCheck st, st, [st])
    | S left' =>
        let pos := (16 - left)%nat in
        let stateKey := encodeState pos (XCapacity st) (BXCapacity st) (BCount st) in
        match memo st !! stateKey with
        | Some b => (b, st, [st])
        | None =>
            let rIdx : nat := rowOrder T !!! pos in
            let '(found, st', log) :=
              colLoopLog (assignRowLog left') pos rIdx (seq 0 4) st in
            (found, setMemo st' stateKey found, st :: log)
        end
    end.

  (** The states of one search from the initial state. *)
Definition searchLog : list (State K) := (assignRowLog 16 initialState).2.
End SearchLog.

(** The ranges of the two capacities. *)
Definition capacitiesInRange {K} `{Countable K} (st : State K) : Prop :=
  Forall (λ x, 0 <= x <= 4) (XCapacity st) ∧
  Forall (λ x, 0 <= x <= 1) (BXCapacity st).

(** ** Notions of the soundness proof *)

(** The six orders in which the three other words of a row can be taken. *)
Definition perms123 : list (list nat) :=
  [[1; 2; 3]; [1; 3; 2]; [2; 1; 3]; [2; 3; 1]; [3; 1; 2]; [3; 2; 1]]%nat.

(** The contribution of one word to a count. *)
Definition tick (f : string → bool) (w : string) : Z := if f w then 1 else 0.

Definition sumOver (g : nat → Z) (l : list nat) : Z :=
  foldr (λ p acc, g p + acc) 0 l.

(** What the search needs of its tables; [makeTables] provides it on a
    well-formed input. *)
Record GoodTables (T : Tables) : Prop := {
  good_order : rowOrder T ≡ₚ seq 0 16;
  good_rows : ∀ i, (i < 16)%nat →
    ∃ x a b c,
      rows T !!! i = [x; a; b; c] ∧
      isMarkedWord x = true ∧
      isMarkedWord a = false ∧ isMarkedWord b = false ∧ isMarkedWord c = false ∧
      hasB T !!! i = isFlaggedWord <$> [x; a; b; c] ∧
      xIsBX T !!! i = isFlaggedMarkedWord x;
  good_perms : ∀ i, (i < 16)%nat →
    Forall (λ p3, p3 ∈ perms123) (rowNonXPerms T !!! i)
}.

(** The three other words written into a row, and counted. *)
Definition writeOthers (row r : list string) (colX : nat) (p3 : list nat)
    : list string :=
  foldl (λ (r : list string) (i3 : nat),
           <[otherCols colX !!! i3 := row !!! (p3 !!! i3)]> r) r (seq 0 3).

Definition countOthers (hb : list bool) (bc : list Z) (colX : nat) (p3 : list nat)
    : list Z :=
  foldl (λ (b : list Z) (i3 : nat),
           if (hb !!! (p3 !!! i3) : bool)
           then <[otherCols colX !!! i3 := b !!! (otherCols colX !!! i3) + 1]> b
           else b) bc (seq 0 3).

Section SoundnessNotions.
Context {K : Type} `{Countable K}.
Variable T : Tables.
Implicit Type st : State K.

(** The lengths of the arrays. *)
Definition dims st : Prop :=
  length (XCapacity st) = 4%nat ∧ length (BXCapacity st) = 4%nat ∧
  length (BCount st) = 4%nat ∧ length (finalArrangement st) = 16%nat ∧
  Forall (λ r : list string, length r = 4%nat) (finalArrangement st).

(** The memo holds no [true]: an entry is set to [true] only while the
    search returns. *)
Definition noTrue st : Prop := ∀ k, memo st !! k ≠ Some true.

(** The row of the grid placed at position [p] of the visitation order. *)
Definition placedRow st (p : nat) : list string :=
  finalArrangement st !!! (rowOrder T !!! p).

Definition agreeBefore (pos : nat) st st' : Prop :=
  ∀ p, (p < pos)%nat → placedRow st' p = placedRow st p.

Definition sumFrom (f : string → bool) st' (c pos : nat) : Z :=
  sumOver (λ p, tick f (placedRow st' p !!! c)) (seq pos (16 - pos)).

(** From [st], the rows at the positions [pos..15] were placed, giving
    [st']: each is a permutation of its row, and the counters moved by what
    the rows put into each column. *)
Definition solvedFrom (pos : nat) st st' : Prop :=
  (∀ p, (pos ≤ p < 16)%nat → placedRow st' p ≡ₚ rows T !!! (rowOrder T !!! p)) ∧
  ∀ c, (c < 4)%nat →
    XCapacity st' !!! c = XCapacity st !!! c - sumFrom isMarkedWord st' c pos ∧
    BXCapacity st' !!! c = BXCapacity st !!! c - sumFrom isFlaggedMarkedWord st' c pos ∧
    BCount st' !!! c = BCount st !!! c + sumFrom isFlaggedWord st' c pos.

(** The contract of a call of the search at position [pos]. *)
Definition callSpec (pos : nat) (f : State K → bool * State K) : Prop :=
  ∀ st b st', dims st → noTrue st → f st = (b, st') →
    dims st' ∧ agreeBefore pos st st' ∧
    if b then solvedFrom pos st st' ∧ finalCheck st' = true
    else columnState st' = columnState st ∧ noTrue st'.
(** What holds at the head of the loop over the permutations, for the row
    at position [pos] with its marked word in [colX]; [st0] is the state
    before "Place the X". *)
Definition permInv (pos colX : nat) st0 st : Prop :=
  dims st ∧ noTrue st ∧ agreeBefore pos st0 st ∧
  columnState st = columnState (placeX T st0 (rowOrder T !!! pos) colX) ∧
  placedRow st pos !!! colX = (rows T !!! (rowOrder T !!! pos)) !!! 0%nat.

(** What holds at the head of the loop over the columns; [st0] is the state
    on entry to the call. *)
Definition colInv (pos : nat) st0 st : Prop :=
  dims st ∧ noTrue st ∧ agreeBefore pos st0 st ∧
  columnState st = columnState st0.
End SoundnessNotions.

(** Checks on a row of four labels, evaluated on [allRows]. *)
Definition rowShape_check (ws : list string) : bool :=
  implb (countWords isMarkedWord ws =? 1)%nat
    match JS.sort orderCompare ws with
    | [x; a; b; c] =>
        isMarkedWord x && negb (isMarkedWord a) && negb (isMarkedWord b)
        && negb (isMarkedWord c)
        && bool_decide (wordIncludesB <$> [x; a; b; c] = isFlaggedWord <$> [x; a; b; c])
    | _ => false
    end.

Definition rowPerms_check (ws : list string) : bool :=
  forallb (λ p3 : list nat, bool_decide (p3 ∈ perms123))
          (makeUniquePerms3 [JS.sort orderCompare ws] 0).

(** The grid [baselineSolver] returns on [exampleInput]. *)
Definition exampleGrid : list (list string) :=
  [["AX"; "A"; "A"; "A"]; ["A"; "AX"; "A"; "B"];
   ["A"; "A"; "AX"; "B"]; ["A"; "B"; "BX"; "B"];
   ["B"; "A"; "B"; "AX"]; ["BX"; "A"; "A"; "B"];
   ["AX"; "A"; "A"; "A"]; ["A"; "A"; "AX"; "B"];
   ["AX"; "A"; "A"; "A"]; ["A"; "BX"; "A"; "B"];
   ["A"; "AX"; "A"; "A"]; ["A"; "B"; "AX"; "A"];
   ["A"; "AX"; "A"; "A"]; ["B"; "A"; "B"; "AX"];
   ["B"; "B"; "A"; "AX"]; ["A"; "A"; "B"; "AX"]].

(** ** The search on the counters alone

    For completeness, the verdict of [assignRow] is computed a second time by
    a search that keeps each column array as a record of four numbers, no
    grid, and of the memo the set of keys that failed.  A row is known by
    its descriptor: whether its marked word is BX, whether that word is
    flagged, and for each permutation the flags that go to the three other
    columns.  [assignRow_searchC] shows that the two searches agree. *)

Record Cols : Type := mkCols { c0 : Z; c1 : Z; c2 : Z; c3 : Z }.

Definition colsOf (v : Cols) : list Z := [c0 v; c1 v; c2 v; c3 v].

Definition getC (v : Cols) (c : nat) : Z :=
  match c with 0%nat => c0 v | 1%nat => c1 v | 2%nat => c2 v | _ => c3 v end.

Definition addC (v : Cols) (c : nat) (d : Z) : Cols :=
  match c with
  | 0%nat => mkCols (c0 v + d) (c1 v) (c2 v) (c3 v)
  | 1%nat => mkCols (c0 v) (c1 v + d) (c2 v) (c3 v)
  | 2%nat => mkCols (c0 v) (c1 v) (c2 v + d) (c3 v)
  | _ => mkCols (c0 v) (c1 v) (c2 v) (c3 v + d)
  end.

Definition addIf (v : Cols) (c : nat) (h : bool) : Cols :=
  if h then addC v c 1 else v.

Record Desc : Type := mkDesc {
  dBX : bool;
  dB0 : bool;
  dPats : list (bool * bool * bool)
}.

(** The three columns other than [colX], in ascending order. *)
Definition others (colX : nat) : nat * nat * nat :=
  match colX with
  | 0%nat => (1, 2, 3) | 1%nat => (0, 2, 3) | 2%nat => (0, 1, 3) | _ => (0, 1, 2)
  end%nat.

Definition addPattern (B : Cols) (colX : nat) (pat : bool * bool * bool) : Cols :=
  let '(h0, h1, h2) := pat in
  let '(o0, o1, o2) := others colX in
  addIf (addIf (addIf B o0 h0) o1 h1) o2 h2.

Definition pruneC (B : Cols) (rowsLeft tot12 : Z) : bool :=
  (4 <=? c0 B + rowsLeft) && (c0 B <=? tot12) &&
  (4 <=? c1 B + rowsLeft) && (c1 B <=? tot12) &&
  (4 <=? c2 B + rowsLeft) && (c2 B <=? tot12) &&
  (4 <=? c3 B + rowsLeft) && (c3 B <=? tot12).

Definition finalC (X B : Cols) : bool :=
  (c0 X =? 0) && (c1 X =? 0) && (c2 X =? 0) && (c3 X =? 0) &&
  (4 <=? c0 B) && (4 <=? c1 B) && (4 <=? c2 B) && (4 <=? c3 B).

Section SearchC.
Context {K' : Type} `{Countable K'}.
Variable key : nat → Cols → Cols → Cols → K'.
Variable tot12 : Z.

Fixpoint permLoopC (rec : Cols → gmap K' unit → bool * gmap K' unit)
    (pos colX : nat) (pats : list (bool * bool * bool)) (B : Cols)
    (m : gmap K' unit) : bool * gmap K' unit :=
  match pats with
  | [] => (false, m)
  | pat :: rest =>
      let B2 := addPattern B colX pat in
      if pruneC B2 (16 - (Z.of_nat pos + 1)) tot12 then
        let '(ok, m') := rec B2 m in
        if ok then (true, m') else permLoopC rec pos colX rest B m'
      else permLoopC rec pos colX rest B m
  end.

Fixpoint colLoopC (rec : Cols → Cols → Cols → gmap K' unit → bool * gmap K' unit)
    (pos : nat) (d : Desc) (cols : list nat) (X BX B : Cols)
    (m : gmap K' unit) : bool * gmap K' unit :=
  match cols with
  | [] => (false, m)
  | colX :: rest =>
      if getC X colX <=? 0 then colLoopC rec pos d rest X BX B m
      else if dBX d && (getC BX colX <=? 0) then colLoopC rec pos d rest X BX B m
      else
        let X1 := addC X colX (-1) in
        let BX1 := if dBX d then addC BX colX (-1) else BX in
        let B1 := addIf B colX (dB0 d) in
        let '(ok, m') := permLoopC (rec X1 BX1) pos colX (dPats d) B1 m in
        if ok then (true, m') else colLoopC rec pos d rest X BX B m'
  end.

Fixpoint searchC (ds : list Desc) (pos : nat) (X BX B : Cols)
    (m : gmap K' unit) : bool * gmap K' unit :=
  match ds with
  | [] => (finalC X B, m)
  | d :: ds' =>
      let k := key pos X BX B in
      match m !! k with
      | Some _ => (false, m)
      | None =>
          let '(ok, m') :=
            colLoopC (searchC ds' (S pos)) pos d (seq 0 4) X BX B m in
          if ok then (true, m') else (false, <[k := tt]> m')
      end
  end.
End SearchC.

(** The descriptor of row [i] of the tables, and the descriptors of the rows
    from position [pos] of the visitation order on. *)
Definition descOf (T : Tables) (i : nat) : Desc :=
  let hb := hasB T !!! i in
  {| dBX := xIsBX T !!! i;
     dB0 := hb !!! 0%nat;
     dPats := (λ p3 : list nat,
                 (hb !!! (p3 !!! 0%nat), hb !!! (p3 !!! 1%nat), hb !!! (p3 !!! 2%nat)))
              <$> rowNonXPerms T !!! i |}.

Definition descsFrom (T : Tables) (pos : nat) : list Desc :=
  (λ p, descOf T (rowOrder T !!! p)) <$> seq pos (16 - pos).

(** The counters a search can reach at position [pos]. *)
Definition inRange (pos : nat) (X BX B : Cols) : Prop :=
  (pos ≤ 16)%nat ∧
  (0 <= c0 X <= 4 ∧ 0 <= c1 X <= 4 ∧ 0 <= c2 X <= 4 ∧ 0 <= c3 X <= 4) ∧
  (0 <= c0 BX <= 1 ∧ 0 <= c1 BX <= 1 ∧ 0 <= c2 BX <= 1 ∧ 0 <= c3 BX <= 1) ∧
  (0 <= c0 B <= Z.of_nat pos ∧ 0 <= c1 B <= Z.of_nat pos ∧
   0 <= c2 B <= Z.of_nat pos ∧ 0 <= c3 B <= Z.of_nat pos).

Section SimulationNotions.
Context {K K' : Type} `{Countable K} `{Countable K'}.
Variable enc : nat → list Z → list Z → list Z → K.
Variable key : nat → Cols → Cols → Cols → K'.

(** The two key functions identify the same states. *)
Definition keysAgree : Prop :=
  ∀ pos X BX B pos' X' BX' B',
    inRange pos X BX B → inRange pos' X' BX' B' →
    enc pos (colsOf X) (colsOf BX) (colsOf B)
      = enc pos' (colsOf X') (colsOf BX') (colsOf B') ↔
    key pos X BX B = key pos' X' BX' B'.

(** The memo of [assignRow] and the set of failed keys hold the same states. *)
Definition memoRel (st : State K) (m : gmap K' unit) : Prop :=
  noTrue st ∧
  ∀ pos X BX B, inRange pos X BX B →
    is_Some (memo st !! enc pos (colsOf X) (colsOf BX) (colsOf B)) ↔
    is_Some (m !! key pos X BX B).

Definition simRel (st : State K) (X BX B : Cols) (m : gmap K' unit) : Prop :=
  XCapacity st = colsOf X ∧ BXCapacity st = colsOf BX ∧ BCount st = colsOf B ∧
  memoRel st m.

(** A call of [assignRow] and a call of [searchC] at position [pos] agree. *)
Definition simCall (pos : nat) (f : State K → bool * State K)
    (g : Cols → Cols → Cols → gmap K' unit → bool * gmap K' unit) : Prop :=
  ∀ st X BX B m, simRel st X BX B m → inRange pos X BX B →
    (f st).1 = (g X BX B m).1 ∧
    ((f st).1 = false → memoRel (f st).2 (g X BX B m).2).
End SimulationNotions.

(** ** The two key functions on the counters *)

(** The number [encodeState] prints, for counters in range: [xPart << 24]
    keeps [XCapacity[0]], [XCapacity[1]] and the two low bits of
    [XCapacity[2]]; [pos << 36] is [pos << 4]. *)
Definition packB (B : Cols) : Z := c0 B + 32 * (c1 B + 32 * (c2 B + 32 * c3 B)).

Definition packBX (BX : Cols) : Z := c0 BX + 2 * (c1 BX + 2 * (c2 BX + 2 * c3 BX)).

Definition keyB (pos : nat) (X BX B : Cols) : Z :=
  Z.lor (packB B + 1048576 * (packBX BX + 16 * (c0 X + 8 * (c1 X + 8 * (c2 X mod 4)))))
        (16 * Z.of_nat pos).

(** A number that, like the text key, tells all the counters apart. *)
Definition keyA (pos : nat) (X BX B : Cols) : Z :=
  packB B + 1048576 * (packBX BX
    + 16 * (c0 X + 8 * (c1 X + 8 * (c2 X + 8 * (c3 X + 8 * Z.of_nat pos))))).

(** [String(v)] of an integer, as [join] prints the counters. *)
Definition decimal (v : Z) : string := JS.toStringRadix 10 v.

(** Reading a number back from its digits. *)
Definition digitVal (c : ascii) : Z :=
  let k := Z.of_N (N_of_ascii c) in if k <? 58 then k - 48 else k - 87.

Fixpoint valueOf (radix : Z) (s : string) (v : Z) : Z :=
  match s with
  | EmptyString => v
  | String c s' => valueOf radix s' (v * radix + digitVal c)
  end.

(** ** The eight kinds of rows

    A row with one marked word is, after normalization, its marked word
    followed by its flagged words and its plain words.  Code [k] with
    [k < 4] stands for BX and [k] flagged words after it, code [4 + k] for
    AX and [k] flagged words after it. *)
Definition patsOf (k : nat) : list (bool * bool * bool) :=
  match k with
  | 0%nat => [(false, false, false)]
  | 1%nat => [(false, false, true); (false, true, false); (true, false, false)]
  | 2%nat => [(false, true, true); (true, false, true); (true, true, false)]
  | _ => [(true, true, true)]
  end.

Definition descOfCode (t : nat) : Desc :=
  {| dBX := (t <? 4)%nat; dB0 := (t <? 4)%nat; dPats := patsOf (t mod 4) |}.

Definition flaggedOfCode (t : nat) : Z :=
  if (t <? 4)%nat then Z.of_nat t + 1 else Z.of_nat t - 4.

Definition bxOfCode (t : nat) : Z := if (t <? 4)%nat then 1 else 0.

Definition codeOf (isBX : bool) (tb : Z) : nat :=
  if isBX then (Z.to_nat tb - 1)%nat else (4 + Z.to_nat tb)%nat.

Definition codeAt (T : Tables) (i : nat) : nat :=
  codeOf (xIsBX T !!! i) (totalB T !!! i).

(** The codes of the rows in the visitation order. *)
Definition codesOf (T : Tables) : list nat :=
  (λ p, codeAt T (rowOrder T !!! p)) <$> seq 0 16.

(** The descriptor of a normalized row. *)
Definition descOfRow (r : list string) : Desc :=
  let hb := wordIncludesB <$> r in
  {| dBX := String.eqb (r !!! 0%nat) "BX";
     dB0 := hb !!! 0%nat;
     dPats := (λ p3 : list nat,
                 (hb !!! (p3 !!! 0%nat), hb !!! (p3 !!! 1%nat), hb !!! (p3 !!! 2%nat)))
              <$> makeUniquePerms3 [r] 0 |}.

Global Instance Desc_eq_dec : EqDecision Desc.
Proof. solve_decision. Defined.

Definition rowCode_check (ws : list string) : bool :=
  implb (countWords isMarkedWord ws =? 1)%nat
    (let r := JS.sort orderCompare ws in
     let isBX := String.eqb (r !!! 0%nat) "BX" in
     let tb := countB r in
     let t := codeOf isBX tb in
     (t <? 8)%nat && (flaggedOfCode t =? tb) && Bool.eqb (t <? 4)%nat isBX
     && (bxOfCode t <=? Z.of_nat (countWords isFlaggedMarkedWord ws))
     && bool_decide (descOfRow r = descOfCode t)).

(** ** All instances, by the kinds of their rows

    The visitation order sorts the rows by their codes, so an instance is
    searched as one of the ascending sequences of 16 codes.  [checkFrom]
    evaluates [f] on each of them. *)
Definition runC {K' : Type} `{Countable K'} (key : nat → Cols → Cols → Cols → K')
    (codes : list nat) : bool :=
  (searchC key (sumOver flaggedOfCode codes - 12) (descOfCode <$> codes) 0
     (mkCols 4 4 4 4) (mkCols 1 1 1 1) (mkCols 0 0 0 0) ∅).1.

(** At most four BX rows, at least sixteen flagged words. *)
Definition solvableCodes (codes : list nat) : bool :=
  (sumOver bxOfCode codes <=? 4) && (16 <=? sumOver flaggedOfCode codes).

Fixpoint checkFrom (f : list nat → bool) (n lo : nat) (pre : list nat) : bool :=
  match n with
  | O => f (rev pre)
  | S n' => forallb (λ t, checkFrom f n' t (t :: pre)) (seq lo (8 - lo))
  end.

(** The check of one sequence of codes: if it can have a solution, the
    search on the counters finds one. *)
Definition checkOne {K' : Type} `{Countable K'} (key : nat → Cols → Cols → Cols → K')
    (codes : list nat) : bool :=
  if solvableCodes codes then runC key codes else true.

(** Whether some grid satisfies the constraints of the instance. *)
Definition solvable (inputLines : list string) : Prop :=
  ∃ grid, validGrid inputLines grid.

(** ** Further notions

    The number of words of the puzzle that satisfy [f]. *)
Definition wordsInPuzzle (f : string → bool) (inputLines : list string) : nat :=
  countWords f (concat (tokens <$> inputLines)).

Definition rowBX_check (ws : list string) : bool :=
  implb (countWords isMarkedWord ws =? 1)%nat
    (let r := JS.sort orderCompare ws in
     bxOfCode (codeOf (String.eqb (r !!! 0%nat) "BX") (countB r))
       =? Z.of_nat (countWords isFlaggedMarkedWord ws)).

(** ** The validator: [validatePuzzle] of [src/puzzle/validate.ts] *)

(** The order of [Array.prototype.sort()] without a comparator, on
    strings: by code units. *)
Fixpoint codeUnitCompare (a b : string) : Z :=
  match a, b with
  | EmptyString, EmptyString => 0
  | EmptyString, String _ _ => -1
  | String _ _, EmptyString => 1
  | String c a', String d b' =>
      match N.compare (N_of_ascii c) (N_of_ascii d) with
      | Lt => -1
      | Gt => 1
      | Eq => codeUnitCompare a' b'
      end
  end.

(** The inner loop of the first check: the two rows, sorted, are compared at
    the indices 0..3.  An index outside an array reads [undefined], which is
    [None] here, and [!==] is then the inequality of the two options. *)
Definition rowsAgree (original solution : list string) : bool :=
  let sortedOriginal := JS.sort codeUnitCompare original in
  let sortedSolution := JS.sort codeUnitCompare solution in
  forallb (λ k, bool_decide (sortedOriginal !! k = sortedSolution !! k)) (seq 0 4).

(** The first loop over the rows [idxs].  [[...originalRows[i]]] and
    [[...solution[i]]] throw a [TypeError] when the row is missing, which is
    [None]; a row that does not agree ends the check with [false]. *)
Fixpoint checkRowsFrom (originalRows solution : list (list string)) (idxs : list nat)
    : option bool :=
  match idxs with
  | [] => Some true
  | i :: rest =>
      match originalRows !! i, solution !! i with
      | Some o, Some s =>
          if rowsAgree o s then checkRowsFrom originalRows solution rest
          else Some false
      | _, _ => None
      end
  end.

(** [counts[j]++] when the test holds of the word; no word ([undefined])
    passes no test. *)
Definition bumpIf (f : string → bool) (w : option string) (counts : list Z) (j : nat)
    : list Z :=
  if from_option f false w then <[j := counts !!! j + 1]> counts else counts.

Definition countCell (acc : list Z * list Z * list Z) (w : option string) (j : nat)
    : list Z * list Z * list Z :=
  let '(colCountX, colCountB, colCountBX) := acc in
  (bumpIf isMarkedWord w colCountX j,
   bumpIf isFlaggedWord w colCountB j,
   bumpIf isFlaggedMarkedWord w colCountBX j).

Definition countColumns (solution : list (list string)) : list Z * list Z * list Z :=
  foldl (λ acc i,
           foldl (λ acc j, countCell acc ((solution !!! i) !! j) j) acc (seq 0 4))
        ([0; 0; 0; 0], [0; 0; 0; 0], [0; 0; 0; 0]) (seq 0 16).

Definition validatePuzzle (input : list string) (solution : list (list string))
    : option bool :=
  let originalRows := JS.splitWhiteSpace <$> input in
  match checkRowsFrom originalRows solution (seq 0 16) with
  | Some true =>
      let '(colCountX, colCountB, colCountBX) := countColumns solution in
      Some (forallb (λ j : nat, (colCountX !!! j =? 4)
                                && negb (colCountB !!! j <? 4)
                                && negb (1 <? colCountBX !!! j)) (seq 0 4))
  | r => r
  end.

(** What one cell adds to a count. *)
Definition tickOpt (f : string → bool) (w : option string) : Z :=
  if from_option f false w then 1 else 0.

(** [exampleInput] with a space before its first line. *)
Definition paddedInput : list string :=
  [" A A A AX"; "A A B AX"; "A AX A B"; "A BX B B";
   "B AX B A"; "BX B A A"; "A AX A A"; "B A AX A";
   "AX A A A"; "BX B A A"; "AX A A A"; "AX A A B";
   "A A A AX"; "B A B AX"; "A B AX B"; "AX A B A"].

(** The words a permutation [p3] of [rowNonXPerms] takes from a row. *)
Definition otherWords (row : list string) (p3 : list nat) : list string :=
  (λ k, row !!! k) <$> p3.

Definition uniquePerms_check (ws : list string) : bool :=
  let perms3 := makeUniquePerms3 [ws] 0 in
  let taken := otherWords ws <$> perms3 in
  forallb (λ p3, bool_decide (p3 ∈ permutations [1; 2; 3]%nat)) perms3
  && bool_decide (NoDup taken)
  && forallb (λ q, bool_decide (q ∈ taken)) (permutations (drop 1 ws)).

(** [exampleInput] with the words of its first two lines in another order. *)
Definition shuffledInput : list string :=
  ["A A AX A"; "AX B A A"; "A AX A B"; "A BX B B";
   "B AX B A"; "BX B A A"; "A AX A A"; "B A AX A";
   "AX A A A"; "BX B A A"; "AX A A A"; "AX A A B";
   "A A A AX"; "B A B AX"; "A B AX B"; "AX A B A"].

(** A word that is not one of the labels. *)
Definition unrecognized (w : string) : bool := negb (JS.includes LABELS w).

(** The first unrecognized word of a line, in the order of the line. *)
Definition firstUnrecognized (line : string) : option string :=
  find unrecognized (tokens line).

(** The first line, counted from [i], that has an unrecognized word, with
    that word. *)
Fixpoint firstBadLine (i : nat) (lines : list string) : option (string * nat) :=
  match lines with
  | [] => None
  | line :: rest =>
      match firstUnrecognized line with
      | Some w => Some (w, i)
      | None => firstBadLine (S i) rest
      end
  end.

(** [exampleInput] with unrecognized words in its lines 2 and 5. *)
Definition misspelledInput : list string :=
  ["A A A AX"; "A A B AX"; "A AX C bx"; "A BX B B";
   "B AX B A"; "BX B A D"; "A AX A A"; "B A AX A";
   "AX A A A"; "BX B A A"; "AX A A A"; "AX A A B";
   "A A A AX"; "B A B AX"; "A B AX B"; "AX A B A"].

(** A word as [split] yields it from a trimmed line: not empty, no white
    space in it. *)
Fixpoint noWhiteSpace (w : string) : bool :=
  match w with
  | EmptyString => true
  | String c r => negb (JS.isWhiteSpace c) && noWhiteSpace r
  end.

Definition isWord (w : string) : Prop := w ≠ "" ∧ noWhiteSpace w = true.

(** A row of the data model, as a list of words: four labels, exactly one
    of them marked. *)
Definition modelRow (r : list string) : Prop :=
  length r = 4%nat ∧ Forall (λ w, w ∈ LABELS) r ∧ countWords isMarkedWord r = 1%nat.

Global Instance modelRow_dec (r : list string) : Decision (modelRow r).
Proof. unfold modelRow. apply _. Defined.

(** * Properties *)

(** A decidable closed fact, by evaluation. *)
Ltac by_evaluation := apply (bool_decide_unpack _); vm_compute; exact I.

(** ** The host-language functions *)

Section SortFacts.
Context {A : Type} (cmp : A → A → Z).

Lemma sortInsert_perm x l : JS.sortInsert cmp x l ≡ₚ x :: l.
  Proof.
    induction l as [|y l IH]; simpl; [done|].
    destruct (cmp x y <=? 0); [done|].
    rewrite IH. apply Permutation_swap.
  Qed.

Lemma sort_perm l : JS.sort cmp l ≡ₚ l.
  Proof.
    induction l as [|x l IH]; simpl; [done|].
    by rewrite sortInsert_perm, IH.
  Qed.

Lemma sort_length l : length (JS.sort cmp l) = length l.
  Proof. by rewrite sort_perm. Qed.

Lemma sort_elem_of x l : x ∈ JS.sort cmp l ↔ x ∈ l.
  Proof. by rewrite sort_perm. Qed.

  (** A comparator that is a total preorder. *)
Hypothesis cmp_total : ∀ x y, 0 < cmp x y → cmp y x <= 0.
Hypothesis cmp_trans : ∀ x y z, cmp x y <= 0 → cmp y z <= 0 → cmp x z <= 0.

Let le (a b : A) : Prop := cmp a b <= 0.

Lemma sortInsert_sorted x l :
    StronglySorted le l → StronglySorted le (JS.sortInsert cmp x l).
  Proof.
    induction 1 as [|y l Hl IH Hy]; simpl.
    - repeat constructor.
    - destruct (Z.leb_spec (cmp x y) 0) as [Hxy|Hxy].
      + constructor; [by constructor|].
        constructor; [done|].
        eapply Forall_impl; [exact Hy|]. intros z Hz. eapply cmp_trans; eauto.
      + constructor; [done|].
        rewrite sortInsert_perm. constructor; [|done]. by apply cmp_total.
  Qed.

Lemma sort_sorted l : StronglySorted le (JS.sort cmp l).
  Proof.
    induction l as [|x l IH]; simpl; [constructor|]. by apply sortInsert_sorted.
  Qed.
End SortFacts.

Lemma StronglySorted_lookup {A} (R : A → A → Prop) (l : list A) p q x y :
  StronglySorted R l → (p < q)%nat → l !! p = Some x → l !! q = Some y → R x y.
Proof.
  intros Hs. revert p q x y.
  induction Hs as [|a l Hl IH Ha]; intros p q x y Hpq Hp Hq.
  - by rewrite lookup_nil in Hp.
  - destruct q as [|q]; [lia|]. simpl in Hq. destruct p as [|p]; simpl in Hp.
    + simplify_eq. rewrite Forall_forall in Ha. apply Ha.
      eapply list_elem_of_lookup_2, Hq.
    + eapply IH; [|exact Hp|exact Hq]. lia.
Qed.

(** ** Input validation *)

Lemma includes_LABELS w : JS.includes LABELS w = true ↔ w ∈ LABELS.
Proof.
  unfold JS.includes, LABELS; simpl.
  rewrite !orb_true_iff, !String.eqb_eq, !elem_of_cons, elem_of_nil.
  intuition congruence.
Qed.

Lemma parseLine_perm line : parseLine line ≡ₚ tokens line.
Proof. apply sort_perm. Qed.

Lemma parseLine_length line : length (parseLine line) = length (tokens line).
Proof. apply sort_length. Qed.

Lemma cells_spec i k : (i, k) ∈ cells ↔ (i < 16)%nat ∧ (k < 4)%nat.
Proof.
  unfold cells. rewrite list_elem_of_In, in_flat_map. split.
  - intros (i' & Hi' & Hk). apply list_elem_of_In, elem_of_seq in Hi'.
    apply list_elem_of_In, list_elem_of_fmap in Hk as (k' & [= -> ->] & Hk').
    apply elem_of_seq in Hk'. lia.
  - intros [Hi Hk]. exists i. split.
    + apply list_elem_of_In, elem_of_seq. lia.
    + apply list_elem_of_In, list_elem_of_fmap. exists k. split; [done|].
      apply elem_of_seq. lia.
Qed.

Lemma find_None_Forall {A} (f : A → bool) (l : list A) :
  find f l = None ↔ Forall (λ x, f x = false) l.
Proof.
  induction l as [|x l IH]; simpl.
  - split; [constructor|done].
  - destruct (f x) eqn:Hx.
    + split; [done|]. intros HF. inversion HF; congruence.
    + rewrite IH. split; [by constructor|]. by inversion 1.
Qed.

(** The double loop finds no invalid word exactly when every word of every
    row is a label. *)
Lemma find_invalidCell (rows : list (list string)) :
  length rows = 16%nat → Forall (λ r, length r = 4%nat) rows →
  find (invalidCell rows) cells = None ↔
  Forall (Forall (λ w, w ∈ LABELS)) rows.
Proof.
  intros Hlen Hrows. rewrite find_None_Forall, Forall_forall. split.
  - intros Hc. apply Forall_lookup. intros i r Hi.
    apply Forall_lookup. intros k w Hk.
    assert (i < 16)%nat by (rewrite <- Hlen; by eapply lookup_lt_Some).
    assert (length r = 4%nat) by (by eapply Forall_lookup_1 in Hrows).
    assert (k < 4)%nat by (replace 4%nat with (length r); by eapply lookup_lt_Some).
    specialize (Hc (i, k)). rewrite cells_spec in Hc.
    assert ((i < 16)%nat ∧ (k < 4)%nat) as Hik by (split; assumption).
    specialize (Hc Hik).
    unfold invalidCell in Hc; simpl in Hc.
    apply negb_false_iff, includes_LABELS in Hc.
    by rewrite (list_lookup_total_correct _ _ _ Hi),
      (list_lookup_total_correct _ _ _ Hk) in Hc.
  - intros HF [i k] [Hi Hk]%cells_spec. unfold invalidCell; simpl.
    apply negb_false_iff, includes_LABELS.
    destruct (lookup_lt_is_Some_2 rows i) as [r Hr]; [lia|].
    assert (length r = 4%nat) by (by eapply Forall_lookup_1 in Hrows).
    destruct (lookup_lt_is_Some_2 r k) as [w Hw]; [lia|].
    rewrite (list_lookup_total_correct _ _ _ Hr), (list_lookup_total_correct _ _ _ Hw).
    pose proof (Forall_lookup_1 _ _ _ _ HF Hr) as HFr.
    exact (Forall_lookup_1 _ _ _ _ HFr Hw).
Qed.

Lemma forallb_length4 (inputLines : list string) :
  forallb (λ r : list string, (length r =? 4)%nat) (parseLine <$> inputLines) = true ↔
  Forall (λ line, length (tokens line) = 4%nat) inputLines.
Proof.
  rewrite forallb_forall, Forall_forall. split.
  - intros Hf line Hl. rewrite <- parseLine_length. apply Nat.eqb_eq, Hf.
    apply list_elem_of_In. by apply list_elem_of_fmap_2.
  - intros HF r [line [-> Hl]]%list_elem_of_In%list_elem_of_fmap.
    apply Nat.eqb_eq. rewrite parseLine_length. by apply HF.
Qed.

Lemma Forall_labels_parse (inputLines : list string) :
  Forall (Forall (λ w, w ∈ LABELS)) (parseLine <$> inputLines) ↔
  Forall (λ line, Forall (λ w, w ∈ LABELS) (tokens line)) inputLines.
Proof.
  rewrite Forall_fmap. apply Forall_iff. intros line; simpl.
  by rewrite parseLine_perm.
Qed.

Global Instance recognizedLine_dec line : Decision (recognizedLine line).
Proof. unfold recognizedLine. apply _. Defined.

(** The solver raises one of its three input errors exactly on the inputs
    that are not sixteen recognized lines; otherwise it searches, and ends
    with a grid or with [NoValidSolution]. *)
Lemma solveWith_malformed {K} `{Countable K}
    (enc : nat → list Z → list Z → list Z → K) (inputLines : list string) :
  (∃ e, solveWith enc inputLines = inl e ∧ MalformedInput e) ↔
  ¬ (length inputLines = 16%nat ∧ Forall recognizedLine inputLines).
Proof.
  unfold solveWith, MalformedInput. cbv zeta.
  destruct (assignRow enc _ 16 initialState) as [ok st].
  destruct (Nat.eqb_spec (length inputLines) 16) as [Hlen|Hlen]; cbn [negb].
  2: { split; [tauto|]. intros _. by exists ExpectedSixteenLines. }
  destruct (forallb _ (parseLine <$> inputLines)) eqn:Hf; cbn [negb].
  2: { split; [|intros _; by exists ExpectedFourWords].
       intros _ [_ HF]. apply not_true_iff_false in Hf. apply Hf.
       apply forallb_length4. eapply Forall_impl; [exact HF|]. by intros ? [? ?]. }
  pose proof Hf as Hf'. apply forallb_length4 in Hf'.
  assert (Forall (λ r : list string, length r = 4%nat) (parseLine <$> inputLines)) as Hrows.
  { apply Forall_fmap. eapply Forall_impl; [exact Hf'|]. intros line. unfold compose.
    by rewrite parseLine_length. }
  pose proof (find_invalidCell (parseLine <$> inputLines)
    ltac:(by rewrite length_fmap) Hrows) as Hfind.
  destruct (find _ cells) as [ik|] eqn:Hfd.
  - split; [|intros _; eexists; split; [reflexivity|discriminate]].
    intros _ [_ HF].
    assert (Forall (Forall (λ w, w ∈ LABELS)) (parseLine <$> inputLines)) as HL.
    { apply Forall_labels_parse. eapply Forall_impl; [exact HF|]. by intros ? [? ?]. }
    apply Hfind in HL. congruence.
  - split.
    + intros (e & He & Hne). destruct ok; cbn [negb] in He; congruence.
    + intros Hn. exfalso. apply Hn. split; [done|].
      destruct Hfind as [Hfind _]. specialize (Hfind eq_refl).
      apply Forall_labels_parse in Hfind.
      rewrite Forall_forall in Hf', Hfind |- *.
      intros line Hl. split; auto.
Qed.

Lemma not_Forall_Exists_dec {A} (P : A → Prop) `{∀ x, Decision (P x)} (l : list A) :
  ¬ Forall P l ↔ Exists (λ x, ¬ P x) l.
Proof.
  split; [|apply Exists_not_Forall].
  induction l as [|x l IH]; intros Hn.
  - destruct Hn. constructor.
  - destruct (decide (P x)) as [Hx|Hx]; [|by left].
    right. apply IH. intros HF. apply Hn. by constructor.
Qed.

Lemma malformed_conditions (inputLines : list string) :
  ¬ (length inputLines = 16%nat ∧ Forall recognizedLine inputLines) ↔
  length inputLines ≠ 16%nat ∨
  Exists (λ line, length (tokens line) ≠ 4%nat ∨
                  Exists (λ w, w ∉ LABELS) (tokens line)) inputLines.
Proof.
  rewrite not_and_l, not_Forall_Exists_dec by apply _.
  apply or_iff_compat_l. apply Exists_proper; [|done].
  intros line. unfold recognizedLine.
  by rewrite not_and_l, not_Forall_Exists_dec by apply _.
Qed.

(** C5. [baselineSolver] fails with a [MalformedInput] error exactly when
    the input does not have 16 lines, or some line does not split into 4
    words, or some word is not one of the labels A, B, AX, BX; an input that
    passes the three checks raises no [MalformedInput] error. *)
Theorem malformed_input_iff (inputLines : list string) :
  (∃ e, baselineSolver inputLines = inl e ∧ MalformedInput e) ↔
  length inputLines ≠ 16%nat ∨
  Exists (λ line, length (tokens line) ≠ 4%nat ∨
                  Exists (λ w, w ∉ LABELS) (tokens line)) inputLines.
Proof.
  unfold baselineSolver. by rewrite solveWith_malformed, malformed_conditions.
Qed.

(** C6, as the code has it.  The number of marked words of a row is not
    checked: an input of 16 lines of 4 labels each, some row of which has two
    marked words or none, raises no [MalformedInput] error; the solver
    searches, and ends with a grid or with [NoValidSolution]. *)
Theorem marked_count_not_checked (inputLines : list string) :
  length inputLines = 16%nat →
  Forall recognizedLine inputLines →
  Exists (λ line, countWords isMarkedWord (tokens line) ≠ 1%nat) inputLines →
  (∃ grid, baselineSolver inputLines = inr grid) ∨
  baselineSolver inputLines = inl NoValidSolution.
Proof.
  intros Hlen Hrec _.
  destruct (baselineSolver inputLines) as [e|grid] eqn:Hs; [|by eauto].
  right. f_equal.
  assert (¬ MalformedInput e) as Hn.
  { intros Hm. unfold baselineSolver in Hs.
    apply (proj1 (solveWith_malformed encodeState inputLines)); eauto. }
  unfold MalformedInput in Hn.
  destruct e; try done; exfalso; apply Hn; discriminate.
Qed.

(** C6 fails on [unmarkedInput]: row 0 has no marked word, row 1 has two,
    and the solver returns a grid. *)
Lemma unmarked_rows_accepted :
  countWords isMarkedWord (tokens (unmarkedInput !!! 0%nat)) = 0%nat ∧
  countWords isMarkedWord (tokens (unmarkedInput !!! 1%nat)) = 2%nat ∧
  ¬ ∃ e, baselineSolver unmarkedInput = inl e ∧ MalformedInput e.
Proof.
  split; [reflexivity|]. split; [reflexivity|].
  intros (e & He & _). revert He. vm_compute. discriminate.
Qed.

Lemma marked_count_not_checked_witness :
  (∃ grid, baselineSolver unmarkedInput = inr grid) ∨
  baselineSolver unmarkedInput = inl NoValidSolution.
Proof.
  apply marked_count_not_checked.
  - reflexivity.
  - by_evaluation.
  - by_evaluation.
Defined.

(** ** The bit-packed memo key *)

(** C2 fails on the code: [<<] works on 32 bits, so the marked-capacity of
    column 3 and the high bit of column 2 are shifted out, and the position
    (shifted by [36 mod 32 = 4]) is or-ed over the flagged-counts of columns
    0 and 1.  Distinct states in range receive the same key, at one position
    and across positions. *)
Theorem encodeState_collides :
  encodeState 10 [0; 2; 0; 4] [0; 1; 1; 1] [1; 1; 1; 1]
    = encodeState 10 [0; 2; 4; 0] [0; 1; 1; 1] [1; 1; 1; 1] ∧
  encodeState 8 [0; 2; 3; 3] [0; 0; 0; 0] [1; 3; 2; 3]
    = encodeState 10 [0; 2; 3; 1] [0; 0; 0; 0] [1; 3; 2; 3].
Proof. split; reflexivity. Qed.

(** ** Rows of four labels, by enumeration *)

Lemma allRows_complete (ws : list string) :
  length ws = 4%nat → Forall (λ w, w ∈ LABELS) ws → ws ∈ allRows.
Proof.
  intros Hlen HF.
  destruct ws as [|a [|b [|c [|d [|? ?]]]]]; try discriminate.
  apply Forall_cons in HF as [Ha HF]. apply Forall_cons in HF as [Hb HF].
  apply Forall_cons in HF as [Hc HF]. apply Forall_cons in HF as [Hd _].
  unfold allRows.
  apply list_elem_of_bind. exists a. split; [|done].
  apply list_elem_of_bind. exists b. split; [|done].
  apply list_elem_of_bind. exists c. split; [|done].
  apply list_elem_of_bind. exists d. split; [|done].
  apply list_elem_of_singleton. done.
Qed.

(** A property checked on every row of four labels holds of the tokens of
    a recognized line. *)
Lemma allRows_check (f : list string → bool) (ws : list string) :
  forallb f allRows = true →
  length ws = 4%nat → Forall (λ w, w ∈ LABELS) ws → f ws = true.
Proof.
  intros Hall Hlen HF. rewrite forallb_forall in Hall. apply Hall.
  apply list_elem_of_In. by apply allRows_complete.
Qed.

(** ** Row ordering *)

Lemma rowCompare_total xs ts i j :
  0 < rowCompare xs ts i j → rowCompare xs ts j i <= 0.
Proof. unfold rowCompare. destruct (xs !!! i), (xs !!! j); simpl; lia. Qed.

Lemma rowCompare_trans xs ts i j k :
  rowCompare xs ts i j <= 0 → rowCompare xs ts j k <= 0 →
  rowCompare xs ts i k <= 0.
Proof.
  unfold rowCompare. destruct (xs !!! i), (xs !!! j), (xs !!! k); simpl; lia.
Qed.

Lemma rowOrder_perm rows : rowOrder (makeTables rows) ≡ₚ seq 0 16.
Proof. apply sort_perm. Qed.

Lemma rowOrder_sorted rows p q i j :
  let T := makeTables rows in
  (p < q)%nat → rowOrder T !! p = Some i → rowOrder T !! q = Some j →
  rowCompare (xIsBX T) (totalB T) i j <= 0.
Proof.
  intros T Hpq Hp Hq.
  eapply (StronglySorted_lookup (λ a b, rowCompare (xIsBX T) (totalB T) a b <= 0));
    [|exact Hpq|exact Hp|exact Hq].
  apply sort_sorted; [apply rowCompare_total|apply rowCompare_trans].
Qed.

Lemma rowOrder_lt rows p i :
  rowOrder (makeTables rows) !! p = Some i → (i < 16)%nat.
Proof.
  intros Hp. apply list_elem_of_lookup_2 in Hp.
  rewrite rowOrder_perm in Hp. apply elem_of_seq in Hp. lia.
Qed.

Lemma fmap_seq_lookup_total {B} `{!Inhabited B} (f : nat → B) (n i : nat) :
  (i < n)%nat → (f <$> seq 0 n) !!! i = f i.
Proof.
  intros Hi. by rewrite list_lookup_total_alt, list_lookup_fmap, lookup_seq_lt.
Qed.

Lemma xIsBX_lookup rows i :
  (i < 16)%nat →
  xIsBX (makeTables rows) !!! i = String.eqb ((rows !!! i) !!! 0%nat) "BX".
Proof.
  intros Hi. unfold makeTables. cbn [xIsBX]. by rewrite fmap_seq_lookup_total.
Qed.

Lemma totalB_lookup rows i :
  (i < 16)%nat → totalB (makeTables rows) !!! i = countB (rows !!! i).
Proof.
  intros Hi. unfold makeTables. cbn [totalB]. by rewrite fmap_seq_lookup_total.
Qed.

Lemma parsed_lookup (inputLines : list string) i :
  (i < length inputLines)%nat →
  (parseLine <$> inputLines) !!! i = parseLine (inputLines !!! i).
Proof.
  intros [line Hl]%lookup_lt_is_Some_2.
  by rewrite !list_lookup_total_alt, list_lookup_fmap, Hl.
Qed.

(** After normalization the marked word of a row is its first word, and
    [w.includes("B")] counts the flagged words. *)
Definition firstIsBX_check (ws : list string) : bool :=
  implb (countWords isMarkedWord ws =? 1)%nat
    (Bool.eqb (String.eqb (JS.sort orderCompare ws !!! 0%nat) "BX")
              (bool_decide (find isMarkedWord ws = Some "BX"))).

Definition countB_check (ws : list string) : bool :=
  countB (JS.sort orderCompare ws) =? Z.of_nat (countWords isFlaggedWord ws).

Lemma firstIsBX_rowLine line :
  rowLine line →
  String.eqb (parseLine line !!! 0%nat) "BX" = true ↔ markedWord line = Some "BX".
Proof.
  intros [[Hlen HF] Hone].
  pose proof (allRows_check firstIsBX_check (tokens line) eq_refl Hlen HF) as Hc.
  unfold firstIsBX_check in Hc. rewrite Hone in Hc. simpl in Hc.
  apply Bool.eqb_prop in Hc. unfold parseLine, markedWord. rewrite Hc.
  apply bool_decide_eq_true.
Qed.

Lemma countB_recognized line :
  recognizedLine line → countB (parseLine line) = Z.of_nat (flaggedCount line).
Proof.
  intros [Hlen HF].
  pose proof (allRows_check countB_check (tokens line) eq_refl Hlen HF) as Hc.
  by apply Z.eqb_eq in Hc.
Qed.

(** C8. The visitation order is a table computed by [makeTables], before
    [assignRow] runs; it lists every row once; a row whose marked word is BX
    never comes after a row whose marked word is AX; and among the rows
    whose marked words agree, the flagged-word counts ascend. *)
Theorem rowOrder_BX_first_then_flagged (inputLines : list string) p q i j :
  wellFormed inputLines →
  let order := rowOrder (makeTables (parseLine <$> inputLines)) in
  (p < q)%nat → order !! p = Some i → order !! q = Some j →
  order ≡ₚ seq 0 16 ∧
  (markedWord (inputLines !!! j) = Some "BX" →
   markedWord (inputLines !!! i) = Some "BX") ∧
  ((markedWord (inputLines !!! i) = Some "BX" ↔
    markedWord (inputLines !!! j) = Some "BX") →
   (flaggedCount (inputLines !!! i) ≤ flaggedCount (inputLines !!! j))%nat).
Proof.
  intros [Hlen Hrows] order Hpq Hp Hq.
  split; [apply rowOrder_perm|].
  pose proof (rowOrder_lt _ _ _ Hp) as Hi. pose proof (rowOrder_lt _ _ _ Hq) as Hj.
  pose proof (rowOrder_sorted _ _ _ _ _ Hpq Hp Hq) as Hle. cbv zeta in Hle.
  unfold rowCompare in Hle.
  rewrite !xIsBX_lookup, !totalB_lookup, !parsed_lookup in Hle by lia.
  assert (rowLine (inputLines !!! i)) as Hri.
  { apply Forall_lookup_total_1; [done|lia]. }
  assert (rowLine (inputLines !!! j)) as Hrj.
  { apply Forall_lookup_total_1; [done|lia]. }
  rewrite (countB_recognized _ (proj1 Hri)), (countB_recognized _ (proj1 Hrj)) in Hle.
  rewrite <- (firstIsBX_rowLine _ Hri), <- (firstIsBX_rowLine _ Hrj).
  destruct (String.eqb (parseLine (inputLines !!! i) !!! 0%nat) "BX"),
    (String.eqb (parseLine (inputLines !!! j) !!! 0%nat) "BX");
    simpl in Hle; split; try done; try lia; intros [? ?]; try lia; naive_solver.
Qed.

Global Instance rowLine_dec line : Decision (rowLine line).
Proof. unfold rowLine. apply _. Defined.

Global Instance wellFormed_dec inputLines : Decision (wellFormed inputLines).
Proof. unfold wellFormed. apply _. Defined.


Lemma exampleInput_wellFormed : wellFormed exampleInput.
Proof. by_evaluation. Qed.

Lemma rowOrder_BX_first_then_flagged_witness :
  rowOrder (makeTables (parseLine <$> exampleInput)) ≡ₚ seq 0 16 ∧
  (markedWord (exampleInput !!! 0%nat) = Some "BX" →
   markedWord (exampleInput !!! 3%nat) = Some "BX") ∧
  ((markedWord (exampleInput !!! 3%nat) = Some "BX" ↔
    markedWord (exampleInput !!! 0%nat) = Some "BX") →
   (flaggedCount (exampleInput !!! 3%nat) ≤ flaggedCount (exampleInput !!! 0%nat))%nat).
Proof.
  apply (rowOrder_BX_first_then_flagged exampleInput 2 3 3 0).
  - by_evaluation.
  - lia.
  - reflexivity.
  - reflexivity.
Defined.

(** ** The two prunes *)

Lemma foldl_Zadd_acc (a : Z) (l : list Z) : foldl Z.add a l = a + foldl Z.add 0 l.
Proof.
  revert a. induction l as [|x l IH]; intros a; simpl; [lia|].
  rewrite (IH (a + x)), (IH (0 + x)). lia.
Qed.

Lemma fmap_lookup_total_seq {A B} `{!Inhabited A} (f : A → B) (l : list A) :
  (λ i, f (l !!! i)) <$> seq 0 (length l) = f <$> l.
Proof.
  apply list_eq. intros i. rewrite !list_lookup_fmap.
  destruct (decide (i < length l)%nat) as [Hi|Hi].
  - rewrite lookup_seq_lt by done. simpl.
    destruct (lookup_lt_is_Some_2 l i Hi) as [x Hx].
    by rewrite Hx, (list_lookup_total_correct _ _ _ Hx).
  - rewrite lookup_seq_ge by lia. by rewrite lookup_ge_None_2 by lia.
Qed.






(** ** Backtracking restores the column state *)

Lemma sameTail_refl b : sameTail b b.
Proof. by split. Qed.

Lemma sameTail_trans a b c : sameTail a b → sameTail b c → sameTail a c.
Proof. intros [? ?] [? ?]. split; congruence. Qed.

Lemma sameTail_insert b old (c : nat) v :
  (c < 4)%nat → sameTail b old → sameTail (<[c := v]> b) old.
Proof.
  intros Hc [Hlen Hdrop]. split.
  - by rewrite length_insert.
  - by rewrite drop_insert_lt.
Qed.

(** The loop that copies the four saved counts back. *)
Lemma restore_sameTail (b old : list Z) :
  sameTail b old →
  foldl (λ (b : list Z) (c : nat), <[c := old !!! c]> b) b (seq 0 4) = old.
Proof.
  intros [Hlen Hdrop].
  destruct b as [|b0 [|b1 [|b2 [|b3 b']]]], old as [|o0 [|o1 [|o2 [|o3 o']]]];
    simplify_eq/=; done.
Qed.

Lemma otherCols_lt colX i3 : (otherCols colX !!! i3 < 4)%nat.
Proof.
  unfold otherCols.
  destruct colX as [|[|[|[|n]]]]; destruct i3 as [|[|[|[|m]]]]; vm_compute; lia.
Qed.

Section Frame.
Context {K : Type} `{Countable K}.
Variable T : Tables.
Implicit Type st : State K.

Lemma incrBCount_cols st c :
    (c < 4)%nat →
    XCapacity (incrBCount st c) = XCapacity st ∧
    BXCapacity (incrBCount st c) = BXCapacity st ∧
    sameTail (BCount (incrBCount st c)) (BCount st).
  Proof.
    intros Hc. repeat split; try done; simpl.
    - by rewrite length_insert.
    - by rewrite drop_insert_lt.
  Qed.

Lemma placeOthers_cols st rIdx colX p3 :
    XCapacity (placeOthers T st rIdx colX p3) = XCapacity st ∧
    BXCapacity (placeOthers T st rIdx colX p3) = BXCapacity st ∧
    sameTail (BCount (placeOthers T st rIdx colX p3)) (BCount st).
  Proof.
    unfold placeOthers. generalize (seq 0 3). intros l. revert st.
    induction l as [|i3 l IH]; intros st; cbn [foldl].
    - repeat split; done.
    - match goal with |- context [foldl _ ?s l] => destruct (IH s) as (HX & HBX & HB) end.
      rewrite HX, HBX. clear IH HX HBX.
      destruct ((hasB T !!! rIdx) !!! (p3 !!! i3)).
      + destruct (incrBCount_cols (setCell st rIdx (otherCols colX !!! i3)
                    ((rows T !!! rIdx) !!! (p3 !!! i3))) (otherCols colX !!! i3)
                    (otherCols_lt _ _)) as (HX & HBX & HB').
        repeat split; [done..| |].
        * destruct HB as [-> _]. by destruct HB' as [-> _].
        * destruct HB as [_ ->]. by destruct HB' as [_ ->].
      + repeat split; try done; apply HB.
  Qed.

Lemma placeX_cols st rIdx colX :
    (colX < 4)%nat →
    XCapacity (placeX T st rIdx colX) = <[colX := XCapacity st !!! colX - 1]> (XCapacity st) ∧
    BXCapacity (placeX T st rIdx colX) =
      (if (xIsBX T !!! rIdx : bool)
       then <[colX := BXCapacity st !!! colX - 1]> (BXCapacity st)
       else BXCapacity st) ∧
    sameTail (BCount (placeX T st rIdx colX)) (BCount st).
  Proof.
    intros Hc. unfold placeX.
    destruct (xIsBX T !!! rIdx), ((hasB T !!! rIdx) !!! 0%nat); simpl;
      repeat split; try done;
      try (by rewrite length_insert); by rewrite drop_insert_lt.
  Qed.

Lemma restoreBCount_cols st old :
    sameTail (BCount st) old →
    columnState (restoreBCount st old) = (XCapacity st, BXCapacity st, old).
  Proof.
    intros Hs. unfold columnState, restoreBCount. cbn [XCapacity BXCapacity BCount setBCount].
    by rewrite restore_sameTail.
  Qed.

Lemma permLoop_false (rec : State K → bool * State K) pos rIdx colX perms st st' :
    (∀ s s', rec s = (false, s') → columnState s' = columnState s) →
    permLoop T rec pos rIdx colX perms st = (false, st') →
    columnState st' = columnState st.
  Proof.
    intros Hrec. revert st. induction perms as [|p3 rest IH]; intros st; cbn [permLoop].
    - by intros [= <-].
    - destruct (placeOthers_cols st rIdx colX p3) as (HX & HBX & HB).
      destruct (pruneValid T _ pos).
      + destruct (rec _) as [[] st3] eqn:Hr; [done|].
        intros Hl. apply IH in Hl. rewrite Hl. apply Hrec in Hr.
        rewrite restoreBCount_cols.
        * unfold columnState in *. congruence.
        * unfold columnState in Hr. by replace (BCount st3) with
            (BCount (placeOthers T st rIdx colX p3)) by congruence.
      + intros Hl. apply IH in Hl. rewrite Hl.
        rewrite restoreBCount_cols by done. unfold columnState. congruence.
  Qed.

Lemma revertX_placeX st1 st rIdx colX :
    (colX < 4)%nat →
    columnState st1 = columnState (placeX T st rIdx colX) →
    columnState (revertX st1 colX (XCapacity st !!! colX) (BXCapacity st !!! colX)
                   (BCount st)) = columnState st.
  Proof.
    intros Hc Heq. destruct (placeX_cols st rIdx colX Hc) as (HX & HBX & HB).
    unfold columnState in Heq. rewrite HX, HBX in Heq. injection Heq as HX1 HBX1 HB1.
    unfold revertX. rewrite restoreBCount_cols.
    - cbn [XCapacity BXCapacity setXCapacity setBXCapacity]. rewrite HX1, HBX1.
      assert (∀ (l : list Z) v, <[colX := l !!! colX]> (<[colX := v]> l) = l) as Hid.
      { intros l v. rewrite list_insert_insert_eq. apply list_insert_id'.
        intros Hlt. by apply list_lookup_lookup_total_lt. }
      assert (∀ l : list Z, <[colX := l !!! colX]> l = l) as Hid'.
      { intros l. apply list_insert_id'.
        intros Hlt. by apply list_lookup_lookup_total_lt. }
      rewrite Hid. destruct (xIsBX T !!! rIdx); by rewrite ?Hid, ?Hid'.
    - cbn [BCount setXCapacity setBXCapacity]. by rewrite HB1.
  Qed.

Lemma colLoop_false (rec : State K → bool * State K) pos rIdx cols st st' :
    (∀ s s', rec s = (false, s') → columnState s' = columnState s) →
    Forall (λ c : nat, (c < 4)%nat) cols →
    colLoop T rec pos rIdx cols st = (false, st') →
    columnState st' = columnState st.
  Proof.
    intros Hrec Hcols. revert st.
    induction Hcols as [|colX rest Hc _ IH]; intros st; cbn [colLoop].
    - by intros [= <-].
    - destruct (XCapacity st !!! colX <=? 0); [apply IH|].
      destruct (xIsBX T !!! rIdx && (BXCapacity st !!! colX <=? 0)); [apply IH|].
      destruct (permLoop T rec pos rIdx colX _ _) as [[] st1] eqn:Hp; [done|].
      intros Hl. apply IH in Hl. rewrite Hl.
      apply permLoop_false in Hp; [|done]. by apply revertX_placeX with rIdx.
  Qed.

Lemma seq_0_4_lt : Forall (λ c : nat, (c < 4)%nat) (seq 0 4).
  Proof. repeat constructor. Qed.

Lemma assignRow_false (enc : nat → list Z → list Z → list Z → K) left st st' :
    assignRow enc T left st = (false, st') → columnState st' = columnState st.
  Proof.
    revert st st'. induction left as [|left IH]; intros st st'; cbn [assignRow].
    - by intros [= _ <-].
    - destruct (memo st !! _) as [b|]; [by intros [= _ <-]|].
      destruct (colLoop _ _ _ _ _ _) as [found st1] eqn:Hc.
      intros [= -> <-]. eapply colLoop_false in Hc; [|apply IH|apply seq_0_4_lt].
      exact Hc.
  Qed.
End Frame.

(** C9. When [assignRow] returns [false], the arrays [XCapacity],
    [BXCapacity] and [BCount] hold the values they held on entry, whatever
    the tables, the key function and the state it was called in. *)
Theorem backtrack_restores_columns {K} `{Countable K}
    (enc : nat → list Z → list Z → list Z → K) (T : Tables) (left : nat)
    (st st' : State K) :
  assignRow enc T left st = (false, st') →
  XCapacity st' = XCapacity st ∧
  BXCapacity st' = BXCapacity st ∧
  BCount st' = BCount st.
Proof.
  intros Hf. apply assignRow_false in Hf. unfold columnState in Hf.
  by injection Hf.
Qed.

Lemma backtrack_restores_columns_witness :
  let T := makeTables (parseLine <$> fiveBXInput) in
  let r := assignRow encodeState T 16 initialState in
  XCapacity r.2 = [4; 4; 4; 4] ∧
  BXCapacity r.2 = [1; 1; 1; 1] ∧
  BCount r.2 = [0; 0; 0; 0].
Proof.
  intros T r.
  apply (backtrack_restores_columns encodeState T 16 initialState r.2).
  transitivity (r.1, r.2); [apply surjective_pairing|].
  apply (f_equal (λ b, (b, r.2))). vm_compute. reflexivity.
Defined.

(** ** The capacities stay in range *)

Section Log.
Context {K : Type} `{Countable K}.
Variable T : Tables.
Implicit Type st : State K.

Lemma permLoopLog_erase (recL : State K → bool * State K * list (State K))
      (rec : State K → bool * State K) pos rIdx colX perms st :
    (∀ s, (recL s).1 = rec s) →
    (permLoopLog T recL pos rIdx colX perms st).1 = permLoop T rec pos rIdx colX perms st.
  Proof.
    intros Hrec. revert st. induction perms as [|p3 rest IH]; intros st;
      cbn [permLoopLog permLoop]; [done|].
    destruct (pruneValid T _ pos).
    - rewrite <- Hrec. destruct (recL _) as [[[] st3] log]; cbn [fst]; [done|].
      rewrite <- IH. by destruct (permLoopLog _ _ _ _ _ _ _) as [[? ?] ?].
    - rewrite <- IH. by destruct (permLoopLog _ _ _ _ _ _ _) as [[? ?] ?].
  Qed.

Lemma colLoopLog_erase (recL : State K → bool * State K * list (State K))
      (rec : State K → bool * State K) pos rIdx cols st :
    (∀ s, (recL s).1 = rec s) →
    (colLoopLog T recL pos rIdx cols st).1 = colLoop T rec pos rIdx cols st.
  Proof.
    intros Hrec. revert st. induction cols as [|colX rest IH]; intros st;
      cbn [colLoopLog colLoop]; [done|].
    destruct (XCapacity st !!! colX <=? 0); [apply IH|].
    destruct (xIsBX T !!! rIdx && _); [apply IH|].
    rewrite <- (permLoopLog_erase recL rec) by done.
    destruct (permLoopLog _ _ _ _ _ _ _) as [[[] st2] log]; cbn [fst]; [done|].
    rewrite <- IH. by destruct (colLoopLog _ _ _ _ _ _) as [[? ?] ?].
  Qed.

  (** The logged search computes what the search computes. *)
Lemma assignRowLog_erase (enc : nat → list Z → list Z → list Z → K) left st :
    (assignRowLog enc T left st).1 = assignRow enc T left st.
  Proof.
    revert st. induction left as [|left IH]; intros st;
      cbn [assignRowLog assignRow]; [done|].
    destruct (memo st !! _); [done|].
    rewrite <- (colLoopLog_erase (assignRowLog enc T left) (assignRow enc T left)) by done.
    by destruct (colLoopLog _ _ _ _ _ _) as [[? ?] ?].
  Qed.

  (** The state on entry is the first state of the log. *)
Lemma assignRowLog_head (enc : nat → list Z → list Z → list Z → K) left st :
    head (assignRowLog enc T left st).2 = Some st.
  Proof.
    destruct left; cbn [assignRowLog]; [done|].
    destruct (memo st !! _); [done|].
    by destruct (colLoopLog _ _ _ _ _ _) as [[? ?] ?].
  Qed.

Lemma lookup_total_range (l : list Z) (i : nat) lo hi :
    lo <= 1 <= hi → Forall (λ x, lo <= x <= hi) l → lo <= l !!! i <= hi.
  Proof.
    intros H0 HF. rewrite list_lookup_total_alt.
    destruct (l !! i) as [x|] eqn:Hx; [|exact H0].
    exact (Forall_lookup_1 _ _ _ _ HF Hx).
  Qed.

Lemma placeOthers_range st rIdx colX p3 :
    capacitiesInRange st → capacitiesInRange (placeOthers T st rIdx colX p3).
  Proof.
    unfold capacitiesInRange.
    destruct (placeOthers_cols T st rIdx colX p3) as (-> & -> & _). done.
  Qed.

Lemma restoreBCount_range st old :
    capacitiesInRange st → capacitiesInRange (restoreBCount st old).
  Proof. done. Qed.

Lemma placeX_range st rIdx colX :
    capacitiesInRange st →
    (XCapacity st !!! colX <=? 0) = false →
    (xIsBX T !!! rIdx && (BXCapacity st !!! colX <=? 0)) = false →
    capacitiesInRange (placeX T st rIdx colX).
  Proof.
    intros [HX HBX] Hg1 Hg2. apply Z.leb_gt in Hg1.
    pose proof (lookup_total_range _ colX 0 4 ltac:(lia) HX).
    pose proof (lookup_total_range _ colX 0 1 ltac:(lia) HBX).
    unfold placeX, capacitiesInRange.
    destruct (xIsBX T !!! rIdx); simpl in Hg2.
    - apply Z.leb_gt in Hg2.
      destruct ((hasB T !!! rIdx) !!! 0%nat); simpl;
        (split; (apply Forall_insert; [done|lia])).
    - destruct ((hasB T !!! rIdx) !!! 0%nat); simpl;
        (split; [apply Forall_insert; [done|lia]|done]).
  Qed.

Lemma revertX_range st st0 colX oldB :
    capacitiesInRange st → capacitiesInRange st0 →
    capacitiesInRange
      (revertX st colX (XCapacity st0 !!! colX) (BXCapacity st0 !!! colX) oldB).
  Proof.
    intros [HX HBX] [HX0 HBX0].
    pose proof (lookup_total_range _ colX 0 4 ltac:(lia) HX0).
    pose proof (lookup_total_range _ colX 0 1 ltac:(lia) HBX0).
    split; simpl; by apply Forall_insert.
  Qed.

  (** What a call promises: the states it logs and the state it returns are
      in range. *)
Definition keepsRange (f : State K → bool * State K * list (State K)) : Prop :=
    ∀ st, capacitiesInRange st →
      Forall capacitiesInRange (f st).2 ∧ capacitiesInRange (f st).1.2.

Lemma permLoopLog_range recL pos rIdx colX perms :
    keepsRange recL → keepsRange (λ st, permLoopLog T recL pos rIdx colX perms st).
  Proof.
    intros Hrec. induction perms as [|p3 rest IH]; intros st Hst;
      cbn [permLoopLog]; [by split|].
    pose proof (placeOthers_range st rIdx colX p3 Hst) as H2.
    destruct (pruneValid T _ pos).
    - destruct (Hrec _ H2) as [Hlog H3].
      destruct (recL _) as [[[] st3] log]; cbn [fst snd] in *.
      + split; [by constructor|done].
      + destruct (IH (restoreBCount st3 (BCount st))
                    (restoreBCount_range _ _ H3)) as [Hlog' H5].
        destruct (permLoopLog _ _ _ _ _ _ _) as [[r st5] log']; cbn [fst snd] in *.
        split; [|done]. constructor; [done|]. apply Forall_app. split; [done|].
        constructor; [|done]. by apply restoreBCount_range.
    - destruct (IH (restoreBCount (placeOthers T st rIdx colX p3) (BCount st))
                  (restoreBCount_range _ _ H2)) as [Hlog' H5].
      destruct (permLoopLog _ _ _ _ _ _ _) as [[r st5] log']; cbn [fst snd] in *.
      split; [|done]. constructor; [done|]. constructor; [|done].
      by apply restoreBCount_range.
  Qed.

Lemma colLoopLog_range recL pos rIdx cols :
    keepsRange recL → keepsRange (λ st, colLoopLog T recL pos rIdx cols st).
  Proof.
    intros Hrec. induction cols as [|colX rest IH]; intros st Hst;
      cbn [colLoopLog]; [by split|].
    destruct (XCapacity st !!! colX <=? 0) eqn:Hg1; [by apply IH|].
    destruct (xIsBX T !!! rIdx && _) eqn:Hg2; [by apply IH|].
    pose proof (placeX_range st rIdx colX Hst Hg1 Hg2) as H1.
    destruct (permLoopLog_range recL pos rIdx colX (rowNonXPerms T !!! rIdx) Hrec _ H1)
      as [Hlog H2].
    destruct (permLoopLog _ _ _ _ _ _ _) as [[[] st2] log]; cbn [fst snd] in *.
    - split; [by constructor|done].
    - pose proof (revertX_range st2 st colX (BCount st) H2 Hst) as H3.
      destruct (IH _ H3) as [Hlog' H4].
      destruct (colLoopLog _ _ _ _ _ _) as [[r st4] log']; cbn [fst snd] in *.
      split; [|done]. constructor; [done|]. apply Forall_app. split; [done|].
      by constructor.
  Qed.

Lemma assignRowLog_range (enc : nat → list Z → list Z → list Z → K) left :
    keepsRange (assignRowLog enc T left).
  Proof.
    induction left as [|left IH]; intros st Hst; cbn [assignRowLog].
    - split; [by constructor|done].
    - destruct (memo st !! _); [split; [by constructor|done]|].
      destruct (colLoopLog_range (assignRowLog enc T left) (16 - S left)
                  (rowOrder T !!! (16 - S left)%nat) (seq 0 4) IH st Hst) as [Hlog H1].
      destruct (colLoopLog _ _ _ _ _ _) as [[found st1] log]; cbn [fst snd] in *.
      split; [by constructor|done].
  Qed.
End Log.

Lemma initialState_range {K} `{Countable K} : capacitiesInRange (initialState (K := K)).
Proof. split; repeat constructor; lia. Qed.

(** C10. In every state the search goes through, from the initial state of
    a [baselineSolver] call on, each [XCapacity[c]] is between 0 and 4 and
    each [BXCapacity[c]] is between 0 and 1; neither is ever negative. *)
Theorem capacities_stay_in_range {K} `{Countable K}
    (enc : nat → list Z → list Z → list Z → K) (T : Tables) :
  Forall (λ st : State K,
            Forall (λ x, 0 <= x <= 4) (XCapacity st) ∧
            Forall (λ x, 0 <= x <= 1) (BXCapacity st))
         (searchLog enc T).
Proof.
  unfold searchLog.
  exact (proj1 (assignRowLog_range T enc 16 initialState initialState_range)).
Qed.

(** ** Soundness of the search *)

Lemma incr_tick (l : list Z) (c : nat) (h : bool) :
  (if h then <[c := l !!! c + 1]> l else l) = <[c := l !!! c + (if h then 1 else 0)]> l.
Proof.
  destruct h; [done|]. rewrite Z.add_0_r. symmetry. apply list_insert_id'.
  intros Hlt. by apply list_lookup_lookup_total_lt.
Qed.

Lemma elem_of_perms123 (p3 : list nat) :
  p3 ∈ perms123 →
  p3 = [1; 2; 3]%nat ∨ p3 = [1; 3; 2]%nat ∨ p3 = [2; 1; 3]%nat ∨
  p3 = [2; 3; 1]%nat ∨ p3 = [3; 1; 2]%nat ∨ p3 = [3; 2; 1]%nat.
Proof. unfold perms123. rewrite !elem_of_cons, elem_of_nil. tauto. Qed.

Ltac eval_otherCols :=
  repeat match goal with
  | |- context [otherCols ?n] =>
      let v := eval vm_compute in (otherCols n) in change (otherCols n) with v
  end.

(** One placement of a row: the marked word into [colX], the other three
    by [p3].  The row written is a permutation of the row read, and each
    counter moves by what its column received. *)
Lemma placement_facts (colX : nat) (p3 : list nat) (x a b c : string)
    (r1 : list string) (X BX B : list Z) :
  (colX < 4)%nat → p3 ∈ perms123 →
  length r1 = 4%nat → r1 !!! colX = x →
  length X = 4%nat → length BX = 4%nat → length B = 4%nat →
  isMarkedWord x = true →
  isMarkedWord a = false → isMarkedWord b = false → isMarkedWord c = false →
  let row := [x; a; b; c] in
  let hb := isFlaggedWord <$> row in
  let r2 := writeOthers row r1 colX p3 in
  let X2 := <[colX := X !!! colX - 1]> X in
  let BX2 := if isFlaggedMarkedWord x then <[colX := BX !!! colX - 1]> BX else BX in
  let B1 := if (hb !!! 0%nat : bool) then <[colX := B !!! colX + 1]> B else B in
  let B2 := countOthers hb B1 colX p3 in
  r2 ≡ₚ row ∧ length r2 = 4%nat ∧ r2 !!! colX = x ∧
  ∀ c', (c' < 4)%nat →
    X2 !!! c' = X !!! c' - tick isMarkedWord (r2 !!! c') ∧
    BX2 !!! c' = BX !!! c' - tick isFlaggedMarkedWord (r2 !!! c') ∧
    B2 !!! c' = B !!! c' + tick isFlaggedWord (r2 !!! c').
Proof.
  intros HcolX Hp3 Hr1 Hx HX HBX HB Hmx Hma Hmb Hmc.
  assert (∀ w, isMarkedWord w = false → isFlaggedMarkedWord w = false) as Hfm.
  { intros w. unfold isMarkedWord, isFlaggedMarkedWord.
    by intros [_ ?]%orb_false_iff. }
  pose proof (Hfm a Hma) as Hfa. pose proof (Hfm b Hmb) as Hfb.
  pose proof (Hfm c Hmc) as Hfc.
  assert (tick isMarkedWord x = 1) as Tx by (unfold tick; by rewrite Hmx).
  assert (tick isMarkedWord a = 0) as Ta by (unfold tick; by rewrite Hma).
  assert (tick isMarkedWord b = 0) as Tb by (unfold tick; by rewrite Hmb).
  assert (tick isMarkedWord c = 0) as Tc by (unfold tick; by rewrite Hmc).
  assert (tick isFlaggedMarkedWord a = 0) as Fa by (unfold tick; by rewrite Hfa).
  assert (tick isFlaggedMarkedWord b = 0) as Fb by (unfold tick; by rewrite Hfb).
  assert (tick isFlaggedMarkedWord c = 0) as Fc by (unfold tick; by rewrite Hfc).
  destruct r1 as [|y0 [|y1 [|y2 [|y3 [|? ?]]]]]; try discriminate.
  destruct X as [|x0 [|x1 [|x2 [|x3 [|? ?]]]]]; try discriminate.
  destruct BX as [|f0 [|f1 [|f2 [|f3 [|? ?]]]]]; try discriminate.
  destruct B as [|b0 [|b1 [|b2 [|b3 [|? ?]]]]]; try discriminate.
  unfold writeOthers, countOthers. cbn [foldl seq fmap list_fmap].
  rewrite !incr_tick.
  destruct colX as [|[|[|[|?]]]]; [| | | |lia];
    apply elem_of_perms123 in Hp3 as [->|[->|[->|[->|[->| ->]]]]];
    vm_compute in Hx; subst; eval_otherCols;
    cbn -[isMarkedWord isFlaggedWord isFlaggedMarkedWord Z.add Z.sub tick].
  all: (split; [solve_Permutation|split; [reflexivity|split; [reflexivity|]]]).
  all: intros c' Hc'; destruct c' as [|[|[|[|?]]]]; try lia;
    cbn -[isMarkedWord isFlaggedWord isFlaggedMarkedWord Z.add Z.sub tick];
    rewrite ?Tx, ?Ta, ?Tb, ?Tc, ?Fa, ?Fb, ?Fc.
  all: unfold tick; destruct (isFlaggedMarkedWord x);
    cbn -[isFlaggedWord Z.add Z.sub]; repeat split; lia.
Qed.

Section Soundness.
Context {K : Type} `{Countable K}.
Variable enc : nat → list Z → list Z → list Z → K.
Variable T : Tables.
Hypothesis HT : GoodTables T.
Implicit Type st : State K.

Lemma order_length : length (rowOrder T) = 16%nat.
Proof. by rewrite (good_order T HT). Qed.

Lemma order_lookup p : (p < 16)%nat → rowOrder T !! p = Some (rowOrder T !!! p).
Proof. intros Hp. apply list_lookup_lookup_total_lt. by rewrite order_length. Qed.

Lemma order_lt p : (p < 16)%nat → (rowOrder T !!! p < 16)%nat.
Proof.
  intros Hp. pose proof (list_elem_of_lookup_2 _ _ _ (order_lookup p Hp)) as Hin.
  assert (rowOrder T !!! p ∈ seq 0 16) as Hs.
  { by rewrite <- (good_order T HT). }
  apply elem_of_seq in Hs. lia.
Qed.

Lemma order_inj p q :
  (p < 16)%nat → (q < 16)%nat → rowOrder T !!! p = rowOrder T !!! q → p = q.
Proof.
  intros Hp Hq Heq. eapply NoDup_lookup; [|apply order_lookup, Hp|].
  - rewrite (good_order T HT). apply NoDup_seq.
  - rewrite Heq. by apply order_lookup.
Qed.

Lemma placeX_eq st rIdx colX :
  placeX T st rIdx colX =
  {| XCapacity := <[colX := XCapacity st !!! colX - 1]> (XCapacity st);
     BXCapacity := if (xIsBX T !!! rIdx : bool)
                   then <[colX := BXCapacity st !!! colX - 1]> (BXCapacity st)
                   else BXCapacity st;
     BCount := if ((hasB T !!! rIdx) !!! 0%nat : bool)
               then <[colX := BCount st !!! colX + 1]> (BCount st)
               else BCount st;
     finalArrangement :=
       <[rIdx := <[colX := (rows T !!! rIdx) !!! 0%nat]> (finalArrangement st !!! rIdx)]>
         (finalArrangement st);
     memo := memo st |}.
Proof.
  unfold placeX. by destruct (xIsBX T !!! rIdx), ((hasB T !!! rIdx) !!! 0%nat).
Qed.

Lemma placeOthers_eq st rIdx colX p3 :
  (rIdx < length (finalArrangement st))%nat →
  placeOthers T st rIdx colX p3 =
  {| XCapacity := XCapacity st;
     BXCapacity := BXCapacity st;
     BCount := countOthers (hasB T !!! rIdx) (BCount st) colX p3;
     finalArrangement :=
       <[rIdx := writeOthers (rows T !!! rIdx) (finalArrangement st !!! rIdx) colX p3]>
         (finalArrangement st);
     memo := memo st |}.
Proof.
  unfold placeOthers, countOthers, writeOthers. generalize (seq 0 3). intros l.
  revert st. induction l as [|i3 l IH]; intros st Hlt; cbn [foldl].
  - destruct st as [X BX B fa m]; cbn in *. f_equal. symmetry.
    apply list_insert_id. by apply list_lookup_lookup_total_lt.
  - rewrite IH.
    + destruct st as [X BX B fa m]; cbn in Hlt.
      destruct ((hasB T !!! rIdx) !!! (p3 !!! i3)); cbn;
        by rewrite list_lookup_total_insert_eq, list_insert_insert_eq.
    + destruct st as [X BX B fa m]; cbn in Hlt.
      destruct ((hasB T !!! rIdx) !!! (p3 !!! i3)); cbn; by rewrite length_insert.
Qed.

Lemma dims_row st i :
  dims st → (i < 16)%nat → length (finalArrangement st !!! i) = 4%nat.
Proof.
  intros (_ & _ & _ & Hfa & Hrows) Hi.
  apply (Forall_lookup_total_1 _ _ _ Hrows). lia.
Qed.

Lemma countOthers_length hb bc colX p3 :
  length (countOthers hb bc colX p3) = length bc.
Proof.
  unfold countOthers. generalize (seq 0 3). intros l. revert bc.
  induction l as [|i3 l IH]; intros bc; cbn [foldl]; [done|].
  rewrite IH. destruct (hb !!! (p3 !!! i3)); [by rewrite length_insert|done].
Qed.

Lemma writeOthers_length row r colX p3 :
  length (writeOthers row r colX p3) = length r.
Proof.
  unfold writeOthers. generalize (seq 0 3). intros l. revert r.
  induction l as [|i3 l IH]; intros r; cbn [foldl]; [done|].
  by rewrite IH, length_insert.
Qed.

Lemma restoreBCount_length st old :
  length (BCount (restoreBCount st old)) = length (BCount st).
Proof.
  unfold restoreBCount. cbn [BCount setBCount]. generalize (seq 0 4). intros l.
  generalize (BCount st). induction l as [|c l IH]; intros b; cbn [foldl]; [done|].
  by rewrite IH, length_insert.
Qed.

Lemma dims_restoreBCount st old : dims st → dims (restoreBCount st old).
Proof.
  intros (HX & HBX & HB & Hfa & Hrows). repeat split; try done.
  by rewrite restoreBCount_length.
Qed.

Lemma dims_placeX st rIdx colX :
  dims st → (rIdx < 16)%nat → dims (placeX T st rIdx colX).
Proof.
  intros Hd Hr. pose proof (dims_row st rIdx Hd Hr) as Hrow.
  destruct Hd as (HX & HBX & HB & Hfa & Hrows). rewrite placeX_eq.
  unfold dims; cbn [XCapacity BXCapacity BCount finalArrangement].
  destruct (xIsBX T !!! rIdx), ((hasB T !!! rIdx) !!! 0%nat);
    rewrite ?length_insert; repeat split; try done;
    (apply Forall_insert; [done|by rewrite length_insert]).
Qed.

Lemma dims_placeOthers st rIdx colX p3 :
  dims st → (rIdx < 16)%nat → dims (placeOthers T st rIdx colX p3).
Proof.
  intros Hd Hr. pose proof (dims_row st rIdx Hd Hr) as Hrow.
  destruct Hd as (HX & HBX & HB & Hfa & Hrows).
  rewrite placeOthers_eq by lia.
  unfold dims; cbn [XCapacity BXCapacity BCount finalArrangement].
  rewrite countOthers_length, length_insert. repeat split; try done.
  apply Forall_insert; [done|by rewrite writeOthers_length].
Qed.

Lemma dims_revertX st colX oX oBX oB : dims st → dims (revertX st colX oX oBX oB).
Proof.
  intros (HX & HBX & HB & Hfa & Hrows). unfold revertX.
  apply dims_restoreBCount. unfold dims.
  cbn [XCapacity BXCapacity BCount finalArrangement setXCapacity setBXCapacity].
  by rewrite !length_insert.
Qed.

Lemma placedRow_other st st' p rIdx r :
  finalArrangement st' = <[rIdx := r]> (finalArrangement st) →
  rowOrder T !!! p ≠ rIdx → placedRow T st' p = placedRow T st p.
Proof.
  intros Hfa Hne. unfold placedRow. rewrite Hfa.
  by apply list_lookup_total_insert_ne.
Qed.

Lemma placedRow_this st st' p r :
  finalArrangement st' = <[rowOrder T !!! p := r]> (finalArrangement st) →
  (rowOrder T !!! p < length (finalArrangement st))%nat →
  placedRow T st' p = r.
Proof.
  intros Hfa Hlt. unfold placedRow. rewrite Hfa.
  by apply list_lookup_total_insert_eq.
Qed.

(** The state after the three other words are placed. *)
Lemma place_step pos (st0 st_b : State K) colX p3 :
  let rIdx := rowOrder T !!! pos in
  let st2 := placeOthers T st_b rIdx colX p3 in
  (pos < 16)%nat → (colX < 4)%nat → p3 ∈ perms123 →
  dims st0 → dims st_b →
  columnState st_b = columnState (placeX T st0 rIdx colX) →
  placedRow T st_b pos !!! colX = (rows T !!! rIdx) !!! 0%nat →
  dims st2 ∧ memo st2 = memo st_b ∧
  (∀ p, (p < 16)%nat → p ≠ pos → placedRow T st2 p = placedRow T st_b p) ∧
  placedRow T st2 pos ≡ₚ rows T !!! rIdx ∧
  placedRow T st2 pos !!! colX = (rows T !!! rIdx) !!! 0%nat ∧
  ∀ c, (c < 4)%nat →
    XCapacity st2 !!! c =
      XCapacity st0 !!! c - tick isMarkedWord (placedRow T st2 pos !!! c) ∧
    BXCapacity st2 !!! c =
      BXCapacity st0 !!! c - tick isFlaggedMarkedWord (placedRow T st2 pos !!! c) ∧
    BCount st2 !!! c =
      BCount st0 !!! c + tick isFlaggedWord (placedRow T st2 pos !!! c).
Proof.
  intros rIdx st2 Hpos HcolX Hp3 Hd0 Hdb Hcols Hcell.
  pose proof (order_lt pos Hpos) as HrIdx. fold rIdx in HrIdx.
  destruct (good_rows T HT rIdx HrIdx) as
    (x & a & b & c & Hrow & Hmx & Hma & Hmb & Hmc & HhasB & HisBX).
  pose proof (dims_row st_b rIdx Hdb HrIdx) as Hlenb.
  assert (length (finalArrangement st_b) = 16%nat) as Hfab by apply Hdb.
  assert (finalArrangement st2 =
          <[rIdx := writeOthers (rows T !!! rIdx) (finalArrangement st_b !!! rIdx) colX p3]>
            (finalArrangement st_b)) as Hfa2.
  { unfold st2. by rewrite placeOthers_eq by lia. }
  assert (placedRow T st2 pos =
          writeOthers (rows T !!! rIdx) (finalArrangement st_b !!! rIdx) colX p3) as Hrow2.
  { apply (placedRow_this st_b); [exact Hfa2|]. fold rIdx. lia. }
  rewrite placeX_eq in Hcols. unfold columnState in Hcols.
  cbn [XCapacity BXCapacity BCount] in Hcols. injection Hcols as HXb HBXb HBb.
  destruct Hd0 as (HX0 & HBX0 & HB0 & _).
  pose proof (placement_facts colX p3 x a b c (finalArrangement st_b !!! rIdx)
    (XCapacity st0) (BXCapacity st0) (BCount st0) HcolX Hp3 Hlenb) as Hpf.
  unfold placedRow in Hcell. fold rIdx in Hcell. rewrite Hrow in Hcell.
  cbn [lookup_total list_lookup_total] in Hcell.
  specialize (Hpf Hcell HX0 HBX0 HB0 Hmx Hma Hmb Hmc). cbv zeta in Hpf.
  rewrite <- HhasB, <- HisBX, <- Hrow in Hpf.
  rewrite <- HXb, <- HBXb, <- HBb in Hpf.
  destruct Hpf as (Hperm & Hlen2 & Hcell2 & Hcount).
  split; [by apply dims_placeOthers|].
  split; [unfold st2; by rewrite placeOthers_eq by lia|].
  split.
  { intros p Hp Hne. apply (placedRow_other st_b st2 p rIdx _ Hfa2).
    intros Heq. apply Hne. by apply order_inj. }
  rewrite Hrow2. split; [exact Hperm|]. split; [by rewrite Hcell2, Hrow|].
  intros c' Hc'. specialize (Hcount c' Hc').
  unfold st2. rewrite placeOthers_eq by lia.
  cbn [XCapacity BXCapacity BCount]. exact Hcount.
Qed.

Lemma sumFrom_step (f : string → bool) st c pos :
  (pos < 16)%nat →
  sumFrom T f st c pos = tick f (placedRow T st pos !!! c) + sumFrom T f st c (S pos).
Proof.
  intros Hpos. unfold sumFrom. replace (16 - pos)%nat with (S (16 - S pos)) by lia.
  reflexivity.
Qed.

Section Step.
Variable left' : nat.
Hypothesis Hleft : (S left' ≤ 16)%nat.
Let pos := (16 - S left')%nat.
Hypothesis IH : callSpec T (S pos) (assignRow enc T left').

Lemma pos_lt : (pos < 16)%nat.
Proof. unfold pos. lia. Qed.

Lemma permLoop_sound st0 colX perms :
  (colX < 4)%nat → dims st0 → Forall (λ p3, p3 ∈ perms123) perms →
  ∀ (st_b : State K) b st',
    permInv T pos colX st0 st_b →
    permLoop T (assignRow enc T left') pos (rowOrder T !!! pos) colX perms st_b = (b, st') →
    dims st' ∧ agreeBefore T pos st0 st' ∧
    if b then solvedFrom T pos st0 st' ∧ finalCheck st' = true
    else permInv T pos colX st0 st'.
Proof.
  intros HcolX Hd0 Hperms.
  induction Hperms as [|p3 rest Hp3 _ IHl]; intros st_b b st' Hinv; cbn [permLoop].
  - intros [= <- <-]. destruct Hinv as (Hd & Hn & Ha & Hc & Hx). done.
  - destruct Hinv as (Hdb & Hnb & Hab & Hcb & Hxb).
    destruct (place_step pos st0 st_b colX p3 pos_lt HcolX Hp3 Hd0 Hdb Hcb Hxb)
      as (Hd2 & Hm2 & Hoth & Hperm & Hcell & Hcnt).
    destruct (placeOthers_cols T st_b (rowOrder T !!! pos) colX p3) as (HX2 & HBX2 & HB2).
    set (st2 := placeOthers T st_b (rowOrder T !!! pos) colX p3) in *.
    assert (noTrue st2) as Hn2 by (unfold noTrue; by rewrite Hm2).
    assert (∀ st3 : State K, agreeBefore T (S pos) st2 st3 →
              agreeBefore T pos st0 st3 ∧ placedRow T st3 pos = placedRow T st2 pos)
      as Hagree.
    { intros st3 Ha3. split.
      - intros p Hp. rewrite Ha3 by lia. rewrite Hoth by (pose proof pos_lt; lia).
        by apply Hab.
      - apply Ha3. lia. }
    assert (∀ st3 : State K, dims st3 → noTrue st3 → agreeBefore T (S pos) st2 st3 →
              columnState st3 = columnState st2 →
              permInv T pos colX st0 (restoreBCount st3 (BCount st_b))) as Hrestore.
    { intros st3 Hd3 Hn3 Ha3 Hc3. destruct (Hagree st3 Ha3) as [Ha3' Hrow3].
      unfold columnState in Hc3. injection Hc3 as HX3 HBX3 HB3.
      split; [by apply dims_restoreBCount|]. split; [exact Hn3|].
      split; [exact Ha3'|]. split.
      - rewrite restoreBCount_cols by (by rewrite HB3).
        rewrite HX3, HBX3, HX2, HBX2. exact Hcb.
      - change (placedRow T (restoreBCount st3 (BCount st_b)) pos)
          with (placedRow T st3 pos). by rewrite Hrow3. }
    destruct (pruneValid T st2 pos).
    + destruct (assignRow enc T left' st2) as [ok st3] eqn:Hrec.
      destruct (IH st2 ok st3 Hd2 Hn2 Hrec) as (Hd3 & Ha3 & Hres).
      destruct ok.
      * intros [= <- <-]. destruct Hres as [[Hrows Hsum] Hfinal].
        destruct (Hagree st3 Ha3) as [Ha3' Hrow3].
        split; [exact Hd3|]. split; [exact Ha3'|]. split; [|exact Hfinal]. split.
        -- intros p Hp. destruct (decide (p = pos)) as [->|Hne].
           ++ by rewrite Hrow3.
           ++ apply Hrows. lia.
        -- intros c Hc. destruct (Hsum c Hc) as (H1 & H2 & H3).
           destruct (Hcnt c Hc) as (H4 & H5 & H6).
           rewrite !(sumFrom_step _ st3 c pos pos_lt), Hrow3. lia.
      * intros Hl. destruct Hres as [Hc3 Hn3].
        exact (IHl _ _ _ (Hrestore st3 Hd3 Hn3 Ha3 Hc3) Hl).
    + intros Hl.
      exact (IHl _ _ _ (Hrestore st2 Hd2 Hn2 (λ p _, eq_refl) eq_refl) Hl).
Qed.

Lemma colLoop_sound st0 cols :
  dims st0 → Forall (λ c : nat, (c < 4)%nat) cols →
  ∀ st b st',
    colInv T pos st0 st →
    colLoop T (assignRow enc T left') pos (rowOrder T !!! pos) cols st = (b, st') →
    dims st' ∧ agreeBefore T pos st0 st' ∧
    if b then solvedFrom T pos st0 st' ∧ finalCheck st' = true
    else colInv T pos st0 st'.
Proof.
  intros Hd0 Hcols.
  induction Hcols as [|colX rest HcolX _ IHl]; intros st b st' Hinv; cbn [colLoop].
  - intros [= <- <-]. destruct Hinv as (Hd & Hn & Ha & Hc). done.
  - destruct (XCapacity st !!! colX <=? 0); [by apply IHl|].
    destruct (xIsBX T !!! (rowOrder T !!! pos) && _); [by apply IHl|].
    destruct Hinv as (Hd & Hn & Ha & Hc).
    pose proof (order_lt pos pos_lt) as HrIdx.
    set (rIdx := rowOrder T !!! pos) in *.
    set (st1 := placeX T st rIdx colX).
    assert (finalArrangement st1 =
            <[rIdx := <[colX := (rows T !!! rIdx) !!! 0%nat]> (finalArrangement st !!! rIdx)]>
              (finalArrangement st)) as Hfa1.
    { unfold st1. by rewrite placeX_eq. }
    assert (permInv T pos colX st st1) as Hinv1.
    { split; [by apply dims_placeX|]. split.
      { unfold noTrue, st1. by rewrite placeX_eq. }
      split.
      { intros p Hp. apply (placedRow_other st st1 p rIdx _ Hfa1).
        intros Heq. pose proof pos_lt. assert (p = pos) by (apply order_inj; [lia|lia|done]).
        lia. }
      split; [done|].
      rewrite (placedRow_this st st1 pos _ Hfa1).
      - apply list_lookup_total_insert_eq. by rewrite (dims_row st rIdx Hd HrIdx).
      - fold rIdx. destruct Hd as (_ & _ & _ & -> & _). exact HrIdx. }
    destruct (permLoop T _ pos rIdx colX _ st1) as [found st2] eqn:Hp.
    destruct (permLoop_sound st colX _ HcolX Hd (good_perms T HT rIdx HrIdx)
                st1 found st2 Hinv1 Hp) as (Hd2 & Ha2 & Hres).
    assert (agreeBefore T pos st0 st2) as Ha02.
    { intros p Hlt. rewrite Ha2 by done. by apply Ha. }
    unfold columnState in Hc. injection Hc as HXc HBXc HBc.
    destruct found.
    + intros [= <- <-]. destruct Hres as [[Hrows Hsum] Hfinal].
      split; [exact Hd2|]. split; [exact Ha02|]. split; [|exact Hfinal].
      split; [exact Hrows|]. intros c Hcl. rewrite <- HXc, <- HBXc, <- HBc.
      by apply Hsum.
    + destruct Hres as (_ & Hn2 & _ & Hc2 & _). apply IHl.
      split; [by apply dims_revertX|]. split; [exact Hn2|]. split; [exact Ha02|].
      rewrite (revertX_placeX T st2 st rIdx colX HcolX Hc2).
      unfold columnState. by rewrite HXc, HBXc, HBc.
Qed.
End Step.

(** The contract of [assignRow]: a call that returns [true] has placed the
    rows from its position on, and the counters account for them; a call
    that returns [false] leaves the columns as they were. *)
Lemma assignRow_sound left :
  (left ≤ 16)%nat → callSpec T (16 - left) (assignRow enc T left).
Proof.
  induction left as [|left IH]; intros Hle st b st' Hd Hn; cbn [assignRow].
  - intros [= <- <-]. split; [exact Hd|]. split; [done|].
    destruct (finalCheck st); [|done]. split; [|done]. split.
    + intros p Hp. lia.
    + intros c Hc. unfold sumFrom, sumOver. cbn. lia.
  - destruct (memo st !! _) as [b0|] eqn:Hm.
    + intros [= <- <-]. destruct b0; [by destruct (Hn _ Hm)|].
      split; [exact Hd|]. done.
    + destruct (colLoop T _ _ _ _ st) as [found st1] eqn:Hc. intros [= <- <-].
      assert (callSpec T (S (16 - S left)) (assignRow enc T left)) as IH'.
      { replace (S (16 - S left)) with (16 - left)%nat by lia. apply IH. lia. }
      destruct (colLoop_sound left Hle IH' st (seq 0 4) Hd seq_0_4_lt st found st1
                  (conj Hd (conj Hn (conj (λ p _, eq_refl) eq_refl))) Hc)
        as (Hd1 & Ha1 & Hres).
      split; [exact Hd1|]. split; [exact Ha1|].
      destruct found; [exact Hres|]. destruct Hres as (_ & Hn1 & _ & Hc1).
      split; [exact Hc1|]. intros k. cbn [memo setMemo]. rewrite lookup_insert.
      case_decide; [done|apply Hn1].
Qed.
End Soundness.

(** ** The tables of a well-formed input *)

Lemma rowShape_rowLine line :
  rowLine line →
  ∃ x a b c,
    parseLine line = [x; a; b; c] ∧
    isMarkedWord x = true ∧
    isMarkedWord a = false ∧ isMarkedWord b = false ∧ isMarkedWord c = false ∧
    wordIncludesB <$> [x; a; b; c] = isFlaggedWord <$> [x; a; b; c].
Proof.
  intros [[Hlen HF] Hone].
  pose proof (allRows_check rowShape_check (tokens line) eq_refl Hlen HF) as Hc.
  unfold rowShape_check in Hc. rewrite Hone in Hc. cbn [Nat.eqb implb] in Hc.
  unfold parseLine.
  destruct (JS.sort orderCompare (tokens line)) as [|x [|a [|b [|c [|? ?]]]]];
    try discriminate.
  exists x, a, b, c.
  apply andb_true_iff in Hc as [Hc H5]. apply andb_true_iff in Hc as [Hc H4].
  apply andb_true_iff in Hc as [Hc H3]. apply andb_true_iff in Hc as [H1 H2].
  apply negb_true_iff in H2, H3, H4. apply bool_decide_eq_true in H5. done.
Qed.

Lemma rowPerms_recognized line :
  recognizedLine line →
  Forall (λ p3, p3 ∈ perms123) (makeUniquePerms3 [parseLine line] 0).
Proof.
  intros [Hlen HF].
  pose proof (allRows_check rowPerms_check (tokens line) eq_refl Hlen HF) as Hc.
  unfold rowPerms_check in Hc. rewrite forallb_forall in Hc.
  apply Forall_forall. intros p3 Hp3. apply list_elem_of_In in Hp3.
  by apply Hc, bool_decide_eq_true in Hp3.
Qed.

Lemma makeTables_good (inputLines : list string) :
  wellFormed inputLines → GoodTables (makeTables (parseLine <$> inputLines)).
Proof.
  intros [Hlen Hrows]. split.
  - apply rowOrder_perm.
  - intros i Hi.
    assert (rowLine (inputLines !!! i)) as Hri.
    { apply Forall_lookup_total_1; [done|lia]. }
    destruct (rowShape_rowLine _ Hri) as (x & a & b & c & Hp & Hmx & Hma & Hmb & Hmc & Hfl).
    exists x, a, b, c. rewrite xIsBX_lookup by done.
    unfold makeTables. cbn [rows hasB].
    assert ((parseLine <$> inputLines) !!! i = [x; a; b; c]) as Hrow.
    { by rewrite parsed_lookup by lia. }
    rewrite Hrow. repeat split; try done.
    rewrite list_lookup_total_alt, list_lookup_fmap.
    rewrite list_lookup_total_alt in Hrow.
    destruct ((parseLine <$> inputLines) !! i) as [r|] eqn:Hr; [|done].
    cbn in Hrow |- *. by rewrite Hrow.
  - intros i Hi.
    assert (rowLine (inputLines !!! i)) as Hri.
    { apply Forall_lookup_total_1; [done|lia]. }
    unfold makeTables. cbn [rowNonXPerms].
    rewrite fmap_seq_lookup_total by done.
    pose proof (rowPerms_recognized _ (proj1 Hri)) as Hp.
    unfold makeUniquePerms3 in *. by rewrite parsed_lookup by lia.
Qed.

(** ** From the counters to the columns of the grid *)

Lemma sumOver_perm (g : nat → Z) (l l' : list nat) :
  l ≡ₚ l' → sumOver g l = sumOver g l'.
Proof.
  induction 1 as [|x l l' _ IH|x y l|l l' l'' _ IH1 _ IH2]; cbn [sumOver foldr] in *;
    unfold sumOver in *; lia.
Qed.

Lemma sumOver_fmap (g : nat → Z) (h : nat → nat) (l : list nat) :
  sumOver g (h <$> l) = sumOver (λ p, g (h p)) l.
Proof.
  induction l as [|x l IH]; [done|]. unfold sumOver in *.
  cbn [fmap list_fmap foldr]. fold (list_fmap _ _ h l). by rewrite IH.
Qed.

Lemma sumOver_cons (g : nat → Z) (x : nat) (l : list nat) :
  sumOver g (x :: l) = g x + sumOver g l.
Proof. reflexivity. Qed.

Lemma sumOver_rows (G : list string → Z) (grid : list (list string)) :
  sumOver (λ i, G (grid !!! i)) (seq 0 (length grid)) =
  foldr (λ r acc, G r + acc) 0 grid.
Proof.
  induction grid as [|r grid IH]; [done|].
  cbn [length seq]. rewrite sumOver_cons, <- fmap_S_seq, sumOver_fmap.
  cbn [foldr]. rewrite <- IH. reflexivity.
Qed.

Lemma colCount_foldr (f : string → bool) (grid : list (list string)) (c : nat) :
  Z.of_nat (colCount f grid c) = foldr (λ r acc, tick f (r !!! c) + acc) 0 grid.
Proof.
  unfold colCount, tick. induction grid as [|r grid IH]; [done|].
  cbn [List.filter foldr]. destruct (f (r !!! c)); cbn [length]; lia.
Qed.

Lemma finalCheck_spec {K} `{Countable K} (st : State K) :
  finalCheck st = true →
  ∀ c, (c < 4)%nat →
    XCapacity st !!! c = 0 ∧ 4 <= BCount st !!! c ∧ 0 <= BXCapacity st !!! c.
Proof.
  unfold finalCheck. rewrite forallb_forall. intros Hf c Hc.
  specialize (Hf c). rewrite <- list_elem_of_In, elem_of_seq in Hf.
  specialize (Hf ltac:(lia)).
  apply andb_true_iff in Hf as [Hf H3]. apply andb_true_iff in Hf as [H1 H2].
  apply Z.eqb_eq in H1. apply negb_true_iff, Z.ltb_ge in H2, H3. done.
Qed.

Lemma sumFrom_colCount {K} `{Countable K} (T : Tables) (st : State K)
    (f : string → bool) (c : nat) :
  GoodTables T → dims st →
  sumFrom T f st c 0 = Z.of_nat (colCount f (finalArrangement st) c).
Proof.
  intros HT Hd. unfold sumFrom, placedRow. cbn [Nat.sub].
  rewrite <- (order_length T HT).
  rewrite <- (sumOver_fmap (λ i, tick f ((finalArrangement st !!! i) !!! c))
               (λ p, rowOrder T !!! p)).
  rewrite (fmap_lookup_total_seq (λ i : nat, i)), list_fmap_id.
  rewrite (sumOver_perm _ _ _ (good_order T HT)).
  destruct Hd as (_ & _ & _ & Hfa & _). rewrite <- Hfa at 1.
  rewrite (sumOver_rows (λ r, tick f (r !!! c))). by rewrite colCount_foldr.
Qed.

(** The grid a search returns from the initial state satisfies the
    constraints, whatever the key function. *)
Lemma solveWith_sound {K} `{Countable K}
    (enc : nat → list Z → list Z → list Z → K)
    (inputLines : list string) (grid : list (list string)) :
  wellFormed inputLines → solveWith enc inputLines = inr grid →
  validGrid inputLines grid.
Proof.
  intros Hwf. pose proof (makeTables_good inputLines Hwf) as HT.
  unfold solveWith. cbv zeta.
  destruct (assignRow enc _ 16 initialState) as [ok st] eqn:Hrun.
  destruct (negb (length inputLines =? 16)%nat); [done|].
  destruct (negb (forallb _ _)); [done|].
  destruct (find _ cells); [done|].
  destruct ok; cbn [negb]; [|done]. intros [= <-].
  assert (dims (initialState (K := K))) as Hd0.
  { unfold dims, initialState; cbn. repeat split; try done.
    repeat constructor. }
  assert (noTrue (initialState (K := K))) as Hn0.
  { intros k. unfold initialState; cbn. by rewrite lookup_empty. }
  destruct (assignRow_sound enc _ HT 16 (le_n _) initialState true st Hd0 Hn0 Hrun)
    as (Hd & _ & [Hrows Hsum] & Hfinal).
  destruct Hwf as [Hlen Hlines].
  split; [split|].
  - apply Hd.
  - intros i Hi.
    assert (i ∈ rowOrder (makeTables (parseLine <$> inputLines))) as Hin.
    { rewrite rowOrder_perm. apply elem_of_seq. lia. }
    apply list_elem_of_lookup in Hin as [p Hp].
    assert (p < 16)%nat as Hp16.
    { rewrite <- (order_length _ HT). by eapply lookup_lt_Some. }
    specialize (Hrows p ltac:(lia)). unfold placedRow in Hrows.
    rewrite (list_lookup_total_correct _ _ _ Hp) in Hrows. rewrite Hrows.
    unfold makeTables. cbn [rows]. rewrite parsed_lookup by lia.
    apply parseLine_perm.
  - intros j Hj. destruct (Hsum j Hj) as (H1 & H2 & H3).
    destruct (finalCheck_spec st Hfinal j Hj) as (F1 & F2 & F3).
    rewrite !(sumFrom_colCount _ st) in H1, H2, H3 by done.
    assert (XCapacity (initialState (K := K)) !!! j = 4 ∧
            BXCapacity (initialState (K := K)) !!! j = 1 ∧
            BCount (initialState (K := K)) !!! j = 0) as (I1 & I2 & I3).
    { destruct j as [|[|[|[|?]]]]; try lia; done. }
    lia.
Qed.


Lemma exampleInput_solved : baselineSolver exampleInput = inr exampleGrid.
Proof. vm_compute. reflexivity. Qed.


(** ** The search on the counters agrees with [assignRow] *)

Lemma colsOf_lookup (v : Cols) (c : nat) : (c < 4)%nat → colsOf v !!! c = getC v c.
Proof. intros Hc. destruct c as [|[|[|[|?]]]]; try lia; reflexivity. Qed.

Lemma colsOf_insert (v : Cols) (c : nat) (d : Z) :
  (c < 4)%nat → <[c := colsOf v !!! c + d]> (colsOf v) = colsOf (addC v c d).
Proof. intros Hc. destruct c as [|[|[|[|?]]]]; try lia; reflexivity. Qed.

Lemma colsOf_insert_if (v : Cols) (c : nat) (h : bool) :
  (c < 4)%nat →
  (if h then <[c := colsOf v !!! c + 1]> (colsOf v) else colsOf v) = colsOf (addIf v c h).
Proof. intros Hc. destruct h; [by apply colsOf_insert|done]. Qed.

Lemma countOthers_colsOf (hb : list bool) (B : Cols) (colX : nat) (p3 : list nat) :
  (colX < 4)%nat →
  countOthers hb (colsOf B) colX p3 =
  colsOf (addPattern B colX
            (hb !!! (p3 !!! 0%nat), hb !!! (p3 !!! 1%nat), hb !!! (p3 !!! 2%nat))).
Proof.
  intros Hc. unfold countOthers, addPattern. cbn [foldl seq].
  destruct colX as [|[|[|[|?]]]]; try lia; eval_otherCols;
    cbn [lookup_total list_lookup_total others];
    destruct (hb !!! (p3 !!! 0%nat)), (hb !!! (p3 !!! 1%nat)), (hb !!! (p3 !!! 2%nat));
    reflexivity.
Qed.

Lemma placeOthers_BCount {K} `{Countable K} (T : Tables) (st : State K) rIdx colX p3 :
  BCount (placeOthers T st rIdx colX p3) =
  countOthers (hasB T !!! rIdx) (BCount st) colX p3.
Proof.
  unfold placeOthers, countOthers. generalize (seq 0 3). intros l. revert st.
  induction l as [|i3 l IH]; intros st; cbn [foldl]; [done|].
  rewrite IH. by destruct ((hasB T !!! rIdx) !!! (p3 !!! i3)).
Qed.

Lemma placeOthers_memo {K} `{Countable K} (T : Tables) (st : State K) rIdx colX p3 :
  memo (placeOthers T st rIdx colX p3) = memo st.
Proof.
  unfold placeOthers. generalize (seq 0 3). intros l. revert st.
  induction l as [|i3 l IH]; intros st; cbn [foldl]; [done|].
  rewrite IH. by destruct ((hasB T !!! rIdx) !!! (p3 !!! i3)).
Qed.

Lemma pruneValid_pruneC {K} `{Countable K} (T : Tables) (st : State K) (B : Cols) pos :
  BCount st = colsOf B →
  pruneValid T st pos = pruneC B (16 - (Z.of_nat pos + 1)) (totalBInPuzzle T - 12).
Proof.
  intros HB. unfold pruneValid, pruneC, canStillReach4B, isOverloadedB.
  rewrite HB. cbn [forallb seq colsOf lookup_total list_lookup_total].
  rewrite <- !Z.leb_antisym, andb_true_r, !andb_assoc. reflexivity.
Qed.

Lemma finalCheck_finalC {K} `{Countable K} (st : State K) (X BX B : Cols) pos :
  XCapacity st = colsOf X → BXCapacity st = colsOf BX → BCount st = colsOf B →
  inRange pos X BX B → finalCheck st = finalC X B.
Proof.
  intros HX HBX HB (_ & _ & (H0 & H1 & H2 & H3) & _). unfold finalCheck, finalC.
  rewrite HX, HBX, HB. cbn [forallb seq colsOf lookup_total list_lookup_total].
  assert (∀ z, 0 <= z → negb (z <? 0) = true) as Hnn.
  { intros z Hz. apply negb_true_iff, Z.ltb_ge. lia. }
  rewrite !Hnn by lia. rewrite <- !Z.leb_antisym, !andb_true_r.
  destruct (c0 X =? 0), (c1 X =? 0), (c2 X =? 0), (c3 X =? 0),
    (4 <=? c0 B), (4 <=? c1 B), (4 <=? c2 B), (4 <=? c3 B); reflexivity.
Qed.

(** One row moves each flagged-count by at most one. *)
Lemma inRange_step pos (X BX B : Cols) colX (isBX h0 : bool) pat :
  inRange pos X BX B → (pos < 16)%nat → (colX < 4)%nat →
  (getC X colX <=? 0) = false →
  (isBX && (getC BX colX <=? 0)) = false →
  inRange (S pos) (addC X colX (-1))
    (if isBX then addC BX colX (-1) else BX)
    (addPattern (addIf B colX h0) colX pat).
Proof.
  intros (Hp & HX & HBX & HB) Hpos Hc Hg1 Hg2. apply Z.leb_gt in Hg1.
  destruct pat as [[p0 p1] p2].
  destruct colX as [|[|[|[|?]]]]; try lia; cbn [getC] in *;
    (destruct isBX; cbn [andb] in Hg2; [apply Z.leb_gt in Hg2|]);
    destruct h0, p0, p1, p2; unfold inRange, addPattern, addIf, addC, others;
    cbn [c0 c1 c2 c3]; lia.
Qed.

Lemma columnState_eq {K : Type} `{Countable K} (st : State K) (X BX B : list Z) :
  columnState st = (X, BX, B) → XCapacity st = X ∧ BXCapacity st = BX ∧ BCount st = B.
Proof. unfold columnState. intros Heq. by inversion Heq. Qed.

Section Simulation.
Context {K K' : Type} `{Countable K} `{Countable K'}.
Variable enc : nat → list Z → list Z → list Z → K.
Variable key : nat → Cols → Cols → Cols → K'.
Variable T : Tables.
Hypothesis Hkeys : keysAgree enc key.
Let tot12 := totalBInPuzzle T - 12.

Lemma memoRel_insert (st : State K) (m : gmap K' unit) pos X BX B :
  inRange pos X BX B → memoRel enc key st m →
  memoRel enc key
    (setMemo st (enc pos (colsOf X) (colsOf BX) (colsOf B)) false)
    (<[key pos X BX B := tt]> m).
Proof.
  intros Hr [Hn Hm]. split.
  - intros k. cbn [memo setMemo]. rewrite lookup_insert.
    case_decide; [done|apply Hn].
  - intros pos' X' BX' B' Hr'. cbn [memo setMemo]. rewrite !lookup_insert.
    pose proof (Hkeys pos X BX B pos' X' BX' B' Hr Hr') as Hk.
    specialize (Hm pos' X' BX' B' Hr').
    repeat case_decide; try tauto; split; intros _; by eexists.
Qed.

Section Step.
Variable left' : nat.
Hypothesis Hleft : (S left' ≤ 16)%nat.
Let pos := (16 - S left')%nat.
Variable ds' : list Desc.
Hypothesis IH :
  simCall enc key (S pos) (assignRow enc T left') (searchC key tot12 ds' (S pos)).

Lemma permLoop_sim rIdx colX (X1 BX1 B1 : Cols) perms :
  (colX < 4)%nat →
  (∀ pat, inRange (S pos) X1 BX1 (addPattern B1 colX pat)) →
  ∀ (st : State K) (m : gmap K' unit),
    simRel enc key st X1 BX1 B1 m →
    let hb := hasB T !!! rIdx in
    let r := permLoop T (assignRow enc T left') pos rIdx colX perms st in
    let r' := permLoopC tot12 (searchC key tot12 ds' (S pos) X1 BX1) pos colX
                ((λ p3 : list nat,
                    (hb !!! (p3 !!! 0%nat), hb !!! (p3 !!! 1%nat), hb !!! (p3 !!! 2%nat)))
                 <$> perms) B1 m in
    r.1 = r'.1 ∧ (r.1 = false → simRel enc key r.2 X1 BX1 B1 r'.2).
Proof.
  intros HcolX Hrange. induction perms as [|p3 rest IHl]; intros st m Hsim hb;
    cbn [permLoop permLoopC fmap list_fmap]; [by split|].
  destruct Hsim as (HX & HBX & HB & Hmemo).
  set (pat := (hb !!! (p3 !!! 0%nat), hb !!! (p3 !!! 1%nat), hb !!! (p3 !!! 2%nat))).
  set (st2 := placeOthers T st rIdx colX p3).
  destruct (placeOthers_cols T st rIdx colX p3) as (HX2 & HBX2 & HB2s).
  fold st2 in HX2, HBX2, HB2s.
  assert (BCount st2 = colsOf (addPattern B1 colX pat)) as HB2.
  { unfold st2. rewrite placeOthers_BCount, HB. by apply countOthers_colsOf. }
  assert (memoRel enc key st2 m) as Hmemo2.
  { destruct Hmemo as [Hn Hm]. split.
    - intros k. unfold st2. rewrite placeOthers_memo. apply Hn.
    - intros p X BX B Hr. unfold st2. rewrite placeOthers_memo. by apply Hm. }
  rewrite (pruneValid_pruneC T st2 _ pos HB2). fold tot12.
  assert (∀ (st3 : State K) m3, columnState st3 = columnState st2 →
            memoRel enc key st3 m3 →
            simRel enc key (restoreBCount st3 (BCount st)) X1 BX1 B1 m3) as Hrestore.
  { intros st3 m3 Hc3 Hm3. apply columnState_eq in Hc3 as (HX3 & HBX3 & HB3).
    pose proof (restoreBCount_cols st3 (BCount st) ltac:(by rewrite HB3)) as Hr.
    apply columnState_eq in Hr as (HrX & HrBX & HrB).
    split; [by rewrite HrX, HX3, HX2|]. split; [by rewrite HrBX, HBX3, HBX2|].
    split; [by rewrite HrB|]. exact Hm3. }
  destruct (pruneC _ _ tot12).
  - destruct (IH st2 X1 BX1 (addPattern B1 colX pat) m
                (conj (eq_trans HX2 HX) (conj (eq_trans HBX2 HBX) (conj HB2 Hmemo2)))
                (Hrange pat)) as [Hres Hmem].
    destruct (assignRow enc T left' st2) as [ok st3] eqn:Hrec.
    destruct (searchC key tot12 ds' (S pos) X1 BX1 _ m) as [ok' m3].
    cbn [fst snd] in Hres, Hmem. subst ok'. destruct ok; [by split|].
    apply IHl. apply Hrestore; [|by apply Hmem].
    by apply assignRow_false in Hrec.
  - apply IHl. by apply Hrestore.
Qed.

Lemma colLoop_sim rIdx cols (X BX B : Cols) :
  inRange pos X BX B → Forall (λ c : nat, (c < 4)%nat) cols →
  ∀ (st : State K) (m : gmap K' unit),
    simRel enc key st X BX B m →
    let r := colLoop T (assignRow enc T left') pos rIdx cols st in
    let r' := colLoopC tot12 (searchC key tot12 ds' (S pos)) pos (descOf T rIdx)
                cols X BX B m in
    r.1 = r'.1 ∧ (r.1 = false → simRel enc key r.2 X BX B r'.2).
Proof.
  intros Hr Hcols. induction Hcols as [|colX rest HcolX _ IHl]; intros st m Hsim;
    cbn [colLoop colLoopC]; [by split|].
  destruct Hsim as (HX & HBX & HB & Hmemo).
  assert (XCapacity st !!! colX = getC X colX) as HgX
    by (rewrite HX; by apply colsOf_lookup).
  assert (BXCapacity st !!! colX = getC BX colX) as HgBX
    by (rewrite HBX; by apply colsOf_lookup).
  cbn [descOf dBX dB0 dPats]. rewrite <- HgX, <- HgBX.
  destruct (XCapacity st !!! colX <=? 0) eqn:Hg1; [by apply IHl|].
  destruct (xIsBX T !!! rIdx && (BXCapacity st !!! colX <=? 0)) eqn:Hg2; [by apply IHl|].
  rewrite HgX in Hg1. rewrite HgBX in Hg2.
  assert (pos < 16)%nat as Hpos by (unfold pos; lia).
  set (st1 := placeX T st rIdx colX).
  assert (simRel enc key st1 (addC X colX (-1))
            (if (xIsBX T !!! rIdx : bool) then addC BX colX (-1) else BX)
            (addIf B colX ((hasB T !!! rIdx) !!! 0%nat)) m) as Hsim1.
  { unfold st1. rewrite placeX_eq. unfold simRel.
    cbn [XCapacity BXCapacity BCount memo]. rewrite HX, HBX, HB.
    split; [by rewrite <- colsOf_insert|]. split.
    { destruct (xIsBX T !!! rIdx); [by rewrite <- colsOf_insert|done]. }
    split; [by apply colsOf_insert_if|]. exact Hmemo. }
  pose proof (permLoop_sim rIdx colX _ _ _ (rowNonXPerms T !!! rIdx) HcolX
    (λ pat, inRange_step pos X BX B colX _ _ pat Hr Hpos HcolX Hg1 Hg2)
    st1 m Hsim1) as Hp. cbv zeta in Hp.
  replace (Z.of_nat 1) with 1 in * by done.
  destruct (permLoop T _ pos rIdx colX _ st1) as [found st2] eqn:Hpl.
  destruct (permLoopC tot12 _ pos colX _ _ m) as [found' m2].
  cbn [fst snd] in Hp. destruct Hp as [<- Hsim2]. destruct found; [by split|].
  apply IHl. specialize (Hsim2 eq_refl). destruct Hsim2 as (HX2 & HBX2 & HB2 & Hm2).
  apply permLoop_false in Hpl; [|intros s s'; apply assignRow_false].
  pose proof (revertX_placeX T st2 st rIdx colX HcolX Hpl) as Hrev.
  apply columnState_eq in Hrev as (HrX & HrBX & HrB).
  split; [by rewrite HrX|]. split; [by rewrite HrBX|]. split; [by rewrite HrB|].
  exact Hm2.
Qed.
End Step.

Lemma descsFrom_step pos :
  (pos < 16)%nat →
  descsFrom T pos = descOf T (rowOrder T !!! pos) :: descsFrom T (S pos).
Proof.
  intros Hpos. unfold descsFrom.
  replace (16 - pos)%nat with (S (16 - S pos)) by lia. reflexivity.
Qed.

(** [assignRow] and [searchC] return the same verdict, and after a failure
    their memos hold the same states. *)
Lemma assignRow_searchC left :
  (left ≤ 16)%nat →
  simCall enc key (16 - left) (assignRow enc T left)
    (searchC key tot12 (descsFrom T (16 - left)) (16 - left)).
Proof.
  induction left as [|left IH]; intros Hle st X BX B m Hsim Hr.
  - destruct Hsim as (HX & HBX & HB & Hmemo). cbn [assignRow Nat.sub].
    change (descsFrom T 16) with (@nil Desc). cbn [searchC fst snd].
    split; [by eapply finalCheck_finalC|done].
  - assert (16 - S left < 16)%nat as Hpos by lia.
    rewrite (descsFrom_step _ Hpos). cbn [assignRow searchC].
    destruct Hsim as (HX & HBX & HB & Hmemo). rewrite HX, HBX, HB.
    pose proof (proj2 Hmemo _ _ _ _ Hr) as Hlook.
    destruct (memo st !! _) as [b|] eqn:Hm.
    + destruct (m !! _) as [[]|] eqn:Hm'.
      * cbn [fst snd]. destruct b; [by destruct (proj1 Hmemo _ Hm)|done].
      * destruct (proj1 Hlook ltac:(by eexists)) as [? [=]].
    + destruct (m !! _) as [[]|] eqn:Hm'.
      { destruct (proj2 Hlook ltac:(by eexists)) as [? [=]]. }
      assert (simCall enc key (S (16 - S left)) (assignRow enc T left)
                (searchC key tot12 (descsFrom T (S (16 - S left))) (S (16 - S left))))
        as IH'.
      { replace (S (16 - S left)) with (16 - left)%nat by lia. apply IH. lia. }
      pose proof (colLoop_sim left Hle _ IH' (rowOrder T !!! (16 - S left)%nat) (seq 0 4)
        X BX B Hr seq_0_4_lt st m (conj HX (conj HBX (conj HB Hmemo)))) as Hc.
      cbv zeta in Hc.
      destruct (colLoop T _ _ _ _ st) as [found st1].
      destruct (colLoopC tot12 _ _ _ _ X BX B m) as [found' m1].
      cbn [fst snd] in Hc. destruct Hc as [<- Hsim1]. destruct found; [by split|].
      cbn [fst snd]. split; [done|]. intros _.
      destruct (Hsim1 eq_refl) as (_ & _ & _ & Hm1).
      by apply memoRel_insert.
Qed.
End Simulation.

(** ** The two key functions, on counters in range

    The number [encodeState] prints is computed with 32-bit operators.  On
    counters in range it equals [keyB], which is why two states can share a
    key; the text key of the other solver tells all states apart, as
    [keyA] does. *)

Lemma ToInt32_small z : 0 <= z < 2147483648 → JS.ToInt32 z = z.
Proof.
  intros Hz. unfold JS.ToInt32. change (2 ^ 32) with 4294967296.
  change (2 ^ 31) with 2147483648. rewrite Z.mod_small by lia.
  destruct (Z.leb_spec 2147483648 z); lia.
Qed.

Lemma ToInt32_mod z : JS.ToInt32 z mod 4294967296 = z mod 4294967296.
Proof.
  unfold JS.ToInt32. change (2 ^ 32) with 4294967296.
  change (2 ^ 31) with 2147483648.
  destruct (Z.leb_spec 2147483648 (z mod 4294967296)).
  - rewrite <- (Z.mod_add _ 1) by lia.
    replace (z mod 4294967296 - 4294967296 + 1 * 4294967296) with (z mod 4294967296) by lia.
    apply Z.mod_mod. lia.
  - apply Z.mod_mod. lia.
Qed.

Lemma ToInt32_of_mod z : JS.ToInt32 (z mod 4294967296) = JS.ToInt32 z.
Proof.
  unfold JS.ToInt32. change (2 ^ 32) with 4294967296. by rewrite Z.mod_mod by lia.
Qed.

Lemma ToInt32_inj a b :
  0 <= a < 4294967296 → 0 <= b < 4294967296 → JS.ToInt32 a = JS.ToInt32 b → a = b.
Proof.
  intros Ha Hb Heq. apply (f_equal (λ z, z mod 4294967296)) in Heq.
  rewrite !ToInt32_mod, !Z.mod_small in Heq by lia. done.
Qed.

Lemma lor_mod a b :
  Z.lor a b mod 4294967296 = Z.lor (a mod 4294967296) (b mod 4294967296).
Proof.
  change 4294967296 with (2 ^ 32). rewrite <- !Z.land_ones by lia.
  apply Z.land_lor_distr_l.
Qed.

Lemma bitOr_mod a b :
  JS.bitOr a b = JS.ToInt32 (Z.lor (a mod 4294967296) (b mod 4294967296)).
Proof.
  unfold JS.bitOr. rewrite <- (ToInt32_of_mod (Z.lor _ _)), lor_mod, !ToInt32_mod.
  reflexivity.
Qed.

Lemma lor_add a b k :
  0 <= k → 0 <= a < 2 ^ k → 0 <= b → Z.lor a (b * 2 ^ k) = a + b * 2 ^ k.
Proof.
  intros Hk Ha Hb.
  assert (Z.land a (b * 2 ^ k) = 0) as Hland.
  { apply Z.bits_inj'. intros n Hn. rewrite Z.land_spec, Z.bits_0.
    destruct (Z.lt_ge_cases n k) as [Hlt|Hge].
    - rewrite Z.mul_pow2_bits_low by lia. apply andb_false_r.
    - destruct (Z.eq_dec a 0) as [->|Hne]; [by rewrite Z.bits_0|].
      rewrite (Z.bits_above_log2 a n); [done|lia|].
      apply Z.log2_lt_pow2; [lia|].
      eapply Z.lt_le_trans; [apply Ha|]. apply Z.pow_le_mono_r; lia. }
  rewrite <- Z.lxor_lor by done. symmetry. by apply Z.add_nocarry_lxor.
Qed.

Lemma bitAnd_small v k :
  0 <= k <= 5 → 0 <= v < 2 ^ k → JS.bitAnd v (Z.ones k) = v.
Proof.
  intros Hk Hv. unfold JS.bitAnd.
  assert (2 ^ k <= 2 ^ 5) by (apply Z.pow_le_mono_r; lia).
  change (2 ^ 5) with 32 in *.
  assert (0 <= Z.ones k < 32).
  { rewrite Z.ones_equiv. lia. }
  rewrite (ToInt32_small v), (ToInt32_small (Z.ones k)) by lia.
  rewrite Z.land_ones, Z.mod_small by lia. apply ToInt32_small. lia.
Qed.

Lemma shiftLeft_mul a k :
  0 <= k < 32 → JS.shiftLeft a k = JS.ToInt32 (a * 2 ^ k).
Proof.
  intros Hk. unfold JS.shiftLeft. change (2 ^ 32) with 4294967296.
  rewrite (Z.mod_small k) by lia. change 31 with (Z.ones 5).
  rewrite Z.land_ones by lia. change (2 ^ 5) with 32. rewrite Z.mod_small by lia.
  rewrite Z.shiftl_mul_pow2 by lia.
  rewrite <- (ToInt32_of_mod (_ * _)), <- Z.mul_mod_idemp_l, ToInt32_mod by lia.
  rewrite Z.mul_mod_idemp_l by lia. apply ToInt32_of_mod.
Qed.

Lemma bitOr_small a b :
  0 <= a < 2147483648 → 0 <= b < 2147483648 → JS.bitOr a b = Z.lor a b.
Proof.
  intros Ha Hb. unfold JS.bitOr. rewrite (ToInt32_small a), (ToInt32_small b) by lia.
  apply ToInt32_small. split; [apply Z.lor_nonneg; lia|].
  destruct (Z.eq_dec (Z.lor a b) 0) as [->|Hne]; [lia|].
  apply (Z.log2_lt_pow2 _ 31); [pose proof (Z.lor_nonneg a b); lia|].
  rewrite Z.log2_lor by lia.
  destruct (Z.eq_dec a 0) as [->|Ha0], (Z.eq_dec b 0) as [->|Hb0]; cbn [Z.log2 Z.max]; try lia.
  - rewrite Z.max_r by apply Z.log2_nonneg. apply Z.log2_lt_pow2; lia.
  - rewrite Z.max_l by apply Z.log2_nonneg. apply Z.log2_lt_pow2; lia.
  - apply Z.max_lub_lt; apply Z.log2_lt_pow2; lia.
Qed.

Lemma bitAnd_31 v : 0 <= v < 32 → JS.bitAnd v 31 = v.
Proof. intros Hv. apply (bitAnd_small v 5); [lia|done]. Qed.
Lemma bitAnd_7 v : 0 <= v < 8 → JS.bitAnd v 7 = v.
Proof. intros Hv. apply (bitAnd_small v 3); [lia|done]. Qed.
Lemma bitAnd_1 v : 0 <= v < 2 → JS.bitAnd v 1 = v.
Proof. intros Hv. apply (bitAnd_small v 1); [lia|done]. Qed.

Lemma shiftLeft_small a k :
  0 <= k < 32 → 0 <= a * 2 ^ k < 2147483648 → JS.shiftLeft a k = a * 2 ^ k.
Proof. intros Hk Ha. rewrite shiftLeft_mul by done. by apply ToInt32_small. Qed.

Lemma bitOr_add a b k :
  0 <= k → 0 <= a < 2 ^ k → 0 <= b → a + b * 2 ^ k < 2147483648 →
  JS.bitOr a (b * 2 ^ k) = a + b * 2 ^ k.
Proof.
  intros Hk Ha Hb Hs. assert (0 < 2 ^ k) by (apply Z.pow_pos_nonneg; lia).
  rewrite bitOr_small by nia. by apply lor_add.
Qed.

Lemma shiftLeft_36 a : JS.shiftLeft a 36 = JS.ToInt32 (a * 16).
Proof.
  unfold JS.shiftLeft. change (Z.land (36 mod 2 ^ 32) 31) with 4.
  rewrite Z.shiftl_mul_pow2 by lia. change (2 ^ 4) with 16.
  rewrite <- (ToInt32_of_mod (_ * _)), <- Z.mul_mod_idemp_l, ToInt32_mod by lia.
  rewrite Z.mul_mod_idemp_l by lia. apply ToInt32_of_mod.
Qed.

Lemma packState_keyB pos X BX B :
  inRange pos X BX B →
  packState pos (colsOf X) (colsOf BX) (colsOf B) = JS.ToInt32 (keyB pos X BX B).
Proof.
  intros (Hpos & HX & HBX & HB).
  destruct X as [x0 x1 x2 x3], BX as [b0 b1 b2 b3], B as [n0 n1 n2 n3].
  cbn [c0 c1 c2 c3] in *.
  unfold packState, keyB, packB, packBX, colsOf. cbn [c0 c1 c2 c3 foldl seq].
  repeat match goal with
         | |- context [@lookup_total nat Z (list Z) _ ?i ?l] =>
             let v := eval cbv in (@lookup_total nat Z (list Z) _ i l) in
             change (@lookup_total nat Z (list Z) _ i l) with v
         end.
  change (5 * Z.of_nat 0) with 0. change (5 * Z.of_nat 1) with 5.
  change (5 * Z.of_nat 2) with 10. change (5 * Z.of_nat 3) with 15.
  change (3 * Z.of_nat 0) with 0. change (3 * Z.of_nat 1) with 3.
  change (3 * Z.of_nat 2) with 6. change (3 * Z.of_nat 3) with 9.
  change (Z.of_nat 0) with 0. change (Z.of_nat 1) with 1.
  change (Z.of_nat 2) with 2. change (Z.of_nat 3) with 3.
  rewrite !bitAnd_31, !bitAnd_7, !bitAnd_1 by lia.
  rewrite (shiftLeft_small n0 0), (shiftLeft_small n1 5), (shiftLeft_small n2 10),
    (shiftLeft_small n3 15), (shiftLeft_small b0 0), (shiftLeft_small b1 1),
    (shiftLeft_small b2 2), (shiftLeft_small b3 3), (shiftLeft_small x0 0),
    (shiftLeft_small x1 3), (shiftLeft_small x2 6), (shiftLeft_small x3 9) by lia.
  rewrite (bitOr_add 0 n0 0), (bitOr_add _ n1 5), (bitOr_add _ n2 10),
    (bitOr_add _ n3 15) by lia.
  rewrite (bitOr_add 0 b0 0), (bitOr_add _ b1 1), (bitOr_add _ b2 2),
    (bitOr_add _ b3 3) by lia.
  rewrite (bitOr_add 0 x0 0), (bitOr_add _ x1 3), (bitOr_add _ x2 6),
    (bitOr_add _ x3 9) by lia.
  rewrite (shiftLeft_small _ 20), (bitOr_add _ _ 20) by lia.
  rewrite (shiftLeft_mul _ 24), shiftLeft_36 by lia.
  rewrite (ToInt32_small (Z.of_nat pos * 16)) by lia.
  rewrite (bitOr_mod _ (JS.ToInt32 _)), ToInt32_mod.
  rewrite (bitOr_mod (JS.ToInt32 _)), ToInt32_mod.
  f_equal.
  match goal with |- context [Z.lor (?a mod 4294967296) (?b mod 4294967296)] =>
    rewrite (Z.mod_small a) by lia;
    replace (b mod 4294967296)
      with ((x0 + 8 * (x1 + 8 * (x2 mod 4))) * 2 ^ 24)
      by (apply (Z.mod_unique_pos _ _ (x2 / 4 + 2 * x3));
          Z.to_euclidean_division_equations; lia)
  end.
  rewrite lor_add by (Z.to_euclidean_division_equations; lia).
  rewrite Z.mod_small, (Z.mod_small (Z.of_nat pos * 16))
    by (Z.to_euclidean_division_equations; lia).
  f_equal; lia.
Qed.

Lemma lor_bound a b n :
  0 <= n → 0 <= a < 2 ^ n → 0 <= b < 2 ^ n → 0 <= Z.lor a b < 2 ^ n.
Proof.
  intros Hn Ha Hb. split; [apply Z.lor_nonneg; lia|].
  destruct (Z.eq_dec a 0) as [->|Ha0]; [rewrite Z.lor_0_l; lia|].
  destruct (Z.eq_dec b 0) as [->|Hb0]; [rewrite Z.lor_0_r; lia|].
  assert (0 < Z.lor a b).
  { pose proof (Z.lor_nonneg a b). destruct (Z.eq_dec (Z.lor a b) 0) as [H0|]; [|lia].
    apply Z.lor_eq_0_iff in H0. lia. }
  apply Z.log2_lt_pow2; [done|]. rewrite Z.log2_lor by lia.
  apply Z.max_lub_lt; apply Z.log2_lt_pow2; lia.
Qed.

Lemma keyB_range pos X BX B :
  inRange pos X BX B → 0 <= keyB pos X BX B < 4294967296.
Proof.
  intros (Hpos & HX & HBX & HB). unfold keyB, packB, packBX.
  apply (lor_bound _ _ 32); [lia| |lia].
  Z.to_euclidean_division_equations; lia.
Qed.

Lemma digitVal_digitChar d : 0 <= d < 36 → digitVal (JS.digitChar d) = d.
Proof.
  intros Hd. replace d with (Z.of_nat (Z.to_nat d)) by lia.
  assert (Z.to_nat d < 36)%nat as Hn by lia. revert Hn. generalize (Z.to_nat d).
  intros n Hn. do 36 (destruct n as [|n]; [reflexivity|]). lia.
Qed.

Lemma digitChar_not_minus d : 0 <= d < 36 → JS.digitChar d ≠ "-"%char.
Proof.
  intros Hd Heq. apply (f_equal digitVal) in Heq.
  rewrite digitVal_digitChar in Heq by done. vm_compute in Heq. lia.
Qed.

Lemma string_append_assoc (s1 s2 s3 : string) :
  (s1 +:+ s2) +:+ s3 = s1 +:+ (s2 +:+ s3).
Proof.
  induction s1 as [|c s1 IH]; [done|].
  change (String c ((s1 +:+ s2) +:+ s3) = String c (s1 +:+ (s2 +:+ s3))). by f_equal.
Qed.

Section Digits.
Variable radix : Z.
Hypothesis Hradix : 2 <= radix <= 36.

Lemma digitsGo_acc fuel n acc :
  JS.digitsGo fuel radix n acc = JS.digitsGo fuel radix n "" +:+ acc.
Proof.
  revert n acc. induction fuel as [|fuel IH]; intros n acc; cbn [JS.digitsGo]; [done|].
  destruct (n <? radix); [done|].
  rewrite (IH _ (String _ acc)), (IH _ (String _ "")).
  by rewrite string_append_assoc.
Qed.

Lemma valueOf_app s1 s2 v :
  valueOf radix (s1 +:+ s2) v = valueOf radix s2 (valueOf radix s1 v).
Proof. revert v. induction s1 as [|c s1 IH]; intros v; [done|apply IH]. Qed.

Lemma valueOf_digitsGo fuel n :
  0 <= n < radix ^ Z.of_nat fuel → valueOf radix (JS.digitsGo fuel radix n "") 0 = n.
Proof.
  revert n. induction fuel as [|fuel IH]; intros n Hn.
  - cbn in *. lia.
  - cbn [JS.digitsGo].
    assert (0 <= n mod radix < radix) as Hm by (apply Z.mod_pos_bound; lia).
    destruct (Z.ltb_spec n radix) as [Hlt|Hge].
    + cbn [valueOf]. rewrite digitVal_digitChar by lia. rewrite Z.mod_small; lia.
    + rewrite digitsGo_acc, valueOf_app, IH.
      * cbn [valueOf]. rewrite digitVal_digitChar by lia.
        pose proof (Z.div_mod n radix ltac:(lia)). lia.
      * split; [apply Z.div_pos; lia|].
        apply Z.div_lt_upper_bound; [lia|].
        rewrite Nat2Z.inj_succ, Z.pow_succ_r in Hn by lia. lia.
Qed.

Lemma digitsGo_head fuel n acc :
  0 <= n → ∃ d s, 0 <= d < 36 ∧ JS.digitsGo (S fuel) radix n acc = String (JS.digitChar d) s.
Proof.
  revert n acc. induction fuel as [|fuel IH]; intros n acc Hn.
  - assert (0 <= n mod radix < radix) as Hm by (apply Z.mod_pos_bound; lia).
    exists (n mod radix), acc. split; [lia|]. cbn [JS.digitsGo]. by destruct (n <? radix).
  - assert (0 <= n mod radix < radix) as Hm by (apply Z.mod_pos_bound; lia).
    change (JS.digitsGo (S (S fuel)) radix n acc)
      with (let acc' := String (JS.digitChar (n mod radix)) acc in
            if n <? radix then acc' else JS.digitsGo (S fuel) radix (n / radix) acc').
    cbv zeta. destruct (n <? radix).
    + exists (n mod radix), acc. split; [lia|done].
    + apply IH. apply Z.div_pos; lia.
Qed.

Lemma fuel_enough a : 0 <= a → a < radix ^ Z.of_nat (S (Z.to_nat (Z.log2 a))).
Proof.
  intros Ha. rewrite Nat2Z.inj_succ, Z2Nat.id by apply Z.log2_nonneg.
  destruct (Z.eq_dec a 0) as [->|Hne].
  - cbn. lia.
  - eapply Z.lt_le_trans; [apply (Z.log2_spec a); lia|].
    apply Z.pow_le_mono_l. lia.
Qed.

Lemma toStringRadix_inj n n' :
  JS.toStringRadix radix n = JS.toStringRadix radix n' → n = n'.
Proof.
  unfold JS.toStringRadix. cbv zeta.
  pose proof (valueOf_digitsGo _ _ (conj (Z.abs_nonneg n) (fuel_enough _ (Z.abs_nonneg n)))) as Hv.
  pose proof (valueOf_digitsGo _ _ (conj (Z.abs_nonneg n') (fuel_enough _ (Z.abs_nonneg n')))) as Hv'.
  destruct (digitsGo_head (Z.to_nat (Z.log2 (Z.abs n))) (Z.abs n) "" (Z.abs_nonneg n))
    as (d & s & Hd & Hs).
  destruct (digitsGo_head (Z.to_nat (Z.log2 (Z.abs n'))) (Z.abs n') "" (Z.abs_nonneg n'))
    as (d' & s' & Hd' & Hs').
  revert Hv Hv' Hs Hs'.
  generalize (JS.digitsGo (S (Z.to_nat (Z.log2 (Z.abs n)))) radix (Z.abs n) "").
  generalize (JS.digitsGo (S (Z.to_nat (Z.log2 (Z.abs n')))) radix (Z.abs n') "").
  intros ds' ds Hv Hv' Hs Hs'.
  destruct (Z.ltb_spec n 0), (Z.ltb_spec n' 0); intros Heq.
  - injection Heq as Heq. rewrite Heq in Hv. lia.
  - rewrite Hs' in Heq. injection Heq as Hc _. symmetry in Hc.
    by apply digitChar_not_minus in Hc.
  - rewrite Hs in Heq. injection Heq as Hc _. by apply digitChar_not_minus in Hc.
  - rewrite Heq in Hv. lia.
Qed.
End Digits.

Lemma keysAgree_B : keysAgree encodeState keyB.
Proof.
  intros pos X BX B pos' X' BX' B' Hr Hr'. unfold encodeState.
  rewrite (packState_keyB _ _ _ _ Hr), (packState_keyB _ _ _ _ Hr'). split.
  - intros Heq. apply (toStringRadix_inj 36) in Heq; [|lia].
    apply ToInt32_inj in Heq; [done| |]; by apply keyB_range.
  - by intros ->.
Qed.

Lemma keyA_inj pos X BX B pos' X' BX' B' :
  inRange pos X BX B → inRange pos' X' BX' B' →
  keyA pos X BX B = keyA pos' X' BX' B' →
  pos = pos' ∧ X = X' ∧ BX = BX' ∧ B = B'.
Proof.
  intros (Hpos & HX & HBX & HB) (Hpos' & HX' & HBX' & HB').
  destruct X as [x0 x1 x2 x3], BX as [b0 b1 b2 b3], B as [n0 n1 n2 n3].
  destruct X' as [x0' x1' x2' x3'], BX' as [b0' b1' b2' b3'], B' as [n0' n1' n2' n3'].
  unfold keyA, packB, packBX. cbn [c0 c1 c2 c3] in *. intros Heq.
  assert (n0 = n0') by lia. subst n0'. assert (n1 = n1') by lia. subst n1'.
  assert (n2 = n2') by lia. subst n2'. assert (n3 = n3') by lia. subst n3'.
  assert (b0 = b0') by lia. subst b0'. assert (b1 = b1') by lia. subst b1'.
  assert (b2 = b2') by lia. subst b2'. assert (b3 = b3') by lia. subst b3'.
  assert (x0 = x0') by lia. subst x0'. assert (x1 = x1') by lia. subst x1'.
  assert (x2 = x2') by lia. subst x2'. assert (x3 = x3') by lia. subst x3'.
  assert (pos = pos') by lia. by subst.
Qed.

Lemma decimal_sep_inj (a a' : Z) (c : ascii) (s s' : string) :
  0 <= a <= 16 → 0 <= a' <= 16 → (c = "," ∨ c = "|")%char →
  decimal a +:+ String c s = decimal a' +:+ String c s' → a = a' ∧ s = s'.
Proof.
  intros Ha Ha' Hc.
  assert (∃ n : nat, (n < 17)%nat ∧ a = Z.of_nat n) as (n & Hn & ->)
    by (exists (Z.to_nat a); lia).
  assert (∃ n : nat, (n < 17)%nat ∧ a' = Z.of_nat n) as (n' & Hn' & ->)
    by (exists (Z.to_nat a'); lia).
  clear Ha Ha'.
  do 17 (try destruct n as [|n]); try lia;
    do 17 (try destruct n' as [|n']); try lia;
    destruct Hc as [-> | ->]; vm_compute; intros Heq; by simplify_eq.
Qed.

Lemma encodeStateText_flat pos x0 x1 x2 x3 b0 b1 b2 b3 n0 n1 n2 n3 :
  encodeStateText pos [x0; x1; x2; x3] [b0; b1; b2; b3] [n0; n1; n2; n3] =
  decimal (Z.of_nat pos) +:+ String "|" (decimal x0 +:+ String "," (decimal x1 +:+ String ","
    (decimal x2 +:+ String "," (decimal x3 +:+ String "|" (decimal b0 +:+ String ","
    (decimal b1 +:+ String "," (decimal b2 +:+ String "," (decimal b3 +:+ String "|"
    (decimal n0 +:+ String "," (decimal n1 +:+ String "," (decimal n2 +:+ String "," (decimal n3)))))))))))).
Proof.
  unfold encodeStateText. cbn [fmap list_fmap JS.join].
  rewrite !string_append_assoc. reflexivity.
Qed.

Lemma decimal_inj a a' : decimal a = decimal a' → a = a'.
Proof. apply toStringRadix_inj. lia. Qed.

Lemma keysAgree_A : keysAgree encodeStateText keyA.
Proof.
  intros pos X BX B pos' X' BX' B' Hr Hr'. split.
  - destruct Hr as (Hpos & HX & HBX & HB), Hr' as (Hpos' & HX' & HBX' & HB').
    destruct X as [x0 x1 x2 x3], BX as [b0 b1 b2 b3], B as [n0 n1 n2 n3].
    destruct X' as [x0' x1' x2' x3'], BX' as [b0' b1' b2' b3'], B' as [n0' n1' n2' n3'].
    unfold colsOf. cbn [c0 c1 c2 c3] in *. rewrite !encodeStateText_flat. intros Heq.
    repeat (apply decimal_sep_inj in Heq as [? Heq]; [|lia|lia|by auto]).
    apply decimal_inj in Heq. subst. f_equal. lia.
  - intros Heq. by destruct (keyA_inj _ _ _ _ _ _ _ _ Hr Hr' Heq) as (-> & -> & -> & ->).
Qed.

(** ** Every instance is one of the ascending sequences of codes *)

Lemma checkFrom_sorted (f : list nat → bool) n lo pre l :
  checkFrom f n lo pre = true →
  length l = n → Forall (λ t, (lo ≤ t < 8)%nat) l → StronglySorted le l →
  f (rev pre ++ l)%list = true.
Proof.
  revert lo pre l. induction n as [|n IH]; intros lo pre l Hc Hlen Hr Hs.
  - destruct l; [|done]. by rewrite app_nil_r.
  - destruct l as [|t l]; [done|]. cbn [checkFrom] in Hc.
    rewrite forallb_forall in Hc.
    apply Forall_cons in Hr as [Ht Hr]. apply StronglySorted_inv in Hs as [Hs Hle].
    specialize (Hc t). rewrite <- list_elem_of_In, elem_of_seq in Hc.
    specialize (Hc ltac:(lia)).
    replace (rev pre ++ t :: l)%list with (rev (t :: pre) ++ l)%list
      by (cbn [rev]; by rewrite <- app_assoc).
    apply (IH t); [done|by injection Hlen| |done].
    rewrite Forall_forall in Hr, Hle |- *. intros u Hu.
    specialize (Hr u Hu). specialize (Hle u Hu). lia.
Qed.

(** ** The rows of a well-formed input, by their codes *)

Lemma rowCode_rowLine line :
  rowLine line →
  let r := parseLine line in
  let isBX := String.eqb (r !!! 0%nat) "BX" in
  let t := codeOf isBX (countB r) in
  (t < 8)%nat ∧ flaggedOfCode t = countB r ∧ (t <? 4)%nat = isBX ∧
  bxOfCode t <= Z.of_nat (countWords isFlaggedMarkedWord (tokens line)) ∧
  descOfRow r = descOfCode t.
Proof.
  intros [[Hlen HF] Hone].
  pose proof (allRows_check rowCode_check (tokens line) eq_refl Hlen HF) as Hc.
  unfold rowCode_check in Hc. rewrite Hone in Hc. cbn [Nat.eqb implb] in Hc.
  cbv zeta in Hc |- *. unfold parseLine.
  apply andb_true_iff in Hc as [Hc H5]. apply andb_true_iff in Hc as [Hc H4].
  apply andb_true_iff in Hc as [Hc H3]. apply andb_true_iff in Hc as [H1 H2].
  apply Nat.ltb_lt in H1. apply Z.eqb_eq in H2. apply Bool.eqb_prop in H3.
  apply Z.leb_le in H4. apply bool_decide_eq_true in H5. done.
Qed.

Lemma descOf_makeTables (rows : list (list string)) i :
  (i < 16)%nat → (i < length rows)%nat →
  descOf (makeTables rows) i = descOfRow (rows !!! i).
Proof.
  intros Hi Hlen. unfold descOf, descOfRow, makeTables.
  cbn [hasB xIsBX rowNonXPerms]. rewrite !fmap_seq_lookup_total by done.
  assert (((λ r : list string, wordIncludesB <$> r) <$> rows) !!! i
          = wordIncludesB <$> rows !!! i) as ->.
  { destruct (lookup_lt_is_Some_2 rows i Hlen) as [r Hr].
    by rewrite !list_lookup_total_alt, list_lookup_fmap, Hr. }
  reflexivity.
Qed.

Lemma sumOver_ext_in (g h : nat → Z) (l : list nat) :
  (∀ x, x ∈ l → g x = h x) → sumOver g l = sumOver h l.
Proof.
  unfold sumOver. induction l as [|x l IH]; intros Heq; [done|]. cbn [foldr].
  rewrite (Heq x) by left. rewrite IH; [done|]. intros y Hy. apply Heq. by right.
Qed.

Lemma sumOver_le_in (g h : nat → Z) (l : list nat) :
  (∀ x, x ∈ l → g x <= h x) → sumOver g l <= sumOver h l.
Proof.
  unfold sumOver. induction l as [|x l IH]; intros Hle; [done|]. cbn [foldr].
  pose proof (Hle x ltac:(left)).
  assert (∀ y, y ∈ l → g y <= h y) as Hl by (intros y Hy; apply Hle; by right).
  specialize (IH Hl). lia.
Qed.

Lemma foldl_Zadd_sumOver (g : nat → Z) (l : list nat) :
  foldl Z.add 0 (g <$> l) = sumOver g l.
Proof.
  unfold sumOver. induction l as [|x l IH]; [done|].
  cbn [fmap list_fmap foldl foldr]. fold (list_fmap _ _ g l).
  rewrite foldl_Zadd_acc, IH. lia.
Qed.

Lemma StronglySorted_fmap_in {A B} (R : A → A → Prop) (R' : B → B → Prop)
    (f : A → B) (l : list A) :
  (∀ a b, a ∈ l → b ∈ l → R a b → R' (f a) (f b)) →
  StronglySorted R l → StronglySorted R' (f <$> l).
Proof.
  intros Hf Hs. induction Hs as [|a l Hs IH Ha]; [constructor|].
  rewrite fmap_cons. constructor.
  - apply IH. intros x y Hx Hy. apply Hf; by right.
  - apply Forall_fmap. rewrite Forall_forall in Ha |- *. intros y Hy.
    apply Hf; [by left|by right|by apply Ha].
Qed.

(** Counting the words of a grid by columns and by rows. *)
Lemma colCount_rows (f : string → bool) (grid : list (list string)) :
  Forall (λ r : list string, length r = 4%nat) grid →
  sumOver (λ c, Z.of_nat (colCount f grid c)) (seq 0 4) =
  foldr (λ r acc, Z.of_nat (countWords f r) + acc) 0 grid.
Proof.
  induction 1 as [|r grid Hr _ IH]; [done|].
  cbn [foldr]. rewrite <- IH. clear IH.
  destruct r as [|a [|b [|c [|d [|? ?]]]]]; try discriminate.
  unfold sumOver, colCount, countWords. cbn [seq foldr List.filter].
  change (([a; b; c; d] : list string) !!! 0%nat) with a.
  change (([a; b; c; d] : list string) !!! 1%nat) with b.
  change (([a; b; c; d] : list string) !!! 2%nat) with c.
  change (([a; b; c; d] : list string) !!! 3%nat) with d.
  destruct (f a), (f b), (f c), (f d); cbn [length]; lia.
Qed.

Lemma countWords_perm (f : string → bool) (l l' : list string) :
  l ≡ₚ l' → countWords f l = countWords f l'.
Proof.
  unfold countWords.
  induction 1 as [|x l l' _ IH|x y l|l l' l'' _ IH1 _ IH2]; cbn [List.filter].
  - done.
  - destruct (f x); cbn [length]; lia.
  - destruct (f x), (f y); cbn [length]; lia.
  - lia.
Qed.

Lemma validGrid_count (f : string → bool) (inputLines : list string)
    (grid : list (list string)) :
  length inputLines = 16%nat → Forall recognizedLine inputLines →
  validGrid inputLines grid →
  sumOver (λ c, Z.of_nat (colCount f grid c)) (seq 0 4) =
  sumOver (λ i, Z.of_nat (countWords f (tokens (inputLines !!! i)))) (seq 0 16).
Proof.
  intros Hlen Hlines [[Hg Hperm] _].
  assert (Forall (λ r : list string, length r = 4%nat) grid) as Hrows.
  { apply Forall_lookup. intros i r Hi.
    assert (i < 16)%nat as Hi16 by (rewrite <- Hg; by eapply lookup_lt_Some).
    specialize (Hperm i Hi16). rewrite (list_lookup_total_correct _ _ _ Hi) in Hperm.
    rewrite Hperm.
    assert (recognizedLine (inputLines !!! i)) as [Hl _]; [|done].
    apply Forall_lookup_total_1; [done|lia]. }
  rewrite (colCount_rows f grid Hrows).
  rewrite <- (sumOver_rows (λ r, Z.of_nat (countWords f r))), Hg.
  apply sumOver_ext_in. intros i Hi. apply elem_of_seq in Hi.
  f_equal. apply countWords_perm. apply Hperm. lia.
Qed.

Section Codes.
Variable inputLines : list string.
Hypothesis Hwf : wellFormed inputLines.
Let T := makeTables (parseLine <$> inputLines).

Lemma codeAt_facts i :
  (i < 16)%nat →
  (codeAt T i < 8)%nat ∧
  flaggedOfCode (codeAt T i) = totalB T !!! i ∧
  totalB T !!! i = Z.of_nat (flaggedCount (inputLines !!! i)) ∧
  (codeAt T i <? 4)%nat = xIsBX T !!! i ∧
  bxOfCode (codeAt T i)
    <= Z.of_nat (countWords isFlaggedMarkedWord (tokens (inputLines !!! i))) ∧
  descOf T i = descOfCode (codeAt T i).
Proof.
  intros Hi. destruct Hwf as [Hlen Hrows].
  assert (rowLine (inputLines !!! i)) as Hri.
  { apply Forall_lookup_total_1; [done|lia]. }
  destruct (rowCode_rowLine _ Hri) as (H1 & H2 & H3 & H4 & H5). cbv zeta in *.
  unfold codeAt, T.
  rewrite descOf_makeTables by (rewrite ?length_fmap; lia).
  rewrite xIsBX_lookup, totalB_lookup, parsed_lookup by lia.
  rewrite <- (countB_recognized _ (proj1 Hri)). done.
Qed.

Lemma order_length16 : length (rowOrder T) = 16%nat.
Proof. unfold T. by rewrite rowOrder_perm. Qed.

Lemma order_elem_lt i : i ∈ rowOrder T → (i < 16)%nat.
Proof. unfold T. rewrite rowOrder_perm, elem_of_seq. lia. Qed.

Lemma codesOf_fmap : codesOf T = codeAt T <$> rowOrder T.
Proof.
  unfold codesOf. rewrite <- order_length16.
  apply (fmap_lookup_total_seq (codeAt T)).
Qed.

Lemma codesOf_length : length (codesOf T) = 16%nat.
Proof. unfold codesOf. by rewrite length_fmap, length_seq. Qed.

Lemma codesOf_range : Forall (λ t, (0 ≤ t < 8)%nat) (codesOf T).
Proof.
  rewrite codesOf_fmap. apply Forall_fmap, Forall_forall. intros i Hi.
  apply order_elem_lt in Hi. destruct (codeAt_facts i Hi) as (H1 & _). simpl. lia.
Qed.

Lemma codesOf_sorted : StronglySorted le (codesOf T).
Proof.
  rewrite codesOf_fmap.
  apply (StronglySorted_fmap_in (λ a b, rowCompare (xIsBX T) (totalB T) a b <= 0)).
  - intros i j Hi Hj. apply order_elem_lt in Hi, Hj.
    destruct (codeAt_facts i Hi) as (A1 & A2 & A3 & A4 & _).
    destruct (codeAt_facts j Hj) as (B1 & B2 & B3 & B4 & _).
    revert A1 A2 A4 B1 B2 B4. unfold rowCompare, codeAt, codeOf, flaggedOfCode.
    rewrite A3, B3. generalize (flaggedCount (inputLines !!! i)).
    generalize (flaggedCount (inputLines !!! j)). intros nj ni.
    destruct (xIsBX T !!! i), (xIsBX T !!! j); cbn [andb negb];
      repeat match goal with
             | |- context [(?a <? ?b)%nat] => destruct (Nat.ltb_spec a b)
             end; lia.
  - unfold T. apply sort_sorted; [apply rowCompare_total|apply rowCompare_trans].
Qed.

Lemma descsFrom_codes : descsFrom T 0 = descOfCode <$> codesOf T.
Proof.
  rewrite codesOf_fmap. unfold descsFrom. cbn [Nat.sub].
  rewrite <- order_length16, (fmap_lookup_total_seq (descOf T)).
  rewrite <- list_fmap_compose. apply Forall_fmap_ext, Forall_forall.
  intros i Hi. apply order_elem_lt in Hi.
  by destruct (codeAt_facts i Hi) as (_ & _ & _ & _ & _ & ->).
Qed.

Lemma sumOver_codes (g : nat → Z) :
  sumOver g (codesOf T) = sumOver (λ i, g (codeAt T i)) (seq 0 16).
Proof.
  rewrite codesOf_fmap, sumOver_fmap. apply sumOver_perm. unfold T. apply rowOrder_perm.
Qed.

Lemma flagged_codes : sumOver flaggedOfCode (codesOf T) = totalBInPuzzle T.
Proof.
  rewrite sumOver_codes. unfold T at 2, makeTables. cbn [totalBInPuzzle].
  rewrite foldl_Zadd_sumOver. apply sumOver_ext_in. intros i Hi.
  apply elem_of_seq in Hi. destruct (codeAt_facts i ltac:(lia)) as (_ & -> & _).
  unfold T. by rewrite totalB_lookup by lia.
Qed.

Lemma solvable_codes : solvable inputLines → solvableCodes (codesOf T) = true.
Proof.
  intros [grid Hgrid]. pose proof Hwf as [Hlen Hrows].
  assert (Forall recognizedLine inputLines) as Hrec.
  { eapply Forall_impl; [exact Hrows|]. by intros ? [? ?]. }
  pose proof (validGrid_count isFlaggedWord _ _ Hlen Hrec Hgrid) as HcB.
  pose proof (validGrid_count isFlaggedMarkedWord _ _ Hlen Hrec Hgrid) as HcBX.
  destruct Hgrid as [_ Hcols].
  destruct (Hcols 0%nat ltac:(lia)) as (_ & B0 & X0).
  destruct (Hcols 1%nat ltac:(lia)) as (_ & B1 & X1).
  destruct (Hcols 2%nat ltac:(lia)) as (_ & B2 & X2).
  destruct (Hcols 3%nat ltac:(lia)) as (_ & B3 & X3).
  assert (∀ g : nat → Z, sumOver g (seq 0 4)
            = g 0%nat + (g 1%nat + (g 2%nat + (g 3%nat + 0)))) as Hexp by reflexivity.
  rewrite Hexp in HcB, HcBX.
  unfold solvableCodes. apply andb_true_iff. split.
  - apply Z.leb_le. rewrite sumOver_codes.
    etransitivity; [apply (sumOver_le_in _
      (λ i, Z.of_nat (countWords isFlaggedMarkedWord (tokens (inputLines !!! i)))))|lia].
    intros i Hi. apply elem_of_seq in Hi.
    by destruct (codeAt_facts i ltac:(lia)) as (_ & _ & _ & _ & ? & _).
  - apply Z.leb_le. rewrite sumOver_codes.
    rewrite (sumOver_ext_in _
      (λ i, Z.of_nat (countWords isFlaggedWord (tokens (inputLines !!! i))))); [lia|].
    intros i Hi. apply elem_of_seq in Hi.
    destruct (codeAt_facts i ltac:(lia)) as (_ & -> & -> & _). done.
Qed.
End Codes.

Lemma solveWith_recognized {K} `{Countable K}
    (enc : nat → list Z → list Z → list Z → K) (inputLines : list string) :
  length inputLines = 16%nat → Forall recognizedLine inputLines →
  solveWith enc inputLines =
  let r := assignRow enc (makeTables (parseLine <$> inputLines)) 16 initialState in
  if r.1 then inr (finalArrangement r.2) else inl NoValidSolution.
Proof.
  intros Hlen HF. cbv zeta.
  pose proof (proj1 (solveWith_malformed enc inputLines)) as Hm.
  unfold solveWith, MalformedInput in *. cbv zeta in *.
  destruct (assignRow enc _ 16 initialState) as [ok st].
  destruct (negb (length inputLines =? 16)%nat).
  { destruct Hm; [|done]. by exists ExpectedSixteenLines. }
  destruct (negb (forallb _ _)).
  { destruct Hm; [|done]. by exists ExpectedFourWords. }
  destruct (find _ cells).
  { destruct Hm; [|done]. by eexists. }
  by destruct ok.
Qed.

(** ** Completeness of the search *)

Lemma checkOne_sorted {K'} `{Countable K'} (key : nat → Cols → Cols → Cols → K')
    (codes : list nat) :
  checkFrom (checkOne key) 16 0 [] = true →
  length codes = 16%nat → Forall (λ t, (0 ≤ t < 8)%nat) codes →
  StronglySorted le codes → solvableCodes codes = true →
  (searchC key (sumOver flaggedOfCode codes - 12) (descOfCode <$> codes) 0
     (mkCols 4 4 4 4) (mkCols 1 1 1 1) (mkCols 0 0 0 0) ∅).1 = true.
Proof.
  intros Hall Hlen Hr Hs Hsol.
  pose proof (checkFrom_sorted _ 16 0 [] codes Hall Hlen Hr Hs) as Hc.
  change (rev [] ++ codes)%list with codes in Hc.
  unfold checkOne in Hc. by rewrite Hsol in Hc.
Qed.

Lemma initialState_simRel {K K'} `{Countable K} `{Countable K'}
    (enc : nat → list Z → list Z → list Z → K)
    (key : nat → Cols → Cols → Cols → K') :
  simRel enc key initialState (mkCols 4 4 4 4) (mkCols 1 1 1 1) (mkCols 0 0 0 0) ∅.
Proof.
  split; [done|]. split; [done|]. split; [done|]. split.
  - intros k. unfold initialState. cbn [memo]. by rewrite lookup_empty.
  - intros pos X BX B _. unfold initialState. cbn [memo]. rewrite !lookup_empty.
    split; intros [? [=]].
Qed.

Lemma search_succeeds {K K'} `{Countable K} `{Countable K'}
    (enc : nat → list Z → list Z → list Z → K)
    (key : nat → Cols → Cols → Cols → K') (inputLines : list string) :
  keysAgree enc key → checkFrom (checkOne key) 16 0 [] = true →
  wellFormed inputLines →
  solvableCodes (codesOf (makeTables (parseLine <$> inputLines))) = true →
  (assignRow enc (makeTables (parseLine <$> inputLines)) 16 initialState).1 = true.
Proof.
  intros Hkeys Hall Hwf Hsol.
  assert (inRange 0 (mkCols 4 4 4 4) (mkCols 1 1 1 1) (mkCols 0 0 0 0)) as Hrange.
  { unfold inRange. cbn. lia. }
  destruct (assignRow_searchC enc key (makeTables (parseLine <$> inputLines)) Hkeys 16
              (le_n _) initialState _ _ _ ∅ (initialState_simRel enc key) Hrange)
    as [Hres _].
  etransitivity; [exact Hres|]. clear Hres.
  replace (16 - 16)%nat with 0%nat by reflexivity.
  rewrite (descsFrom_codes inputLines Hwf), <- (flagged_codes inputLines Hwf).
  apply checkOne_sorted; [exact Hall|apply codesOf_length|by apply codesOf_range
                         |by apply codesOf_sorted|exact Hsol].
Qed.

Lemma search_complete {K K'} `{Countable K} `{Countable K'}
    (enc : nat → list Z → list Z → list Z → K)
    (key : nat → Cols → Cols → Cols → K') (inputLines : list string) :
  keysAgree enc key → checkFrom (checkOne key) 16 0 [] = true →
  wellFormed inputLines → solvable inputLines →
  (assignRow enc (makeTables (parseLine <$> inputLines)) 16 initialState).1 = true.
Proof.
  intros Hkeys Hall Hwf Hsol.
  apply (search_succeeds enc key inputLines Hkeys Hall Hwf).
  by apply solvable_codes.
Qed.

Lemma wellFormed_recognized (inputLines : list string) :
  wellFormed inputLines → length inputLines = 16%nat ∧ Forall recognizedLine inputLines.
Proof.
  intros [Hlen Hrows]. split; [done|].
  eapply Forall_impl; [exact Hrows|]. by intros ? [? ?].
Qed.

Lemma solveWith_complete {K K'} `{Countable K} `{Countable K'}
    (enc : nat → list Z → list Z → list Z → K)
    (key : nat → Cols → Cols → Cols → K') (inputLines : list string) :
  keysAgree enc key → checkFrom (checkOne key) 16 0 [] = true →
  wellFormed inputLines → solvable inputLines →
  ∃ grid, solveWith enc inputLines = inr grid ∧ validGrid inputLines grid.
Proof.
  intros Hkeys Hall Hwf Hsol.
  destruct (wellFormed_recognized _ Hwf) as [Hlen Hrec].
  pose proof (solveWith_recognized enc inputLines Hlen Hrec) as Hs. cbv zeta in Hs.
  rewrite (search_complete enc key inputLines Hkeys Hall Hwf Hsol) in Hs.
  eexists. split; [exact Hs|]. by eapply solveWith_sound.
Qed.

Lemma solveWith_verdict {K} `{Countable K}
    (enc : nat → list Z → list Z → list Z → K) (inputLines : list string) :
  wellFormed inputLines →
  solveWith enc inputLines = inl NoValidSolution ∨
  ∃ grid, solveWith enc inputLines = inr grid ∧ validGrid inputLines grid.
Proof.
  intros Hwf. destruct (wellFormed_recognized _ Hwf) as [Hlen Hrec].
  pose proof (solveWith_recognized enc inputLines Hlen Hrec) as Hs. cbv zeta in Hs.
  destruct (assignRow enc _ 16 initialState).1.
  - right. eexists. split; [exact Hs|]. by eapply solveWith_sound.
  - by left.
Qed.

(** The search on the counters succeeds on every ascending sequence of 16
    codes with at most four BX rows and at least sixteen flagged words,
    with either key. *)
Lemma checkAll_keyA : checkFrom (checkOne keyA) 16 0 [] = true.
Proof. vm_cast_no_check (eq_refl true). Qed.

Lemma checkAll_keyB : checkFrom (checkOne keyB) 16 0 [] = true.
Proof. vm_cast_no_check (eq_refl true). Qed.



(** C4, with the condition the code needs.  On a well-formed instance with
    one marked word in every row: if no grid satisfies the constraints,
    [baselineSolver] ends with [NoValidSolution]; if some grid does, it
    returns a grid, which satisfies them. *)
Theorem no_solution_iff_unsolvable (inputLines : list string) :
  wellFormed inputLines →
  (¬ solvable inputLines → baselineSolver inputLines = inl NoValidSolution) ∧
  (solvable inputLines →
   ∃ grid, baselineSolver inputLines = inr grid ∧ validGrid inputLines grid).
Proof.
  intros Hwf. unfold baselineSolver. split.
  - intros Hn. destruct (solveWith_verdict encodeState inputLines Hwf)
      as [Hv|(g & Hg & Hv)]; [done|]. destruct Hn. by exists g.
  - exact (solveWith_complete encodeState keyB inputLines keysAgree_B checkAll_keyB Hwf).
Qed.

Lemma no_solution_iff_unsolvable_witness :
  (¬ solvable exampleInput → baselineSolver exampleInput = inl NoValidSolution) ∧
  (solvable exampleInput →
   ∃ grid, baselineSolver exampleInput = inr grid ∧ validGrid exampleInput grid).
Proof. apply (no_solution_iff_unsolvable exampleInput). by_evaluation. Defined.

(** C4 as stated fails on sixteen lines of four labels when a row has no
    marked word: [fifteenMarkedInput] has fifteen marked words, so no grid
    can hold four in every column, and [baselineSolver] returns a grid. *)
Lemma unmarked_row_grid_without_solution :
  length fifteenMarkedInput = 16%nat ∧
  Forall recognizedLine fifteenMarkedInput ∧
  ¬ solvable fifteenMarkedInput ∧
  ∃ grid, baselineSolver fifteenMarkedInput = inr grid.
Proof.
  assert (length fifteenMarkedInput = 16%nat) as Hlen by reflexivity.
  assert (Forall recognizedLine fifteenMarkedInput) as Hrec by by_evaluation.
  split; [done|]. split; [done|]. split.
  - intros [grid Hgrid].
    pose proof (validGrid_count isMarkedWord _ _ Hlen Hrec Hgrid) as Hc.
    assert (sumOver (λ i, Z.of_nat (countWords isMarkedWord
              (tokens (fifteenMarkedInput !!! i)))) (seq 0 16) = 15) as H15
      by (vm_compute; reflexivity).
    rewrite H15 in Hc. destruct Hgrid as [_ Hcols].
    destruct (Hcols 0%nat ltac:(lia)) as (X0 & _).
    destruct (Hcols 1%nat ltac:(lia)) as (X1 & _).
    destruct (Hcols 2%nat ltac:(lia)) as (X2 & _).
    destruct (Hcols 3%nat ltac:(lia)) as (X3 & _).
    assert (∀ g : nat → Z, sumOver g (seq 0 4)
              = g 0%nat + (g 1%nat + (g 2%nat + (g 3%nat + 0)))) as Hexp by reflexivity.
    rewrite Hexp in Hc. lia.
  - eexists. vm_compute. reflexivity.
Qed.

(** ** Which instances the solvers solve *)

Lemma sumOver_lookup {A} `{!Inhabited A} (G : A → Z) (l : list A) :
  sumOver (λ i, G (l !!! i)) (seq 0 (length l)) = foldr (λ r acc, G r + acc) 0 l.
Proof.
  induction l as [|r l IH]; [done|].
  cbn [length seq]. rewrite sumOver_cons, <- fmap_S_seq, sumOver_fmap.
  cbn [foldr]. rewrite <- IH. reflexivity.
Qed.

Lemma wordsInPuzzle_sum (f : string → bool) (inputLines : list string) :
  length inputLines = 16%nat →
  Z.of_nat (wordsInPuzzle f inputLines) =
  sumOver (λ i, Z.of_nat (countWords f (tokens (inputLines !!! i)))) (seq 0 16).
Proof.
  intros Hlen. rewrite <- Hlen, (sumOver_lookup (λ line, Z.of_nat (countWords f (tokens line)))).
  unfold wordsInPuzzle, countWords. clear Hlen.
  induction inputLines as [|line rest IH]; [done|].
  rewrite fmap_cons, concat_cons, List.filter_app, length_app. cbn [foldr].
  rewrite <- IH. lia.
Qed.

Lemma rowBX_rowLine line :
  rowLine line →
  bxOfCode (codeOf (String.eqb (parseLine line !!! 0%nat) "BX") (countB (parseLine line)))
  = Z.of_nat (countWords isFlaggedMarkedWord (tokens line)).
Proof.
  intros [[Hlen HF] Hone].
  pose proof (allRows_check rowBX_check (tokens line) eq_refl Hlen HF) as Hc.
  unfold rowBX_check in Hc. rewrite Hone in Hc. cbn [Nat.eqb implb] in Hc.
  cbv zeta in Hc. by apply Z.eqb_eq in Hc.
Qed.

Lemma codes_of_counts (inputLines : list string) :
  wellFormed inputLines →
  (wordsInPuzzle isFlaggedMarkedWord inputLines ≤ 4)%nat →
  (16 ≤ wordsInPuzzle isFlaggedWord inputLines)%nat →
  solvableCodes (codesOf (makeTables (parseLine <$> inputLines))) = true.
Proof.
  intros Hwf HBX HB. pose proof Hwf as [Hlen Hrows].
  apply Nat2Z.inj_le in HBX, HB. rewrite wordsInPuzzle_sum in HBX, HB by done.
  unfold solvableCodes. rewrite !(sumOver_codes inputLines).
  apply andb_true_iff. split; apply Z.leb_le.
  - rewrite (sumOver_ext_in _
      (λ i, Z.of_nat (countWords isFlaggedMarkedWord (tokens (inputLines !!! i))))); [done|].
    intros i Hi. apply elem_of_seq in Hi. unfold codeAt.
    rewrite xIsBX_lookup, totalB_lookup, parsed_lookup by lia.
    apply rowBX_rowLine. apply Forall_lookup_total_1; [done|lia].
  - rewrite (sumOver_ext_in _
      (λ i, Z.of_nat (countWords isFlaggedWord (tokens (inputLines !!! i))))); [done|].
    intros i Hi. apply elem_of_seq in Hi.
    destruct (codeAt_facts inputLines Hwf i ltac:(lia)) as (_ & -> & -> & _). done.
Qed.

Lemma counts_of_grid (inputLines : list string) (grid : list (list string)) :
  wellFormed inputLines → validGrid inputLines grid →
  (wordsInPuzzle isFlaggedMarkedWord inputLines ≤ 4)%nat ∧
  (16 ≤ wordsInPuzzle isFlaggedWord inputLines)%nat.
Proof.
  intros Hwf Hgrid. destruct (wellFormed_recognized _ Hwf) as [Hlen Hrec].
  pose proof (validGrid_count isFlaggedWord _ _ Hlen Hrec Hgrid) as HcB.
  pose proof (validGrid_count isFlaggedMarkedWord _ _ Hlen Hrec Hgrid) as HcBX.
  rewrite <- wordsInPuzzle_sum in HcB, HcBX by done.
  destruct Hgrid as [_ Hcols].
  destruct (Hcols 0%nat ltac:(lia)) as (_ & B0 & X0).
  destruct (Hcols 1%nat ltac:(lia)) as (_ & B1 & X1).
  destruct (Hcols 2%nat ltac:(lia)) as (_ & B2 & X2).
  destruct (Hcols 3%nat ltac:(lia)) as (_ & B3 & X3).
  assert (∀ g : nat → Z, sumOver g (seq 0 4)
            = g 0%nat + (g 1%nat + (g 2%nat + (g 3%nat + 0)))) as Hexp by reflexivity.
  rewrite Hexp in HcB, HcBX. lia.
Qed.

Lemma solveWith_succeeds_iff {K K'} `{Countable K} `{Countable K'}
    (enc : nat → list Z → list Z → list Z → K)
    (key : nat → Cols → Cols → Cols → K') (inputLines : list string) :
  keysAgree enc key → checkFrom (checkOne key) 16 0 [] = true →
  wellFormed inputLines →
  (∃ grid, solveWith enc inputLines = inr grid) ↔
  (wordsInPuzzle isFlaggedMarkedWord inputLines ≤ 4)%nat ∧
  (16 ≤ wordsInPuzzle isFlaggedWord inputLines)%nat.
Proof.
  intros Hkeys Hall Hwf. split.
  - intros [grid Hgrid]. apply (counts_of_grid inputLines grid Hwf).
    by eapply solveWith_sound.
  - intros [HBX HB]. destruct (wellFormed_recognized _ Hwf) as [Hlen Hrec].
    pose proof (solveWith_recognized enc inputLines Hlen Hrec) as Hs. cbv zeta in Hs.
    rewrite (search_succeeds enc key inputLines Hkeys Hall Hwf
               (codes_of_counts inputLines Hwf HBX HB)) in Hs.
    eexists. exact Hs.
Qed.

(** X1. On a well-formed instance [baselineSolver] returns a grid exactly
    when the puzzle has at most four BX words and at least sixteen flagged
    words (B or BX). *)
Theorem solver_succeeds_iff (inputLines : list string) :
  wellFormed inputLines →
  (∃ grid, baselineSolver inputLines = inr grid) ↔
  (wordsInPuzzle isFlaggedMarkedWord inputLines ≤ 4)%nat ∧
  (16 ≤ wordsInPuzzle isFlaggedWord inputLines)%nat.
Proof.
  exact (solveWith_succeeds_iff encodeState keyB inputLines keysAgree_B checkAll_keyB).
Qed.

Lemma solver_succeeds_iff_witness :
  (∃ grid, baselineSolver exampleInput = inr grid) ↔
  (wordsInPuzzle isFlaggedMarkedWord exampleInput ≤ 4)%nat ∧
  (16 ≤ wordsInPuzzle isFlaggedWord exampleInput)%nat.
Proof. apply (solver_succeeds_iff exampleInput). by_evaluation. Defined.

(** X2. The solver with the text key, on a well-formed instance: a grid it
    returns satisfies the constraints; it returns a grid exactly when the
    puzzle has at most four BX words and at least sixteen flagged words; and
    it ends with [NoValidSolution] exactly when no grid satisfies the
    constraints. *)
Theorem text_solver_correct (inputLines : list string) :
  wellFormed inputLines →
  (∀ grid, baselineSolverText inputLines = inr grid → validGrid inputLines grid) ∧
  ((∃ grid, baselineSolverText inputLines = inr grid) ↔
   (wordsInPuzzle isFlaggedMarkedWord inputLines ≤ 4)%nat ∧
   (16 ≤ wordsInPuzzle isFlaggedWord inputLines)%nat) ∧
  (baselineSolverText inputLines = inl NoValidSolution ↔ ¬ solvable inputLines).
Proof.
  intros Hwf. unfold baselineSolverText. split; [|split].
  - intros grid. by apply solveWith_sound.
  - exact (solveWith_succeeds_iff encodeStateText keyA inputLines keysAgree_A
             checkAll_keyA Hwf).
  - split.
    + intros Hno Hsol.
      destruct (solveWith_complete encodeStateText keyA inputLines keysAgree_A
                  checkAll_keyA Hwf Hsol) as (g & Hg & _). congruence.
    + intros Hn. destruct (solveWith_verdict encodeStateText inputLines Hwf)
        as [Hv|(g & Hg & Hv)]; [done|]. destruct Hn. by exists g.
Qed.

Lemma text_solver_correct_witness :
  (∀ grid, baselineSolverText exampleInput = inr grid → validGrid exampleInput grid) ∧
  ((∃ grid, baselineSolverText exampleInput = inr grid) ↔
   (wordsInPuzzle isFlaggedMarkedWord exampleInput ≤ 4)%nat ∧
   (16 ≤ wordsInPuzzle isFlaggedWord exampleInput)%nat) ∧
  (baselineSolverText exampleInput = inl NoValidSolution ↔ ¬ solvable exampleInput).
Proof. apply (text_solver_correct exampleInput). by_evaluation. Defined.

(** ** What the two keys tell apart *)

(** X3. The text key tells all states of the search apart: for positions
    in 0..16, capacities in 0..4 and 0..1 and counts between 0 and the
    position, two states have the same text key only if they are equal. *)
Theorem encodeStateText_injective pos X BX B pos' X' BX' B' :
  inRange pos X BX B → inRange pos' X' BX' B' →
  encodeStateText pos (colsOf X) (colsOf BX) (colsOf B)
    = encodeStateText pos' (colsOf X') (colsOf BX') (colsOf B') →
  pos = pos' ∧ X = X' ∧ BX = BX' ∧ B = B'.
Proof.
  intros Hr Hr' Heq. apply (keysAgree_A _ _ _ _ _ _ _ _ Hr Hr') in Heq.
  by apply keyA_inj.
Qed.

Lemma encodeStateText_injective_witness :
  10%nat = 10%nat ∧ mkCols 0 2 0 4 = mkCols 0 2 0 4 ∧
  mkCols 0 1 1 1 = mkCols 0 1 1 1 ∧ mkCols 1 1 1 1 = mkCols 1 1 1 1.
Proof.
  apply (encodeStateText_injective 10 (mkCols 0 2 0 4) (mkCols 0 1 1 1) (mkCols 1 1 1 1)
           10 (mkCols 0 2 0 4) (mkCols 0 1 1 1) (mkCols 1 1 1 1));
    try (unfold inRange; cbn; lia); reflexivity.
Defined.

(** X4. What the packed key leaves out.  Two states in range at one
    position, with the same [BXCapacity] and [BCount], whose [XCapacity]
    agree in columns 0 and 1 and, modulo 4, in column 2, have the same key:
    [XCapacity[3]] and the high bit of [XCapacity[2]] are shifted out of the
    32 bits. *)
Theorem encodeState_drops_capacity pos X X' BX B :
  inRange pos X BX B → inRange pos X' BX B →
  c0 X = c0 X' → c1 X = c1 X' → c2 X mod 4 = c2 X' mod 4 →
  encodeState pos (colsOf X) (colsOf BX) (colsOf B)
    = encodeState pos (colsOf X') (colsOf BX) (colsOf B).
Proof.
  intros Hr Hr' H0 H1 H2. unfold encodeState.
  rewrite (packState_keyB _ _ _ _ Hr), (packState_keyB _ _ _ _ Hr').
  unfold keyB. by rewrite H0, H1, H2.
Qed.

Lemma encodeState_drops_capacity_witness :
  encodeState 3 [1; 2; 4; 1] [1; 0; 1; 1] [2; 0; 1; 3]
    = encodeState 3 [1; 2; 0; 4] [1; 0; 1; 1] [2; 0; 1; 3].
Proof.
  apply (encodeState_drops_capacity 3 (mkCols 1 2 4 1) (mkCols 1 2 0 4)
           (mkCols 1 0 1 1) (mkCols 2 0 1 3));
    try (unfold inRange; cbn; lia); reflexivity.
Defined.

(** ** The validator *)

Lemma codeUnitCompare_refl a : codeUnitCompare a a = 0.
Proof. induction a as [|c a IH]; [done|]. cbn. by rewrite N.compare_refl. Qed.

Lemma codeUnitCompare_total a b : 0 < codeUnitCompare a b → codeUnitCompare b a <= 0.
Proof.
  revert b. induction a as [|c a IH]; intros [|d b]; cbn; try lia.
  rewrite (N.compare_antisym (N_of_ascii c) (N_of_ascii d)).
  destruct (N.compare (N_of_ascii c) (N_of_ascii d)); cbn; try lia. apply IH.
Qed.

Lemma codeUnitCompare_antisym a b :
  codeUnitCompare a b <= 0 → codeUnitCompare b a <= 0 → a = b.
Proof.
  revert b. induction a as [|c a IH]; intros [|d b]; cbn; try lia; [done|].
  rewrite (N.compare_antisym (N_of_ascii c) (N_of_ascii d)).
  destruct (N.compare_spec (N_of_ascii c) (N_of_ascii d)) as [Heq| |]; cbn; try lia.
  intros H1 H2. f_equal; [|by apply IH].
  by rewrite <- (ascii_N_embedding c), <- (ascii_N_embedding d), Heq.
Qed.

Lemma codeUnitCompare_trans a b c :
  codeUnitCompare a b <= 0 → codeUnitCompare b c <= 0 → codeUnitCompare a c <= 0.
Proof.
  revert b c. induction a as [|x a IH]; intros [|y b] [|z c]; cbn; try lia.
  destruct (N.compare_spec (N_of_ascii x) (N_of_ascii y)) as [Hxy|Hxy|Hxy];
    destruct (N.compare_spec (N_of_ascii y) (N_of_ascii z)) as [Hyz|Hyz|Hyz];
    destruct (N.compare_spec (N_of_ascii x) (N_of_ascii z)) as [Hxz|Hxz|Hxz];
    try lia.
  apply IH.
Qed.

Lemma sortDefault_sorted l :
  StronglySorted (λ a b, codeUnitCompare a b <= 0) (JS.sort codeUnitCompare l).
Proof. apply sort_sorted; [apply codeUnitCompare_total|apply codeUnitCompare_trans]. Qed.

Lemma sortDefault_perm_eq l l' :
  JS.sort codeUnitCompare l = JS.sort codeUnitCompare l' ↔ l ≡ₚ l'.
Proof.
  split.
  - intros Heq. by rewrite <- (sort_perm codeUnitCompare l), Heq, sort_perm.
  - intros Hperm.
    eapply (StronglySorted_unique_strong (λ a b, codeUnitCompare a b <= 0)).
    + intros a b _ _. apply codeUnitCompare_antisym.
    + apply sortDefault_sorted.
    + apply sortDefault_sorted.
    + by rewrite !sort_perm.
Qed.

Lemma rowsAgree_perm (o s : list string) :
  length o = 4%nat → length s = 4%nat → rowsAgree o s = true ↔ s ≡ₚ o.
Proof.
  intros Ho Hs. unfold rowsAgree. cbv zeta.
  rewrite <- (sortDefault_perm_eq s o).
  pose proof (sort_length codeUnitCompare o) as Hlo.
  pose proof (sort_length codeUnitCompare s) as Hls.
  rewrite Ho in Hlo. rewrite Hs in Hls.
  revert Hlo Hls. generalize (JS.sort codeUnitCompare o) (JS.sort codeUnitCompare s).
  intros so ss Hlo Hls.
  destruct so as [|a [|b [|c [|d [|? ?]]]]]; try discriminate.
  destruct ss as [|a' [|b' [|c' [|d' [|? ?]]]]]; try discriminate.
  cbn [seq forallb lookup list_lookup]. rewrite !andb_true_iff, !bool_decide_eq_true.
  split; [intros ([= ->] & [= ->] & [= ->] & [= ->] & _); done|by intros [= -> -> -> ->]].
Qed.

Lemma checkRowsFrom_spec (originalRows solution : list (list string)) (idxs : list nat) :
  Forall (λ i, (i < length originalRows)%nat ∧ (i < length solution)%nat) idxs →
  checkRowsFrom originalRows solution idxs
  = Some (forallb (λ i, rowsAgree (originalRows !!! i) (solution !!! i)) idxs).
Proof.
  induction 1 as [|i idxs [Ho Hs] _ IH]; [done|]. cbn [checkRowsFrom forallb].
  destruct (lookup_lt_is_Some_2 _ _ Ho) as [o Hoi].
  destruct (lookup_lt_is_Some_2 _ _ Hs) as [s Hsi].
  rewrite Hoi, Hsi, (list_lookup_total_correct _ _ _ Hoi),
    (list_lookup_total_correct _ _ _ Hsi).
  destruct (rowsAgree o s); [exact IH|done].
Qed.

(** The counts of one test, column by column. *)
Lemma countCell_fold (ws : nat → option string) (js : list nat) (cx cb cbx : list Z) :
  foldl (λ acc j, countCell acc (ws j) j) (cx, cb, cbx) js =
  (foldl (λ c j, bumpIf isMarkedWord (ws j) c j) cx js,
   foldl (λ c j, bumpIf isFlaggedWord (ws j) c j) cb js,
   foldl (λ c j, bumpIf isFlaggedMarkedWord (ws j) c j) cbx js).
Proof.
  revert cx cb cbx. induction js as [|j js IH]; intros cx cb cbx; [done|].
  cbn [foldl countCell]. apply IH.
Qed.

Lemma countColumns_fold (solution : list (list string)) (idxs : list nat)
    (cx cb cbx : list Z) :
  foldl (λ acc i,
           foldl (λ acc j, countCell acc ((solution !!! i) !! j) j) acc (seq 0 4))
        (cx, cb, cbx) idxs =
  (foldl (λ c i, foldl (λ c j, bumpIf isMarkedWord ((solution !!! i) !! j) c j) c
                       (seq 0 4)) cx idxs,
   foldl (λ c i, foldl (λ c j, bumpIf isFlaggedWord ((solution !!! i) !! j) c j) c
                       (seq 0 4)) cb idxs,
   foldl (λ c i, foldl (λ c j, bumpIf isFlaggedMarkedWord ((solution !!! i) !! j) c j) c
                       (seq 0 4)) cbx idxs).
Proof.
  revert cx cb cbx. induction idxs as [|i idxs IH]; intros cx cb cbx; [done|].
  cbn [foldl]. rewrite (countCell_fold (λ j, (solution !!! i) !! j)). apply IH.
Qed.

Lemma bumpIf_row (f : string → bool) (ws : nat → option string) (a b c d : Z) :
  foldl (λ c j, bumpIf f (ws j) c j) [a; b; c; d] (seq 0 4) =
  [a + tickOpt f (ws 0%nat); b + tickOpt f (ws 1%nat);
   c + tickOpt f (ws 2%nat); d + tickOpt f (ws 3%nat)].
Proof.
  cbn [foldl seq]. unfold bumpIf, tickOpt.
  destruct (from_option f false (ws 0%nat)), (from_option f false (ws 1%nat)),
    (from_option f false (ws 2%nat)), (from_option f false (ws 3%nat));
    cbn [insert list_insert lookup_total list_lookup_total];
    rewrite ?Z.add_0_r; reflexivity.
Qed.

Lemma bumpIf_fold (f : string → bool) (solution : list (list string)) (idxs : list nat)
    (a b c d : Z) :
  foldl (λ c i, foldl (λ c j, bumpIf f ((solution !!! i) !! j) c j) c (seq 0 4))
        [a; b; c; d] idxs =
  [a + sumOver (λ i, tickOpt f ((solution !!! i) !! 0%nat)) idxs;
   b + sumOver (λ i, tickOpt f ((solution !!! i) !! 1%nat)) idxs;
   c + sumOver (λ i, tickOpt f ((solution !!! i) !! 2%nat)) idxs;
   d + sumOver (λ i, tickOpt f ((solution !!! i) !! 3%nat)) idxs].
Proof.
  revert a b c d. induction idxs as [|i idxs IH]; intros a b c d.
  - unfold sumOver. cbn [foldl foldr]. by rewrite !Z.add_0_r.
  - cbn [foldl]. rewrite (bumpIf_row f (λ j, (solution !!! i) !! j)), IH.
    rewrite !sumOver_cons.
    f_equal; [lia|f_equal; [lia|f_equal; [lia|f_equal; lia]]].
Qed.

Lemma tickOpt_colCount (f : string → bool) (grid : list (list string)) (j : nat) :
  length grid = 16%nat → Forall (λ r : list string, length r = 4%nat) grid →
  (j < 4)%nat →
  sumOver (λ i, tickOpt f ((grid !!! i) !! j)) (seq 0 16) = Z.of_nat (colCount f grid j).
Proof.
  intros Hlen Hrows Hj.
  rewrite (sumOver_ext_in _ (λ i, tick f ((grid !!! i) !!! j))).
  - rewrite <- Hlen, (sumOver_rows (λ r, tick f (r !!! j))). by rewrite colCount_foldr.
  - intros i Hi. apply elem_of_seq in Hi.
    assert (length (grid !!! i) = 4%nat) as Hr.
    { apply (Forall_lookup_total_1 _ _ _ Hrows). lia. }
    destruct (lookup_lt_is_Some_2 (grid !!! i) j ltac:(lia)) as [w Hw].
    unfold tickOpt, tick. by rewrite Hw, (list_lookup_total_correct _ _ _ Hw).
Qed.

Lemma countColumns_colCount (grid : list (list string)) :
  length grid = 16%nat → Forall (λ r : list string, length r = 4%nat) grid →
  countColumns grid =
  ((λ j, Z.of_nat (colCount isMarkedWord grid j)) <$> seq 0 4,
   (λ j, Z.of_nat (colCount isFlaggedWord grid j)) <$> seq 0 4,
   (λ j, Z.of_nat (colCount isFlaggedMarkedWord grid j)) <$> seq 0 4).
Proof.
  intros Hlen Hrows. unfold countColumns. rewrite countColumns_fold, !bumpIf_fold.
  rewrite !tickOpt_colCount by (done || lia). reflexivity.
Qed.

Lemma forallb_ext_elem {A} (f g : A → bool) (l : list A) :
  (∀ x, x ∈ l → f x = g x) → forallb f l = forallb g l.
Proof.
  induction l as [|x l IH]; intros Heq; [done|]. cbn [forallb].
  rewrite (Heq x) by left. rewrite IH; [done|]. intros y Hy. apply Heq. by right.
Qed.

Lemma validatePuzzle_shape (input : list string) (grid : list (list string)) :
  length input = 16%nat → length grid = 16%nat →
  Forall (λ r : list string, length r = 4%nat) grid →
  validatePuzzle input grid =
  Some (forallb (λ i, rowsAgree (JS.splitWhiteSpace (input !!! i)) (grid !!! i)) (seq 0 16)
        && forallb (λ j : nat, (Z.of_nat (colCount isMarkedWord grid j) =? 4)
                               && negb (Z.of_nat (colCount isFlaggedWord grid j) <? 4)
                               && negb (1 <? Z.of_nat (colCount isFlaggedMarkedWord grid j)))
                   (seq 0 4)).
Proof.
  intros Hin Hlen Hrows. unfold validatePuzzle. cbv zeta.
  rewrite checkRowsFrom_spec.
  2: { apply Forall_forall. intros i Hi. apply elem_of_seq in Hi.
       rewrite length_fmap. lia. }
  rewrite (countColumns_colCount grid Hlen Hrows).
  assert (forallb (λ i, rowsAgree ((JS.splitWhiteSpace <$> input) !!! i) (grid !!! i))
            (seq 0 16)
          = forallb (λ i, rowsAgree (JS.splitWhiteSpace (input !!! i)) (grid !!! i))
              (seq 0 16)) as ->.
  { apply forallb_ext_elem. intros i Hi. apply elem_of_seq in Hi.
    destruct (lookup_lt_is_Some_2 input i ltac:(lia)) as [line Hl].
    by rewrite !list_lookup_total_alt, list_lookup_fmap, Hl. }
  destruct (forallb _ (seq 0 16)); reflexivity.
Qed.

Lemma validatePuzzle_iff_valid (input : list string) (grid : list (list string)) :
  length input = 16%nat →
  Forall (λ line, length (JS.splitWhiteSpace line) = 4%nat) input →
  length grid = 16%nat → Forall (λ r : list string, length r = 4%nat) grid →
  validatePuzzle input grid = Some true ↔
  (∀ i, (i < 16)%nat → grid !!! i ≡ₚ JS.splitWhiteSpace (input !!! i)) ∧
  columnsValid grid.
Proof.
  intros Hin Hsplit Hlen Hrows. rewrite (validatePuzzle_shape input grid Hin Hlen Hrows).
  split.
  - intros Hb. apply (inj Some) in Hb. apply andb_true_iff in Hb as [Hr Hc].
    rewrite forallb_forall in Hr, Hc. split.
    + intros i Hi. specialize (Hr i). rewrite <- list_elem_of_In, elem_of_seq in Hr.
      specialize (Hr ltac:(lia)). apply rowsAgree_perm in Hr; [done| |].
      * apply (Forall_lookup_total_1 _ _ _ Hsplit). lia.
      * apply (Forall_lookup_total_1 _ _ _ Hrows). lia.
    + intros j Hj. specialize (Hc j). rewrite <- list_elem_of_In, elem_of_seq in Hc.
      specialize (Hc ltac:(lia)).
      apply andb_true_iff in Hc as [Hc H3]. apply andb_true_iff in Hc as [H1 H2].
      apply Z.eqb_eq in H1. apply negb_true_iff, Z.ltb_ge in H2, H3. lia.
  - intros [Hperm Hcols]. f_equal. apply andb_true_iff. split; apply forallb_forall.
    + intros i Hi. rewrite <- list_elem_of_In, elem_of_seq in Hi.
      apply rowsAgree_perm; [| |apply Hperm; lia].
      * apply (Forall_lookup_total_1 _ _ _ Hsplit). lia.
      * apply (Forall_lookup_total_1 _ _ _ Hrows). lia.
    + intros j Hj. rewrite <- list_elem_of_In, elem_of_seq in Hj.
      destruct (Hcols j ltac:(lia)) as (H1 & H2 & H3).
      apply andb_true_iff. split; [apply andb_true_iff; split|].
      * apply Z.eqb_eq. lia.
      * apply negb_true_iff, Z.ltb_ge. lia.
      * apply negb_true_iff, Z.ltb_ge. lia.
Qed.

(** X5. On an input of 16 lines that each split into four words and a
    solution of 16 rows of four words, [validatePuzzle] returns [true]
    exactly when every row of the solution is a permutation of the words of
    its line and every column holds exactly 4 marked words, at least 4
    flagged words and at most one BX. *)
Theorem validatePuzzle_accepts_iff (input : list string) (grid : list (list string)) :
  length input = 16%nat →
  Forall (λ line, length (JS.splitWhiteSpace line) = 4%nat) input →
  length grid = 16%nat → Forall (λ r : list string, length r = 4%nat) grid →
  validatePuzzle input grid = Some true ↔
  (∀ i, (i < 16)%nat → grid !!! i ≡ₚ JS.splitWhiteSpace (input !!! i)) ∧
  columnsValid grid.
Proof. apply validatePuzzle_iff_valid. Qed.

Lemma validGrid_rows (inputLines : list string) (grid : list (list string)) :
  wellFormed inputLines → validGrid inputLines grid →
  length grid = 16%nat ∧ Forall (λ r : list string, length r = 4%nat) grid ∧
  Forall (Forall (λ w, w ∈ LABELS)) grid.
Proof.
  intros [Hlen Hlines] [[Hg Hperm] _]. split; [done|].
  assert (∀ i r, grid !! i = Some r →
            length r = 4%nat ∧ Forall (λ w, w ∈ LABELS) r) as Hrow.
  { intros i r Hi.
    assert (i < 16)%nat as Hi16 by (rewrite <- Hg; by eapply lookup_lt_Some).
    specialize (Hperm i Hi16). rewrite (list_lookup_total_correct _ _ _ Hi) in Hperm.
    assert (rowLine (inputLines !!! i)) as [[Hl HF] _].
    { apply Forall_lookup_total_1; [done|lia]. }
    rewrite Hperm. done. }
  split; apply Forall_lookup; intros i r Hi; by destruct (Hrow i r Hi).
Qed.

Lemma solveWith_validates {K} `{Countable K}
    (enc : nat → list Z → list Z → list Z → K)
    (inputLines : list string) (grid : list (list string)) :
  wellFormed inputLines → Forall (λ line, JS.trim line = line) inputLines →
  solveWith enc inputLines = inr grid → validatePuzzle inputLines grid = Some true.
Proof.
  intros Hwf Htrim Hs. pose proof (solveWith_sound enc _ _ Hwf Hs) as Hv.
  destruct (validGrid_rows _ _ Hwf Hv) as (Hg & Hrows & _).
  pose proof Hwf as [Hlen Hlines].
  assert (∀ i, (i < 16)%nat →
            JS.splitWhiteSpace (inputLines !!! i) = tokens (inputLines !!! i)) as Htok.
  { intros i Hi. unfold tokens.
    by rewrite (Forall_lookup_total_1 _ _ _ Htrim) by lia. }
  apply validatePuzzle_iff_valid; [done| |done|done|].
  - apply Forall_lookup. intros i line Hi.
    assert (i < 16)%nat as Hi16 by (rewrite <- Hlen; by eapply lookup_lt_Some).
    assert (rowLine line) as [[Hl _] _] by (by eapply Forall_lookup_1).
    unfold tokens in Hl. by rewrite (Forall_lookup_1 _ _ _ _ Htrim Hi) in Hl.
  - destruct Hv as [[_ Hperm] Hcols]. split; [|done].
    intros i Hi. rewrite Htok by done. by apply Hperm.
Qed.

(** X6. The solvers and the validator agree: on a well-formed instance
    whose lines have no white space at either end, a grid returned by
    [baselineSolver], with either key, is accepted by [validatePuzzle]. *)
Theorem solver_output_validates (inputLines : list string) (grid : list (list string)) :
  wellFormed inputLines → Forall (λ line, JS.trim line = line) inputLines →
  baselineSolver inputLines = inr grid ∨ baselineSolverText inputLines = inr grid →
  validatePuzzle inputLines grid = Some true.
Proof.
  intros Hwf Htrim [Hs|Hs]; by eapply solveWith_validates.
Qed.

Lemma solver_output_validates_witness : validatePuzzle exampleInput exampleGrid = Some true.
Proof.
  apply (solver_output_validates exampleInput exampleGrid).
  - by_evaluation.
  - by_evaluation.
  - left. vm_compute. reflexivity.
Defined.

Lemma sortDefault_head_empty (l : list string) :
  "" ∈ l → JS.sort codeUnitCompare l !! 0%nat = Some "".
Proof.
  intros Hin. rewrite <- (sort_elem_of codeUnitCompare) in Hin.
  pose proof (sortDefault_sorted l) as Hs.
  destruct (JS.sort codeUnitCompare l) as [|h t]; [by apply elem_of_nil in Hin|].
  apply StronglySorted_inv in Hs as [_ Hh]. cbn. f_equal.
  apply elem_of_cons in Hin as [<-|Hin]; [done|].
  rewrite Forall_forall in Hh. specialize (Hh _ Hin). by destruct h.
Qed.

Lemma rowsAgree_empty_word (o s : list string) :
  "" ∈ o → "" ∉ s → rowsAgree o s = false.
Proof.
  intros Ho Hs. unfold rowsAgree. cbv zeta. cbn [seq forallb].
  rewrite (sortDefault_head_empty o Ho).
  apply andb_false_iff. left. apply bool_decide_eq_false. intros Heq. apply Hs.
  symmetry in Heq. apply list_elem_of_lookup_2 in Heq.
  by rewrite sort_elem_of in Heq.
Qed.

Lemma split_leading_space (c : ascii) (rest : string) :
  JS.isWhiteSpace c = true → "" ∈ JS.splitWhiteSpace (String c rest).
Proof.
  intros Hc. unfold JS.splitWhiteSpace. cbn [JS.splitGo]. rewrite Hc. by left.
Qed.

Lemma forallb_false_elem {A} (f : A → bool) (l : list A) (x : A) :
  x ∈ l → f x = false → forallb f l = false.
Proof.
  intros Hx Hf. apply not_true_iff_false. rewrite forallb_forall. intros Hall.
  rewrite Hall in Hf; [done|]. by apply list_elem_of_In.
Qed.

Lemma solveWith_rejected {K} `{Countable K}
    (enc : nat → list Z → list Z → list Z → K)
    (inputLines : list string) (grid : list (list string))
    (i : nat) (c : ascii) (rest : string) :
  wellFormed inputLines →
  inputLines !! i = Some (String c rest) → JS.isWhiteSpace c = true →
  solveWith enc inputLines = inr grid → validatePuzzle inputLines grid = Some false.
Proof.
  intros Hwf Hi Hc Hs. pose proof (solveWith_sound enc _ _ Hwf Hs) as Hv.
  destruct (validGrid_rows _ _ Hwf Hv) as (Hg & Hrows & Hlabels).
  pose proof Hwf as [Hlen _].
  assert (i < 16)%nat as Hi16 by (rewrite <- Hlen; by eapply lookup_lt_Some).
  rewrite (validatePuzzle_shape inputLines grid Hlen Hg Hrows).
  rewrite (forallb_false_elem _ _ i); [done|apply elem_of_seq; lia|].
  rewrite (list_lookup_total_correct _ _ _ Hi).
  apply rowsAgree_empty_word; [by apply split_leading_space|].
  intros Hin.
  assert (Forall (λ w, w ∈ LABELS) (grid !!! i)) as HL.
  { apply (Forall_lookup_total_1 _ _ _ Hlabels). lia. }
  rewrite Forall_forall in HL. specialize (HL _ Hin).
  by repeat (apply elem_of_cons in HL as [HL|HL]; [discriminate|]); apply elem_of_nil in HL.
Qed.

Lemma revString_app (acc s : string) : JS.revString acc s = JS.revString "" s +:+ acc.
Proof.
  revert acc. induction s as [|c s IH]; intros acc; [reflexivity|]. cbn [JS.revString].
  rewrite (IH (String c acc)), (IH (String c "")). by rewrite string_append_assoc.
Qed.

Lemma revString_snoc (acc s : string) (c : ascii) :
  JS.revString acc (s +:+ String c "") = String c (JS.revString acc s).
Proof.
  revert acc. induction s as [|d s IH]; intros acc; [reflexivity|].
  change (JS.revString (String d acc) (s +:+ String c "")
          = String c (JS.revString (String d acc) s)). apply IH.
Qed.

Lemma revString_involutive (s : string) : JS.revString "" (JS.revString "" s) = s.
Proof.
  induction s as [|c s IH]; [done|]. cbn [JS.revString].
  by rewrite (revString_app (String c "") s), revString_snoc, IH.
Qed.

Lemma splitGo_trailing_space (cur : string) (inSep : bool) (s : string) (c : ascii) :
  JS.isWhiteSpace c = true → "" ∈ JS.splitGo cur inSep (s +:+ String c "").
Proof.
  intros Hc. revert cur inSep. induction s as [|d s IH]; intros cur inSep.
  - change ("" +:+ String c "") with (String c ""). cbn [JS.splitGo]. rewrite Hc.
    destruct inSep; [by left|right; by left].
  - change (String d s +:+ String c "") with (String d (s +:+ String c "")).
    cbn [JS.splitGo]. destruct (JS.isWhiteSpace d); [|apply IH].
    destruct inSep; [apply IH|right; apply IH].
Qed.

(** A line with white space at either end splits into pieces one of which
    is empty. *)
Lemma split_untrimmed (line : string) :
  JS.trim line ≠ line → "" ∈ JS.splitWhiteSpace line.
Proof.
  intros Hne. destruct line as [|c r]; [done|].
  destruct (JS.isWhiteSpace c) eqn:Hc; [by apply split_leading_space|].
  unfold JS.trim in Hne. cbn [JS.trimStart] in Hne. rewrite Hc in Hne.
  destruct (JS.revString "" (String c r)) as [|d r'] eqn:Hrev.
  { apply (f_equal (JS.revString "")) in Hrev. rewrite revString_involutive in Hrev.
    discriminate. }
  cbn [JS.trimStart] in Hne. destruct (JS.isWhiteSpace d) eqn:Hd.
  - apply (f_equal (JS.revString "")) in Hrev. rewrite revString_involutive in Hrev.
    rewrite Hrev. cbn [JS.revString]. rewrite (revString_app (String d "") r').
    by apply splitGo_trailing_space.
  - rewrite <- Hrev, revString_involutive in Hne. done.
Qed.

Lemma solveWith_rejects_untrimmed {K} `{Countable K}
    (enc : nat → list Z → list Z → list Z → K)
    (inputLines : list string) (grid : list (list string)) :
  wellFormed inputLines → ¬ Forall (λ line, JS.trim line = line) inputLines →
  solveWith enc inputLines = inr grid → validatePuzzle inputLines grid = Some false.
Proof.
  intros Hwf Hn Hs. pose proof (solveWith_sound enc _ _ Hwf Hs) as Hv.
  destruct (validGrid_rows _ _ Hwf Hv) as (Hg & Hrows & Hlabels).
  pose proof Hwf as [Hlen _].
  apply not_Forall_Exists_dec in Hn; [|apply _].
  apply Exists_exists in Hn as (line & Hin & Hne).
  apply list_elem_of_lookup in Hin as [i Hi].
  assert (i < 16)%nat as Hi16 by (rewrite <- Hlen; by eapply lookup_lt_Some).
  rewrite (validatePuzzle_shape inputLines grid Hlen Hg Hrows).
  rewrite (forallb_false_elem _ _ i); [done|apply elem_of_seq; lia|].
  rewrite (list_lookup_total_correct _ _ _ Hi).
  apply rowsAgree_empty_word; [by apply split_untrimmed|].
  intros Hin.
  assert (Forall (λ w, w ∈ LABELS) (grid !!! i)) as HL.
  { apply (Forall_lookup_total_1 _ _ _ Hlabels). lia. }
  rewrite Forall_forall in HL. specialize (HL _ Hin).
  by repeat (apply elem_of_cons in HL as [HL|HL]; [discriminate|]); apply elem_of_nil in HL.
Qed.

(** X7. The solver trims its lines and the validator does not: on a
    well-formed instance one line of which has white space at either end,
    [validatePuzzle] returns [false] on the grid [baselineSolver] returns,
    with either key, although the grid satisfies the constraints. *)
Theorem untrimmed_line_rejected (inputLines : list string) (grid : list (list string)) :
  wellFormed inputLines → ¬ Forall (λ line, JS.trim line = line) inputLines →
  baselineSolver inputLines = inr grid ∨ baselineSolverText inputLines = inr grid →
  validatePuzzle inputLines grid = Some false ∧ validGrid inputLines grid.
Proof.
  intros Hwf Hn [Hs|Hs]; (split; [by eapply solveWith_rejects_untrimmed
                                 |by eapply solveWith_sound]).
Qed.

Lemma untrimmed_line_rejected_witness :
  validatePuzzle paddedInput exampleGrid = Some false ∧ validGrid paddedInput exampleGrid.
Proof.
  apply (untrimmed_line_rejected paddedInput exampleGrid).
  - by_evaluation.
  - by_evaluation.
  - left. vm_compute. reflexivity.
Defined.

Lemma checkRowsFrom_app (originalRows more solution extra : list (list string))
    (idxs : list nat) :
  Forall (λ i, (i < length originalRows)%nat ∧ (i < length solution)%nat) idxs →
  checkRowsFrom (originalRows ++ more) (solution ++ extra) idxs
  = checkRowsFrom originalRows solution idxs.
Proof.
  induction 1 as [|i idxs [Ho Hs] _ IH]; [done|]. cbn [checkRowsFrom].
  by rewrite !lookup_app_l, IH by done.
Qed.

Lemma countColumns_app (solution extra : list (list string)) :
  (16 ≤ length solution)%nat → countColumns (solution ++ extra) = countColumns solution.
Proof.
  intros Hlen. unfold countColumns. generalize ([0; 0; 0; 0], [0; 0; 0; 0], [0; 0; 0; 0]).
  assert (Forall (λ i, (i < length solution)%nat) (seq 0 16)) as Hidx.
  { apply Forall_forall. intros i Hi. apply elem_of_seq in Hi. lia. }
  induction Hidx as [|i idxs Hi _ IH]; intros acc; [done|]. cbn [foldl].
  rewrite IH. by rewrite lookup_total_app_l by done.
Qed.

(** X8. [validatePuzzle] reads the first 16 lines and the first 16 rows
    only: lines and rows after them do not change its result. *)
Theorem validatePuzzle_ignores_rest (input more : list string)
    (solution extra : list (list string)) :
  (16 ≤ length input)%nat → (16 ≤ length solution)%nat →
  validatePuzzle (input ++ more) (solution ++ extra) = validatePuzzle input solution.
Proof.
  intros Hin Hsol. unfold validatePuzzle. cbv zeta.
  rewrite fmap_app, checkRowsFrom_app.
  - by rewrite countColumns_app by done.
  - apply Forall_forall. intros i Hi. apply elem_of_seq in Hi. rewrite length_fmap. lia.
Qed.

Lemma validatePuzzle_ignores_rest_witness :
  validatePuzzle (exampleInput ++ ["A B"]) (exampleGrid ++ [["A"; "B"]])
  = validatePuzzle exampleInput exampleGrid.
Proof.
  apply (validatePuzzle_ignores_rest exampleInput ["A B"] exampleGrid [["A"; "B"]]);
    cbn; lia.
Defined.

Lemma checkRowsFrom_true (originalRows solution : list (list string)) (idxs : list nat) :
  checkRowsFrom originalRows solution idxs = Some true →
  Forall (λ i, (i < length originalRows)%nat ∧ (i < length solution)%nat) idxs.
Proof.
  induction idxs as [|i idxs IH]; [constructor|]. cbn [checkRowsFrom].
  destruct (originalRows !! i) as [o|] eqn:Ho; [|done].
  destruct (solution !! i) as [s|] eqn:Hs; [|done].
  destruct (rowsAgree o s); [|done]. intros Hr. constructor; [|by apply IH].
  split; by eapply lookup_lt_Some.
Qed.

(** X9. [validatePuzzle] accepts only when both the input and the solution
    have at least 16 rows; with fewer it returns [false] or throws. *)
Theorem validatePuzzle_needs_sixteen (input : list string) (solution : list (list string)) :
  validatePuzzle input solution = Some true →
  (16 ≤ length input)%nat ∧ (16 ≤ length solution)%nat.
Proof.
  unfold validatePuzzle. cbv zeta.
  destruct (checkRowsFrom _ solution (seq 0 16)) as [[]|] eqn:Hc; [|done|done].
  intros _. apply checkRowsFrom_true in Hc. rewrite Forall_forall in Hc.
  specialize (Hc 15%nat). rewrite elem_of_seq, length_fmap in Hc. lia.
Qed.

Lemma validatePuzzle_needs_sixteen_witness :
  (16 ≤ length exampleInput)%nat ∧ (16 ≤ length exampleGrid)%nat.
Proof.
  apply (validatePuzzle_needs_sixteen exampleInput exampleGrid). vm_compute. reflexivity.
Defined.

(** ** Normalization of the rows *)

Lemma orderCompare_total a b : 0 < orderCompare a b → orderCompare b a <= 0.
Proof. unfold orderCompare. lia. Qed.

Lemma orderCompare_trans a b c :
  orderCompare a b <= 0 → orderCompare b c <= 0 → orderCompare a c <= 0.
Proof. unfold orderCompare. lia. Qed.

Lemma orderCompare_antisym a b :
  a ∈ LABELS → b ∈ LABELS → orderCompare a b <= 0 → orderCompare b a <= 0 → a = b.
Proof.
  intros Ha Hb.
  repeat (apply elem_of_cons in Ha as [->|Ha]); [| | | |by apply elem_of_nil in Ha];
    repeat (apply elem_of_cons in Hb as [->|Hb]); try (by apply elem_of_nil in Hb);
    vm_compute; intros H1 H2; try reflexivity; by (destruct H1 || destruct H2).
Qed.

(** Two lines with the same labels, in any order, are normalized to the
    same row. *)
Lemma parseLine_perm_eq line line' :
  Forall (λ w, w ∈ LABELS) (tokens line) → tokens line ≡ₚ tokens line' →
  parseLine line = parseLine line'.
Proof.
  intros HF Hperm. unfold parseLine.
  apply (StronglySorted_unique_strong (λ a b, orderCompare a b <= 0)).
  - intros a b Ha Hb. apply orderCompare_antisym.
    + rewrite sort_elem_of in Ha. by apply (proj1 (Forall_forall _ _) HF).
    + rewrite sort_elem_of, <- Hperm in Hb. by apply (proj1 (Forall_forall _ _) HF).
  - apply sort_sorted; [apply orderCompare_total|apply orderCompare_trans].
  - apply sort_sorted; [apply orderCompare_total|apply orderCompare_trans].
  - by rewrite !sort_perm.
Qed.

Lemma solveWith_perm {K} `{Countable K}
    (enc : nat → list Z → list Z → list Z → K) (inputLines inputLines' : list string) :
  Forall (λ line, Forall (λ w, w ∈ LABELS) (tokens line)) inputLines →
  Forall2 (λ line line', tokens line ≡ₚ tokens line') inputLines inputLines' →
  solveWith enc inputLines = solveWith enc inputLines'.
Proof.
  intros HF H2.
  assert (length inputLines = length inputLines') as Hlen by (by eapply Forall2_length).
  assert (parseLine <$> inputLines = parseLine <$> inputLines') as Hrows.
  { clear Hlen. induction H2 as [|line line' ls ls' Hp _ IH]; [done|].
    apply Forall_cons in HF as [Hl HF]. rewrite !fmap_cons. f_equal; [|by apply IH].
    by apply parseLine_perm_eq. }
  unfold solveWith. by rewrite Hlen, Hrows.
Qed.

(** X10. The order of the words within a line does not matter: two inputs
    whose lines hold the same labels, line by line, get the same result from
    [baselineSolver], with either key. *)
Theorem word_order_irrelevant (inputLines inputLines' : list string) :
  Forall (λ line, Forall (λ w, w ∈ LABELS) (tokens line)) inputLines →
  Forall2 (λ line line', tokens line ≡ₚ tokens line') inputLines inputLines' →
  baselineSolver inputLines = baselineSolver inputLines' ∧
  baselineSolverText inputLines = baselineSolverText inputLines'.
Proof. intros HF H2. split; by apply solveWith_perm. Qed.

Lemma word_order_irrelevant_witness :
  baselineSolver exampleInput = baselineSolver shuffledInput ∧
  baselineSolverText exampleInput = baselineSolverText shuffledInput.
Proof.
  apply (word_order_irrelevant exampleInput shuffledInput).
  - by_evaluation.
  - unfold exampleInput, shuffledInput.
    constructor; [vm_compute; do 2 apply perm_skip; apply perm_swap|].
    constructor; [vm_compute; apply (Permutation_rev ["A"; "A"; "B"; "AX"])|].
    repeat (constructor; [reflexivity|]). constructor.
Defined.

(** ** The permutations of the three other words *)

Lemma makeUniquePerms3_row (rows : list (list string)) (rowIdx : nat) :
  makeUniquePerms3 rows rowIdx = makeUniquePerms3 [rows !!! rowIdx] 0.
Proof. reflexivity. Qed.

(** X11. For a row of four labels, [makeUniquePerms3] lists permutations of
    the indices 1, 2, 3; the word sequences they take from the row are
    pairwise different; and every ordering of the row's three other words
    is among them. *)
Theorem unique_permutations_complete (rows : list (list string)) (rowIdx : nat) :
  let row := rows !!! rowIdx in
  let perms3 := makeUniquePerms3 rows rowIdx in
  length row = 4%nat → Forall (λ w, w ∈ LABELS) row →
  Forall (λ p3, p3 ≡ₚ [1; 2; 3]%nat) perms3 ∧
  NoDup (otherWords row <$> perms3) ∧
  ∀ q, q ≡ₚ drop 1 row → q ∈ otherWords row <$> perms3.
Proof.
  intros row perms3 Hlen HF. unfold perms3. rewrite makeUniquePerms3_row. fold row.
  pose proof (allRows_check uniquePerms_check row eq_refl Hlen HF) as Hc.
  unfold uniquePerms_check in Hc. cbv zeta in Hc.
  apply andb_true_iff in Hc as [Hc H3]. apply andb_true_iff in Hc as [H1 H2].
  rewrite forallb_forall in H1, H3. apply bool_decide_eq_true in H2.
  split; [|split; [done|]].
  - apply Forall_forall. intros p3 Hp. apply list_elem_of_In in Hp.
    apply H1, bool_decide_eq_true, permutations_Permutation in Hp. by symmetry.
  - intros q Hq. symmetry in Hq. apply permutations_Permutation, list_elem_of_In in Hq.
    by apply H3, bool_decide_eq_true in Hq.
Qed.

Lemma unique_permutations_complete_witness :
  Forall (λ p3, p3 ≡ₚ [1; 2; 3]%nat) (makeUniquePerms3 [["AX"; "B"; "A"; "A"]] 0) ∧
  NoDup (otherWords ["AX"; "B"; "A"; "A"] <$> makeUniquePerms3 [["AX"; "B"; "A"; "A"]] 0) ∧
  ∀ q, q ≡ₚ ["B"; "A"; "A"] →
       q ∈ otherWords ["AX"; "B"; "A"; "A"] <$> makeUniquePerms3 [["AX"; "B"; "A"; "A"]] 0.
Proof.
  apply (unique_permutations_complete [["AX"; "B"; "A"; "A"]] 0).
  - reflexivity.
  - by_evaluation.
Defined.

(** ** Which word an [InvalidWord] error names *)

Lemma indexOf_ORDER (w : string) :
  (unrecognized w = true ∧ JS.indexOf ORDER w = -1) ∨
  (unrecognized w = false ∧ 0 <= JS.indexOf ORDER w).
Proof.
  unfold unrecognized, JS.includes, JS.indexOf, LABELS, ORDER.
  cbn [existsb JS.indexOfFrom].
  rewrite (String.eqb_sym "BX" w), (String.eqb_sym "AX" w), (String.eqb_sym "B" w),
    (String.eqb_sym "A" w).
  destruct (String.eqb w "A"), (String.eqb w "B"), (String.eqb w "AX"),
    (String.eqb w "BX"); cbn; (by left) || (right; split; [done|lia]).
Qed.

(** Unrecognized words sort before the labels and keep their order: the
    first word of the normalized row is the first unrecognized word of the
    line. *)
Lemma sort_head_unrecognized (ws : list string) (w : string) :
  find unrecognized ws = Some w → JS.sort orderCompare ws !! 0%nat = Some w.
Proof.
  induction ws as [|x ws IH]; [done|]. cbn [find JS.sort].
  destruct (indexOf_ORDER x) as [[Hx Hix]|[Hx Hix]]; rewrite Hx.
  - intros [= <-]. destruct (JS.sort orderCompare ws) as [|y t]; [done|].
    cbn [JS.sortInsert]. unfold orderCompare. rewrite Hix.
    destruct (indexOf_ORDER y) as [[_ Hiy]|[_ Hiy]];
      destruct (Z.leb_spec (-1 - JS.indexOf ORDER y) 0); try lia; done.
  - intros Hf. specialize (IH Hf).
    destruct (JS.sort orderCompare ws) as [|y t]; [done|]. injection IH as ->.
    apply find_some in Hf as [_ Hw].
    destruct (indexOf_ORDER w) as [[_ Hiw]|[Hw' _]]; [|congruence].
    cbn [JS.sortInsert]. unfold orderCompare. rewrite Hiw.
    destruct (Z.leb_spec (JS.indexOf ORDER x - -1) 0); [lia|done].
Qed.

Lemma find_unrecognized_None (ws : list string) :
  find unrecognized ws = None ↔ Forall (λ w, w ∈ LABELS) ws.
Proof.
  rewrite find_None_Forall. apply Forall_iff. intros w. unfold unrecognized.
  by rewrite negb_false_iff, includes_LABELS.
Qed.

Lemma firstBadLine_spec (s : nat) (lines : list string) (w : string) (i : nat) :
  firstBadLine s lines = Some (w, i) →
  ∃ j line, i = (s + j)%nat ∧ lines !! j = Some line ∧
    firstUnrecognized line = Some w ∧
    ∀ j' line', (j' < j)%nat → lines !! j' = Some line' →
      Forall (λ w, w ∈ LABELS) (tokens line').
Proof.
  revert s. induction lines as [|line rest IH]; intros s; [done|]. cbn [firstBadLine].
  destruct (firstUnrecognized line) as [w'|] eqn:Hf.
  - intros [= -> ->]. exists 0%nat, line. split; [lia|]. split; [done|]. split; [done|].
    intros j' line' Hj'. lia.
  - intros Hr. destruct (IH _ Hr) as (j & l & -> & Hl & Hw & Hbefore).
    exists (S j), l. split; [lia|]. split; [done|]. split; [done|].
    intros [|j'] line' Hj' Hl'.
    + injection Hl' as <-. by apply find_unrecognized_None.
    + apply (Hbefore j'); [lia|done].
Qed.

Lemma find_app_None {A} (f : A → bool) (l1 l2 : list A) :
  find f l1 = None → find f (l1 ++ l2) = find f l2.
Proof.
  induction l1 as [|x l1 IH]; [done|]. cbn [find app].
  destruct (f x); [done|]. apply IH.
Qed.

Lemma find_cells_first (rows : list (list string)) (i : nat) (start n : nat) :
  (start ≤ i < start + n)%nat →
  (∀ i', (start ≤ i' < i)%nat → Forall (λ k, invalidCell rows (i', k) = false) (seq 0 4)) →
  invalidCell rows (i, 0%nat) = true →
  find (invalidCell rows) (flat_map (λ i, (λ k, (i, k)) <$> seq 0 4) (seq start n))
  = Some (i, 0%nat).
Proof.
  revert start. induction n as [|n IH]; intros start Hi Hbefore Hbad; [lia|].
  cbn [seq flat_map].
  destruct (decide (start = i)) as [->|Hne].
  - cbn [fmap list_fmap seq app find]. by rewrite Hbad.
  - assert (find (invalidCell rows) ((λ k, (start, k)) <$> seq 0 4) = None) as Hnone.
    { apply find_None_Forall, Forall_fmap. apply (Hbefore start). lia. }
    rewrite (find_app_None _ _ _ Hnone). apply IH; [lia| |done].
    intros i' Hi'. apply Hbefore. lia.
Qed.

Lemma solveWith_invalid_word {K} `{Countable K}
    (enc : nat → list Z → list Z → list Z → K) (inputLines : list string)
    (w : string) (i : nat) :
  length inputLines = 16%nat →
  Forall (λ line, length (tokens line) = 4%nat) inputLines →
  firstBadLine 0 inputLines = Some (w, i) →
  solveWith enc inputLines = inl (InvalidWord w i).
Proof.
  intros Hlen H4 Hbad.
  destruct (firstBadLine_spec _ _ _ _ Hbad) as (j & line & -> & Hl & Hw & Hbefore).
  cbn [Nat.add].
  assert (j < 16)%nat as Hj by (rewrite <- Hlen; by eapply lookup_lt_Some).
  set (rows := parseLine <$> inputLines).
  assert (∀ i' l, inputLines !! i' = Some l → rows !!! i' = parseLine l) as Hrow.
  { intros i' l Hi'. unfold rows.
    by rewrite list_lookup_total_alt, list_lookup_fmap, Hi'. }
  assert (parseLine line !! 0%nat = Some w) as Hhead by (by apply sort_head_unrecognized).
  assert (find (invalidCell rows) cells = Some (j, 0%nat)) as Hfind.
  { apply find_cells_first; [lia| |].
    - intros i' Hi'. destruct (lookup_lt_is_Some_2 inputLines i') as [l' Hl']; [lia|].
      pose proof (Hbefore i' l' ltac:(lia) Hl') as HF.
      apply Forall_forall. intros k Hk. apply elem_of_seq in Hk.
      unfold invalidCell. cbn [fst snd]. rewrite (Hrow _ _ Hl').
      apply negb_false_iff, includes_LABELS.
      rewrite <- (parseLine_perm l') in HF.
      apply (Forall_lookup_total_1 _ _ _ HF).
      rewrite parseLine_length. rewrite (Forall_lookup_1 _ _ _ _ H4 Hl'). lia.
    - unfold invalidCell. cbn [fst snd]. rewrite (Hrow _ _ Hl).
      rewrite (list_lookup_total_correct _ _ _ Hhead).
      apply find_some in Hw as [_ Hw]. exact Hw. }
  unfold solveWith. cbv zeta.
  destruct (assignRow enc _ 16 initialState) as [ok st].
  rewrite Hlen. cbn [Nat.eqb negb].
  rewrite (proj2 (forallb_length4 inputLines) H4). cbn [negb].
  change (parseLine <$> inputLines) with rows. rewrite Hfind. cbn [fst snd]. rewrite (Hrow _ _ Hl).
  by rewrite (list_lookup_total_correct _ _ _ Hhead).
Qed.

(** X12. On 16 lines of four words each, one of which is not a label, the
    [InvalidWord] error names the first line that has an unrecognized word
    and, of that line, the first unrecognized word in the order of the line
    (the sort moves the unrecognized words to the front of the row and
    keeps their order). *)
Theorem invalid_word_reported (inputLines : list string) (w : string) (i : nat) :
  length inputLines = 16%nat →
  Forall (λ line, length (tokens line) = 4%nat) inputLines →
  firstBadLine 0 inputLines = Some (w, i) →
  baselineSolver inputLines = inl (InvalidWord w i) ∧
  baselineSolverText inputLines = inl (InvalidWord w i).
Proof. intros Hlen H4 Hbad. split; by apply solveWith_invalid_word. Qed.

Lemma invalid_word_reported_witness :
  baselineSolver misspelledInput = inl (InvalidWord "C" 2) ∧
  baselineSolverText misspelledInput = inl (InvalidWord "C" 2).
Proof.
  apply (invalid_word_reported misspelledInput "C" 2).
  - reflexivity.
  - by_evaluation.
  - vm_compute. reflexivity.
Defined.

(** ** Lines and their words *)

Lemma splitGo_word (cur w s : string) (inSep : bool) :
  noWhiteSpace w = true → w ≠ "" →
  JS.splitGo cur inSep (w +:+ s) = JS.splitGo (cur +:+ w) false s.
Proof.
  revert cur inSep. induction w as [|c w IH]; intros cur inSep Hw Hne; [done|].
  cbn [noWhiteSpace] in Hw. apply andb_true_iff in Hw as [Hc Hw].
  apply negb_true_iff in Hc.
  change (String c w +:+ s) with (String c (w +:+ s)). cbn [JS.splitGo]. rewrite Hc.
  destruct w as [|d w].
  - change ("" +:+ s) with s. reflexivity.
  - rewrite IH by done. by rewrite string_append_assoc.
Qed.

Lemma append_empty_r (s : string) : s +:+ "" = s.
Proof.
  induction s as [|c s IH]; [done|].
  change (String c (s +:+ "") = String c s). by rewrite IH.
Qed.

(** [split] undoes [join(" ")] on words. *)
Lemma split_join (ws : list string) :
  ws ≠ [] → Forall isWord ws → JS.splitWhiteSpace (JS.join " " ws) = ws.
Proof.
  intros Hne HF. unfold JS.splitWhiteSpace.
  assert (∀ inSep, JS.splitGo "" inSep (JS.join " " ws) = ws) as Hgo; [|apply Hgo].
  destruct ws as [|w ws]; [done|]. clear Hne. revert w HF.
  induction ws as [|w' ws IH]; intros w HF inSep.
  - apply Forall_cons in HF as [[Hw1 Hw2] _]. cbn [JS.join].
    rewrite <- (append_empty_r w) at 1. rewrite splitGo_word by done. reflexivity.
  - apply Forall_cons in HF as [[Hw1 Hw2] HF].
    change (JS.join " " (w :: w' :: ws)) with (w +:+ " " +:+ JS.join " " (w' :: ws)).
    rewrite splitGo_word by done.
    change (" " +:+ JS.join " " (w' :: ws)) with (String " " (JS.join " " (w' :: ws))).
    cbn [JS.splitGo]. change (JS.isWhiteSpace " ") with true. cbv iota.
    change ("" +:+ w) with w. f_equal. by apply IH.
Qed.

Lemma tokens_join0 (ws : list string) :
  ws ≠ [] → Forall isWord ws →
  tokens (JS.join " " ws) = ws ∧ JS.trim (JS.join " " ws) = JS.join " " ws.
Proof.
  intros Hne HF.
  assert (JS.trim (JS.join " " ws) = JS.join " " ws) as Htrim.
  { destruct (decide (JS.trim (JS.join " " ws) = JS.join " " ws)) as [|Hn]; [done|].
    apply split_untrimmed in Hn. rewrite split_join in Hn by done.
    rewrite Forall_forall in HF. by destruct (HF _ Hn) as [? _]. }
  split; [|done]. unfold tokens. rewrite Htrim. by apply split_join.
Qed.

(** X13. Parsing undoes joining: a non-empty list of words (not empty, no
    white space in them) joined with single spaces is tokenized into the
    same list; in particular the line has no white space to trim. *)
Theorem tokens_join (ws : list string) :
  ws ≠ [] → Forall isWord ws →
  tokens (JS.join " " ws) = ws ∧ JS.trim (JS.join " " ws) = JS.join " " ws.
Proof. apply tokens_join0. Qed.

Lemma tokens_join_witness :
  tokens (JS.join " " ["B"; "AX"; "A"; "A"]) = ["B"; "AX"; "A"; "A"] ∧
  JS.trim (JS.join " " ["B"; "AX"; "A"; "A"]) = JS.join " " ["B"; "AX"; "A"; "A"].
Proof.
  apply (tokens_join ["B"; "AX"; "A"; "A"]).
  - discriminate.
  - repeat constructor; discriminate.
Defined.

Lemma label_isWord (w : string) : w ∈ LABELS → isWord w.
Proof.
  intros Hw. unfold LABELS in Hw. rewrite !elem_of_cons, elem_of_nil in Hw.
  destruct Hw as [->|[->|[->|[->|[]]]]]; split; done.
Qed.

Lemma shuffled_rows (shuffled arrangement : list (list string)) :
  Forall2 (λ r r', r ≡ₚ r') shuffled arrangement →
  Forall modelRow arrangement → Forall modelRow shuffled.
Proof.
  induction 1 as [|r r' l l' Hp _ IH]; intros Hrows; [constructor|].
  apply Forall_cons in Hrows as [(H4 & HL & H1) Hrest]. constructor; [|by apply IH].
  split; [by rewrite Hp|]. split; [by rewrite Hp|]. by rewrite (countWords_perm _ _ _ Hp).
Qed.

Lemma modelRow_tokens (r : list string) :
  modelRow r →
  tokens (JS.join " " r) = r ∧ JS.trim (JS.join " " r) = JS.join " " r.
Proof.
  intros (H4 & HL & _). apply tokens_join0.
  - by destruct r.
  - eapply Forall_impl; [exact HL|]. apply label_isWord.
Qed.

Lemma modelRow_rowLine (r : list string) : modelRow r → rowLine (JS.join " " r).
Proof.
  intros Hr. destruct (modelRow_tokens r Hr) as [Ht _]. destruct Hr as (H4 & HL & H1).
  unfold rowLine, recognizedLine. by rewrite Ht.
Qed.

Lemma shuffled_wellFormed (shuffled : list (list string)) :
  length shuffled = 16%nat → Forall modelRow shuffled →
  wellFormed (JS.join " " <$> shuffled) ∧
  Forall (λ line, JS.trim line = line) (JS.join " " <$> shuffled).
Proof.
  intros Hlen Hrows. split; [split; [by rewrite length_fmap|]|];
    apply Forall_fmap; (eapply Forall_impl; [exact Hrows|]); intros r Hr; cbn.
  - by apply modelRow_rowLine.
  - by destruct (modelRow_tokens r Hr).
Qed.

Lemma fmap_lookup_total_lt {A B} `{!Inhabited A, !Inhabited B} (f : A → B)
    (l : list A) (i : nat) :
  (i < length l)%nat → (f <$> l) !!! i = f (l !!! i).
Proof.
  intros [x Hx]%lookup_lt_is_Some_2.
  by rewrite !list_lookup_total_alt, list_lookup_fmap, Hx.
Qed.

Lemma shuffled_solvable (shuffled arrangement : list (list string)) :
  length arrangement = 16%nat → Forall modelRow arrangement →
  columnsValid arrangement → Forall2 (λ r r', r ≡ₚ r') shuffled arrangement →
  solvable (JS.join " " <$> shuffled).
Proof.
  intros Hlen Hrows Hcols Hsh. exists arrangement. split; [split; [done|]|done].
  intros i Hi.
  pose proof (shuffled_rows _ _ Hsh Hrows) as HS.
  assert (length shuffled = 16%nat) as Hls by (by rewrite (Forall2_length _ _ _ Hsh)).
  destruct (lookup_lt_is_Some_2 shuffled i ltac:(lia)) as [r Hr].
  destruct (lookup_lt_is_Some_2 arrangement i ltac:(lia)) as [r' Hr'].
  rewrite (list_lookup_total_correct _ _ _ Hr').
  rewrite fmap_lookup_total_lt, (list_lookup_total_correct _ _ _ Hr) by lia.
  destruct (modelRow_tokens r (Forall_lookup_1 _ _ _ _ HS Hr)) as [-> _].
  symmetry. by apply (Forall2_lookup_lr _ _ _ _ _ _ Hsh Hr Hr').
Qed.

Lemma solveWith_shuffled {K K'} `{Countable K} `{Countable K'}
    (enc : nat → list Z → list Z → list Z → K)
    (key : nat → Cols → Cols → Cols → K') (shuffled arrangement : list (list string)) :
  keysAgree enc key → checkFrom (checkOne key) 16 0 [] = true →
  length arrangement = 16%nat → Forall modelRow arrangement →
  columnsValid arrangement → Forall2 (λ r r', r ≡ₚ r') shuffled arrangement →
  ∃ grid, solveWith enc (JS.join " " <$> shuffled) = inr grid ∧
          validGrid (JS.join " " <$> shuffled) grid ∧
          validatePuzzle (JS.join " " <$> shuffled) grid = Some true.
Proof.
  intros Hkeys Hall Hlen Hrows Hcols Hsh.
  assert (length shuffled = 16%nat) as Hls by (by rewrite (Forall2_length _ _ _ Hsh)).
  destruct (shuffled_wellFormed shuffled Hls (shuffled_rows _ _ Hsh Hrows)) as [Hwf Htrim].
  destruct (solveWith_complete enc key _ Hkeys Hall Hwf
              (shuffled_solvable _ _ Hlen Hrows Hcols Hsh)) as (grid & Hg & Hv).
  exists grid. split; [done|]. split; [done|]. by eapply solveWith_validates.
Qed.

(** X14. Shuffling the rows of a valid arrangement gives a puzzle that is
    solved.  Take 16 rows of four labels, one marked word in each, whose
    columns satisfy the constraints; permute the words of each row and join
    them with spaces, as the generator does.  On these lines
    [baselineSolver], with either key, returns a grid; the grid satisfies
    the constraints and [validatePuzzle] accepts it. *)
Theorem shuffled_arrangement_solved (shuffled arrangement : list (list string)) :
  length arrangement = 16%nat → Forall modelRow arrangement →
  columnsValid arrangement → Forall2 (λ r r', r ≡ₚ r') shuffled arrangement →
  let input := JS.join " " <$> shuffled in
  (∃ grid, baselineSolver input = inr grid ∧ validGrid input grid ∧
           validatePuzzle input grid = Some true) ∧
  (∃ grid, baselineSolverText input = inr grid ∧ validGrid input grid ∧
           validatePuzzle input grid = Some true).
Proof.
  intros Hlen Hrows Hcols Hsh input. split.
  - exact (solveWith_shuffled encodeState keyB shuffled arrangement keysAgree_B
             checkAll_keyB Hlen Hrows Hcols Hsh).
  - exact (solveWith_shuffled encodeStateText keyA shuffled arrangement keysAgree_A
             checkAll_keyA Hlen Hrows Hcols Hsh).
Qed.

Lemma shuffled_arrangement_solved_witness :
  let input := JS.join " " <$> exampleGrid in
  (∃ grid, baselineSolver input = inr grid ∧ validGrid input grid ∧
           validatePuzzle input grid = Some true) ∧
  (∃ grid, baselineSolverText input = inr grid ∧ validGrid input grid ∧
           validatePuzzle input grid = Some true).
Proof.
  apply (shuffled_arrangement_solved exampleGrid exampleGrid).
  - reflexivity.
  - by_evaluation.
  - intros j Hj.
    assert (j = 0 ∨ j = 1 ∨ j = 2 ∨ j = 3)%nat as [->|[->|[->| ->]]] by lia;
      vm_compute; repeat split; repeat constructor.
  - unfold exampleGrid. repeat (constructor; [reflexivity|]). constructor.
Defined.

(** ** The memo during the search *)

Section MemoLog.
Context {K : Type} `{Countable K}.
Variable T : Tables.
Implicit Type st : State K.

Lemma placeX_memo st rIdx colX : memo (placeX T st rIdx colX) = memo st.
Proof. by rewrite placeX_eq. Qed.

(** What a call promises: the states it logs hold no [true], and neither
    does the state it returns when it fails. *)
Definition keepsNoTrue (f : State K → bool * State K * list (State K)) : Prop :=
  ∀ st, noTrue st →
    Forall noTrue (f st).2 ∧ ((f st).1.1 = false → noTrue (f st).1.2).

Lemma permLoopLog_noTrue recL pos rIdx colX perms :
  keepsNoTrue recL → keepsNoTrue (λ st, permLoopLog T recL pos rIdx colX perms st).
Proof.
  intros Hrec. induction perms as [|p3 rest IH]; intros st Hst;
    cbn [permLoopLog]; [by split|].
  assert (noTrue (placeOthers T st rIdx colX p3)) as H2.
  { intros k. rewrite placeOthers_memo. apply Hst. }
  destruct (pruneValid T _ pos).
  - destruct (Hrec _ H2) as [Hlog H3].
    destruct (recL _) as [[[] st3] log]; cbn [fst snd] in *.
    + split; [by constructor|done].
    + specialize (H3 eq_refl).
      destruct (IH (restoreBCount st3 (BCount st)) H3) as [Hlog' H5].
      destruct (permLoopLog _ _ _ _ _ _ _) as [[r st5] log']; cbn [fst snd] in *.
      split; [|done]. constructor; [done|]. apply Forall_app. split; [done|].
      by constructor.
  - destruct (IH (restoreBCount (placeOthers T st rIdx colX p3) (BCount st)) H2)
      as [Hlog' H5].
    destruct (permLoopLog _ _ _ _ _ _ _) as [[r st5] log']; cbn [fst snd] in *.
    split; [|done]. constructor; [done|]. by constructor.
Qed.

Lemma colLoopLog_noTrue recL pos rIdx cols :
  keepsNoTrue recL → keepsNoTrue (λ st, colLoopLog T recL pos rIdx cols st).
Proof.
  intros Hrec. induction cols as [|colX rest IH]; intros st Hst;
    cbn [colLoopLog]; [by split|].
  destruct (XCapacity st !!! colX <=? 0); [by apply IH|].
  destruct (xIsBX T !!! rIdx && _); [by apply IH|].
  assert (noTrue (placeX T st rIdx colX)) as H1.
  { intros k. rewrite placeX_memo. apply Hst. }
  destruct (permLoopLog_noTrue recL pos rIdx colX (rowNonXPerms T !!! rIdx) Hrec _ H1)
    as [Hlog H2].
  destruct (permLoopLog _ _ _ _ _ _ _) as [[[] st2] log]; cbn [fst snd] in *.
  - split; [by constructor|done].
  - specialize (H2 eq_refl).
    destruct (IH (revertX st2 colX (XCapacity st !!! colX) (BXCapacity st !!! colX)
                    (BCount st)) H2) as [Hlog' H4].
    destruct (colLoopLog _ _ _ _ _ _) as [[r st4] log']; cbn [fst snd] in *.
    split; [|done]. constructor; [done|]. apply Forall_app. split; [done|].
    by constructor.
Qed.

Lemma assignRowLog_noTrue (enc : nat → list Z → list Z → list Z → K) left :
  keepsNoTrue (assignRowLog enc T left).
Proof.
  induction left as [|left IH]; intros st Hst; cbn [assignRowLog].
  - split; [by constructor|done].
  - destruct (memo st !! _) as [b|] eqn:Hm; [split; [by constructor|done]|].
    destruct (colLoopLog_noTrue (assignRowLog enc T left) (16 - S left)
                (rowOrder T !!! (16 - S left)%nat) (seq 0 4) IH st Hst) as [Hlog H1].
    destruct (colLoopLog _ _ _ _ _ _) as [[found st1] log]; cbn [fst snd] in *.
    split; [by constructor|]. intros ->. specialize (H1 eq_refl).
    intros k. cbn [memo setMemo]. rewrite lookup_insert. case_decide; [done|apply H1].
Qed.
End MemoLog.

(** X15. In every state the search goes through (on entry to each call of
    [assignRow], after each placement and after each revert) the memo holds
    no [true]: [memo.set(stateKey, true)] runs only while the search
    returns its answer, so a key found in the memo always gives [false]. *)
Theorem memo_holds_no_true {K} `{Countable K}
    (enc : nat → list Z → list Z → list Z → K) (T : Tables) :
  Forall (λ st : State K, ∀ k, memo st !! k ≠ Some true) (searchLog enc T).
Proof.
  unfold searchLog.
  refine (proj1 (assignRowLog_noTrue T enc 16 initialState _)).
  intros k. unfold initialState. cbn [memo]. by rewrite lookup_empty.
Qed.
